(** * tvheadend [src/wrappers.c]: process-safety and synchronisation wrappers

    A shallow embedding of the wrappers of [src/wrappers.c] and the
    properties the specification states about them.

    The wrappers are thin layers over operating-system calls, so every
    function is a computation in a small state monad [M] over a [world]:
    the descriptor table, the fork lock, [errno], the thread-local storage
    of the sort shim, the bytes each descriptor has accepted, and the trace
    of calls made so far.  What the operating system decides (whether a call
    fails, how many bytes a write accepts, what the clock reads, whether a
    sleep is interrupted) is read from an oracle, the [kernel] record of the
    world, indexed by the number of calls already made.  Loops that the C
    code does not bound take a fuel argument; [Fuel] is the outcome of a run
    that needs more iterations than it was given, [Abort] that of a run that
    reached [abort()]. *)

From Stdlib Require Import ZArith Lia List Ascii String Permutation Sorted.
From stdpp Require Import base option list gmap.

Open Scope Z_scope.

(* ===================================================================== *)
(** * Part I: the model                                                   *)
(* ===================================================================== *)

(** ** Machine integers *)

(** [int64_t] and [int] with two's-complement wrap-around, [size_t] as a
    64-bit unsigned integer. *)
Definition wrap64 (x : Z) : Z := (x + 2 ^ 63) mod 2 ^ 64 - 2 ^ 63.
Definition wrap32 (x : Z) : Z := (x + 2 ^ 31) mod 2 ^ 32 - 2 ^ 31.
Definition wrap_size (x : Z) : Z := x mod 2 ^ 64.

Definition in_int64 (x : Z) : Prop := - 2 ^ 63 <= x < 2 ^ 63.
Definition in_size (x : Z) : Prop := 0 <= x < 2 ^ 64.

Definition int64_add (a b : Z) : Z := wrap64 (a + b).
Definition int64_mul (a b : Z) : Z := wrap64 (a * b).
Definition int64_neg (a : Z) : Z := wrap64 (- a).
(** C's [/] and [%] truncate toward zero: [Z.quot] and [Z.rem]. *)
Definition int64_div (a b : Z) : Z := wrap64 (Z.quot a b).
Definition int64_rem (a b : Z) : Z := wrap64 (Z.rem a b).
Definition size_sub (a b : Z) : Z := wrap_size (a - b).

(** ** Constants of the system headers (Linux values) *)

Definition EINTR : Z := 4.
Definition EBADF : Z := 9.
Definition EAGAIN : Z := 11.
Definition EWOULDBLOCK : Z := 11.
Definition EBUSY : Z := 16.
Definition EINVAL : Z := 22.
Definition EMFILE : Z := 24.
Definition EPIPE : Z := 32.
Definition ETIMEDOUT : Z := 110.

Definition FD_CLOEXEC : Z := 1.
Definition O_RDONLY : Z := 0.
Definition O_WRONLY : Z := 1.
Definition O_ACCMODE : Z := 3.
Definition O_APPEND : Z := 1024.
Definition O_NONBLOCK : Z := 2048.
Definition O_ASYNC : Z := 8192.
Definition O_DIRECT : Z := 16384.
Definition O_NOATIME : Z := 262144.
Definition O_CLOEXEC : Z := 524288.
Definition SOCK_CLOEXEC : Z := 524288.

Definition CLOCK_REALTIME : Z := 0.
Definition CLOCK_MONOTONIC : Z := 1.
Definition TIMER_ABSTIME : Z := 1.

(** Modelled from the spec: the macro [ERRNO_AGAIN] of [tvheadend.h], which
    is not among the sources.  The spec calls it the retryable,
    "resource-temporarily-unavailable class" of errors, and the class a sleep
    reports when "interrupted". *)
Definition ERRNO_AGAIN (e : Z) : bool :=
  (e =? EAGAIN) || (e =? EINTR) || (e =? EWOULDBLOCK).

(** Modelled from the spec: the macro [sec2mono] of the clock header, which
    is not among the sources; the monotonic clock counts microseconds. *)
Definition MONOCLOCK_RESOLUTION : Z := 1000000.
Definition sec2mono (s : Z) : Z := int64_mul s MONOCLOCK_RESOLUTION.

(** ** Data *)

Definition char := ascii.
Definition NUL : char := Ascii.zero.

Record timespec := { tv_sec : Z; tv_nsec : Z }.

(** An open descriptor: its descriptor flags ([F_GETFD]) and its file status
    flags ([F_GETFL]). *)
Record fdesc := { fd_flags : Z; fl_flags : Z }.

(** [th_pipe_t] *)
Record th_pipe_t := { rd : Z; wr : Z }.

(** [struct thread_state]; [run] and [arg] are addresses, [name] is the
    17-byte array. *)
Record thread_state := { run : Z; arg : Z; name : list char }.

(** [tvh_cond_t]: the clock the condition variable measures timeouts
    against, [None] while it is not initialised. *)
Record tvh_cond_t := { cond : option Z }.

(** A comparator with context, [int (*)(const void *, const void *, void *)]:
    it is given the bytes of the two elements and the context pointer. *)
Definition compar_t : Type := list char -> list char -> Z -> Z.

(** The thread-local [qsort_r_data] of the shim; a null [cmp] is [None]. *)
Record qsort_r_data_t := { cmp : option compar_t; aux : Z }.

(** [struct tvh_qsort_data] of the BSD and Darwin build. *)
Record tvh_qsort_data := { qd_arg : Z; qd_compar : compar_t }.

(** The three ways the sort is built: a native glibc [qsort_r], a native BSD
    or Darwin [qsort_r] (context first, comparator last), or the
    thread-local shim over [qsort] ([! ENABLE_QSORT_R]). *)
Inductive build := NativeGlibc | NativeBSD | Shim.

(** ** Calls that reach outside the process *)

Inductive event :=
| Ev_mutex_lock
| Ev_mutex_unlock
| Ev_open (flags : Z) (ret : Z)
| Ev_socket (type : Z) (ret : Z)
| Ev_pipe (ret : Z)
| Ev_close (fd : Z)
| Ev_fcntl_set (fd : Z) (v : Z)
| Ev_write (fd : Z) (len : Z) (ret : Z)
| Ev_mclk (t : Z)
| Ev_fastmonoclock (t : Z)
| Ev_nanosleep (flags : Z) (req : timespec) (ret : Z)
| Ev_trylock (ret : Z)
| Ev_pthread_create (ts : thread_state) (ret : Z)
| Ev_condattr_setclock (clock : Z) (ret : Z)
| Ev_cond_init (ret : Z)
| Ev_stderr (msg : string) (code : Z)
| Ev_compar (a b : list char) (ctx : Z).

(** What the operating system decides, for the call made when [n] calls were
    made before it. *)
Record kernel := {
  (** descriptor and thread creation: 0 to succeed, otherwise the [errno] of
      the failure *)
  k_create : nat -> Z;
  (** [write]: the number of bytes the destination has room for, or minus
      the [errno] of the failure *)
  k_write : nat -> Z;
  (** readings of the monotonic clock, in microseconds *)
  k_clock : nat -> Z;
  (** [clock_nanosleep]: its return code, and the time left that it reports
      when a relative sleep is interrupted *)
  k_sleep : nat -> Z * timespec;
  (** [pthread_mutex_trylock]: 0, [EBUSY] or another error number *)
  k_trylock : nat -> Z;
  (** [pthread_condattr_setclock] and [pthread_cond_init] *)
  k_setclock : nat -> Z;
  k_cond_init : nat -> Z
}.

Record world := {
  kern : kernel;
  fds : gmap Z fdesc;
  fork_lock : bool;
  errno : Z;
  qsort_r_data : qsort_r_data_t;
  out : Z -> list char;
  trace : list event
}.

Definition tick (w : world) : nat := length (trace w).

Definition with_fds (f : gmap Z fdesc) (w : world) : world :=
  {| kern := kern w; fds := f; fork_lock := fork_lock w; errno := errno w;
     qsort_r_data := qsort_r_data w; out := out w; trace := trace w |}.
Definition with_fork_lock (b : bool) (w : world) : world :=
  {| kern := kern w; fds := fds w; fork_lock := b; errno := errno w;
     qsort_r_data := qsort_r_data w; out := out w; trace := trace w |}.
Definition with_errno (e : Z) (w : world) : world :=
  {| kern := kern w; fds := fds w; fork_lock := fork_lock w; errno := e;
     qsort_r_data := qsort_r_data w; out := out w; trace := trace w |}.
Definition with_qsort_r_data (d : qsort_r_data_t) (w : world) : world :=
  {| kern := kern w; fds := fds w; fork_lock := fork_lock w; errno := errno w;
     qsort_r_data := d; out := out w; trace := trace w |}.
Definition with_out (o : Z -> list char) (w : world) : world :=
  {| kern := kern w; fds := fds w; fork_lock := fork_lock w; errno := errno w;
     qsort_r_data := qsort_r_data w; out := o; trace := trace w |}.
Definition log (e : event) (w : world) : world :=
  {| kern := kern w; fds := fds w; fork_lock := fork_lock w; errno := errno w;
     qsort_r_data := qsort_r_data w; out := out w; trace := trace w ++ [e] |}.

(** ** The monad *)

Inductive outcome (A : Type) :=
| Ret (a : A) (w : world)
| Abort (w : world)
| Fuel.
Arguments Ret {A} a w.
Arguments Abort {A} w.
Arguments Fuel {A}.

Definition M (A : Type) : Type := world -> outcome A.

Definition ret {A} (a : A) : M A := fun w => Ret a w.
Definition bind {A B} (m : M A) (k : A -> M B) : M B :=
  fun w => match m w with
           | Ret a w' => k a w'
           | Abort w' => Abort w'
           | Fuel => Fuel
           end.
Definition abort {A} : M A := fun w => Abort w.
Definition out_of_fuel {A} : M A := fun _ => Fuel.
Definition gets {A} (f : world -> A) : M A := fun w => Ret (f w) w.
Definition modify (f : world -> world) : M unit := fun w => Ret tt (f w).

(** stdpp's monad notation: [x ← m; k], ['(a, b) ← m; k] and [m ;; k]. *)
#[global] Instance M_ret : MRet M := @ret.
#[global] Instance M_bind : MBind M := fun A B k m => bind m k.

Definition when (b : bool) (m : M Z) : M unit :=
  if b then (m ;; ret tt) else ret tt.

(** ** The operating system's side of the calls *)

Definition emit (e : event) : M unit := modify (log e).

(** POSIX hands out the lowest descriptor number that is not open. *)
Fixpoint first_free (n : nat) (from : Z) (tab : gmap Z fdesc) : Z :=
  match n with
  | O => from
  | S n' => match tab !! from with
            | None => from
            | Some _ => first_free n' (from + 1) tab
            end
  end.
Definition lowest_free (tab : gmap Z fdesc) : Z := first_free (size tab) 0 tab.

(** A call that creates a descriptor with the given flags: the kernel
    either refuses (result -1, [errno] set) or opens the lowest free one. *)
Definition create_fd (fdf flf : Z) : M Z := fun w =>
  let e := k_create (kern w) (tick w) in
  if e =? 0 then
    let fd := lowest_free (fds w) in
    Ret fd (with_fds (<[fd := {| fd_flags := fdf; fl_flags := flf |}]> (fds w))
              w)
  else Ret (-1) (with_errno e w).

Definition cloexec_of (flags bit : Z) : Z :=
  if Z.land flags bit =? 0 then 0 else FD_CLOEXEC.

Definition open (pathname : string) (flags mode : Z) : M Z :=
  fd ← create_fd (cloexec_of flags O_CLOEXEC) flags;
  emit (Ev_open flags fd) ;;
  ret fd.

Definition socket (domain type protocol : Z) : M Z :=
  fd ← create_fd (cloexec_of type SOCK_CLOEXEC) 0;
  emit (Ev_socket type fd) ;;
  ret fd.

(** [pipe(fd)]: on success both ends are opened and stored in the array, on
    failure the array is left as it was.  The first descriptor is the read
    end, open for reading only, the second the write end, open for writing
    only. *)
Definition pipe (fd : Z * Z) : M (Z * (Z * Z)) := fun w =>
  let e := k_create (kern w) (tick w) in
  if e =? 0 then
    let fd0 := lowest_free (fds w) in
    let tab0 := <[fd0 := {| fd_flags := 0; fl_flags := O_RDONLY |}]> (fds w) in
    let fd1 := lowest_free tab0 in
    let tab1 := <[fd1 := {| fd_flags := 0; fl_flags := O_WRONLY |}]> tab0 in
    Ret (0, (fd0, fd1)) (log (Ev_pipe 0) (with_fds tab1 w))
  else Ret (-1, fd) (log (Ev_pipe (-1)) (with_errno e w)).

Definition close (fd : Z) : M Z := fun w =>
  match fds w !! fd with
  | Some _ => Ret 0 (log (Ev_close fd) (with_fds (delete fd (fds w)) w))
  | None => Ret (-1) (log (Ev_close fd) (with_errno EBADF w))
  end.

(** [fcntl(fd, F_GETFD)] and [fcntl(fd, F_GETFL)] *)
Definition fcntl_getfd (fd : Z) : M Z := fun w =>
  match fds w !! fd with
  | Some d => Ret (fd_flags d) w
  | None => Ret (-1) (with_errno EBADF w)
  end.
Definition fcntl_getfl (fd : Z) : M Z := fun w =>
  match fds w !! fd with
  | Some d => Ret (fl_flags d) w
  | None => Ret (-1) (with_errno EBADF w)
  end.

(** [fcntl(fd, F_SETFD, v)]: the only descriptor flag is [FD_CLOEXEC]. *)
Definition fcntl_setfd (fd v : Z) : M Z := fun w =>
  match fds w !! fd with
  | Some d =>
      Ret 0 (log (Ev_fcntl_set fd v)
               (with_fds (<[fd := {| fd_flags := Z.land v FD_CLOEXEC;
                                      fl_flags := fl_flags d |}]> (fds w)) w))
  | None => Ret (-1) (log (Ev_fcntl_set fd v) (with_errno EBADF w))
  end.

(** The file status flags [F_SETFL] can change; the access mode and the
    creation flags in its argument are ignored. *)
Definition SETFL_MASK : Z :=
  Eval cbv in
    Z.lor O_APPEND
      (Z.lor O_ASYNC (Z.lor O_DIRECT (Z.lor O_NOATIME O_NONBLOCK))).

(** The status flags of a descriptor that had [old] after [F_SETFL] with
    argument [v]: the bits [F_SETFL] can change are those of [v], the others
    stay. *)
Definition setfl_flags (old v : Z) : Z :=
  Z.lor (Z.land old (Z.lnot SETFL_MASK)) (Z.land v SETFL_MASK).

(** [fcntl(fd, F_SETFL, v)] *)
Definition fcntl_setfl (fd v : Z) : M Z := fun w =>
  match fds w !! fd with
  | Some d =>
      Ret 0 (log (Ev_fcntl_set fd v)
               (with_fds
                  (<[fd := {| fd_flags := fd_flags d;
                              fl_flags := setfl_flags (fl_flags d) v |}]>
                     (fds w)) w))
  | None => Ret (-1) (log (Ev_fcntl_set fd v) (with_errno EBADF w))
  end.

(** [pthread_mutex_lock(&fork_lock)] and [pthread_mutex_unlock(&fork_lock)] *)
Definition lock_fork_lock : M unit :=
  modify (with_fork_lock true) ;; emit Ev_mutex_lock.
Definition unlock_fork_lock : M unit :=
  modify (with_fork_lock false) ;; emit Ev_mutex_unlock.

(** [write(fd, buf, len)]: a closed descriptor fails with [EBADF]; otherwise
    the kernel fails the call or accepts a prefix of the [len] bytes, which
    is appended to what the descriptor has received. *)
Definition write (fd : Z) (buf : list char) (len : Z) : M Z := fun w =>
  match fds w !! fd with
  | None => Ret (-1) (log (Ev_write fd len (-1)) (with_errno EBADF w))
  | Some _ =>
      let v := k_write (kern w) (tick w) in
      if v <? 0 then Ret (-1) (log (Ev_write fd len (-1)) (with_errno (- v) w))
      else
        let c := Z.min v len in
        let sent := take (Z.to_nat c) buf in
        Ret c (log (Ev_write fd len c)
                 (with_out (fun d => if d =? fd then out w d ++ sent
                                     else out w d) w))
  end.

(** [mclk()] and [getfastmonoclock()], the clock sources the wrappers
    consume. *)
Definition mclk : M Z := fun w =>
  let t := k_clock (kern w) (tick w) in Ret t (log (Ev_mclk t) w).
Definition getfastmonoclock : M Z := fun w =>
  let t := k_clock (kern w) (tick w) in Ret t (log (Ev_fastmonoclock t) w).

(** [clock_nanosleep(clock, flags, &ts, &ts)]: the request and the
    remaining-time argument are the same object.  The kernel writes the time
    left only when a relative sleep is interrupted; an absolute sleep leaves
    the argument alone. *)
Definition clock_nanosleep (clock flags : Z) (ts : timespec)
  : M (Z * timespec) := fun w =>
  let '(r, rem) := k_sleep (kern w) (tick w) in
  let ts' := if (r =? EINTR) && negb (flags =? TIMER_ABSTIME) then rem
             else ts in
  Ret (r, ts') (log (Ev_nanosleep flags ts r) w).

Definition pthread_mutex_trylock (mutex : Z) : M Z := fun w =>
  let r := k_trylock (kern w) (tick w) in Ret r (log (Ev_trylock r) w).

Definition pthread_create (ts : thread_state) : M Z := fun w =>
  let r := k_create (kern w) (tick w) in
  Ret r (log (Ev_pthread_create ts r) w).

(** A condition-variable attribute object is the clock it selects. *)
Definition pthread_condattr_init : M Z := ret CLOCK_REALTIME.
Definition pthread_condattr_setclock (attr clock : Z) : M (Z * Z) := fun w =>
  let r := k_setclock (kern w) (tick w) in
  Ret (r, if r =? 0 then clock else attr)
      (log (Ev_condattr_setclock clock r) w).
Definition pthread_cond_init (c : tvh_cond_t) (attr : Z)
  : M (Z * tvh_cond_t) := fun w =>
  let r := k_cond_init (kern w) (tick w) in
  Ret (r, if r =? 0 then {| cond := Some attr |} else c)
      (log (Ev_cond_init r) w).

Definition fprintf_stderr (msg : string) (code : Z) : M unit :=
  emit (Ev_stderr msg code).

(** ** File-descriptor routines *)

Definition tvh_open (pathname : string) (flags mode : Z) : M Z :=
  lock_fork_lock ;;
  fd ← open pathname flags mode;
  when (negb (fd =? -1))
    (v ← fcntl_getfd fd; fcntl_setfd fd (Z.lor v FD_CLOEXEC)) ;;
  unlock_fork_lock ;;
  mret fd.

Definition tvh_socket (domain type protocol : Z) : M Z :=
  lock_fork_lock ;;
  fd ← socket domain type protocol;
  when (negb (fd =? -1))
    (v ← fcntl_getfd fd; fcntl_setfd fd (Z.lor v FD_CLOEXEC)) ;;
  unlock_fork_lock ;;
  mret fd.

(** The handle [p] is passed in and handed back; the local array [fd] holds
    nothing the code reads before [pipe] fills it. *)
Definition tvh_pipe (flags : Z) (p : th_pipe_t) : M (Z * th_pipe_t) :=
  lock_fork_lock ;;
  '(err, fd) ← pipe (0, 0);
  p' ← (if negb (err =? -1) then
          (v ← fcntl_getfd (fst fd);
           fcntl_setfd (fst fd) (Z.lor v FD_CLOEXEC)) ;;
          (v ← fcntl_getfd (snd fd);
           fcntl_setfd (snd fd) (Z.lor v FD_CLOEXEC)) ;;
          (v ← fcntl_getfl (fst fd); fcntl_setfl (fst fd) (Z.lor v flags)) ;;
          (v ← fcntl_getfl (snd fd); fcntl_setfl (snd fd) (Z.lor v flags)) ;;
          mret {| rd := fst fd; wr := snd fd |}
        else mret p);
  unlock_fork_lock ;;
  mret (err, p').

Definition tvh_pipe_close (p : th_pipe_t) : M th_pipe_t :=
  close (rd p) ;;
  close (wr p) ;;
  mret {| rd := -1; wr := -1 |}.

(** ** Clocks *)

Definition usleep_request (us : Z) : timespec :=
  {| tv_sec := int64_div us 1000000;
     tv_nsec := int64_mul (int64_rem us 1000000) 1000 |}.

Definition usleep_value (ts : timespec) : Z :=
  int64_add (int64_mul (tv_sec ts) 1000000)
            (int64_div (int64_add (tv_nsec ts) 500) 1000).

(** [r ? -r : 0] on the [int] result of [clock_nanosleep]. *)
Definition neg_or_zero (r : Z) : Z := if r =? 0 then 0 else wrap32 (- r).

Definition tvh_usleep (us : Z) : M Z :=
  if us <=? 0 then mret 0
  else
    '(r, ts) ← clock_nanosleep CLOCK_MONOTONIC 0 (usleep_request us);
    let val := usleep_value ts in
    if ERRNO_AGAIN r then mret val
    else mret (neg_or_zero r).

Definition tvh_usleep_abs (us : Z) : M Z :=
  if us <=? 0 then mret 0
  else
    '(r, ts) ← clock_nanosleep CLOCK_MONOTONIC TIMER_ABSTIME
                 (usleep_request us);
    let val := usleep_value ts in
    if ERRNO_AGAIN r then mret val
    else mret (neg_or_zero r).

(** The [do ... while (r > 0)] loop: [continue] jumps to the test of the
    loop, [break] leaves it. *)
Fixpoint tvh_safe_usleep_loop (fuel : nat) (us : Z) : M unit :=
  match fuel with
  | O => out_of_fuel
  | S fuel' =>
      r ← tvh_usleep us;
      if r <? 0 then
        if ERRNO_AGAIN (int64_neg r) then
          (if r >? 0 then tvh_safe_usleep_loop fuel' us else mret tt)
        else mret tt
      else
        if r >? 0 then tvh_safe_usleep_loop fuel' r else mret tt
  end.

Definition tvh_safe_usleep (fuel : nat) (us : Z) : M unit :=
  if us <=? 0 then mret tt else tvh_safe_usleep_loop fuel us.

(** ** Deadline-bounded write *)

(** The [while (len)] loop; its value is [len] when the loop is left. *)
Fixpoint tvh_write_loop (fuel : nat) (limit fd : Z) (buf : list char) (len : Z)
  : M Z :=
  if len =? 0 then mret len
  else
    match fuel with
    | O => out_of_fuel
    | S fuel' =>
        c ← write fd buf len;
        if c <? 0 then
          e ← gets errno;
          if ERRNO_AGAIN e then
            now ← mclk;
            if now >? limit then mret len
            else
              tvh_safe_usleep fuel' 100 ;;
              tvh_write_loop fuel' limit fd buf len
          else mret len
        else
          tvh_write_loop fuel' limit fd (drop (Z.to_nat c) buf) (size_sub len c)
    end.

Definition tvh_write (fuel : nat) (fd : Z) (buf : list char) (len : Z) : M Z :=
  t ← mclk;
  let limit := int64_add t (sec2mono 25) in
  len' ← tvh_write_loop fuel limit fd buf len;
  mret (if len' =? 0 then 0 else 1).

(** ** Thread routines *)

(** [strncpy(dst + off, src, n)]: exactly [n] bytes are written, the
    characters of the string [src] up to its terminator, then zeros.  [src]
    is the memory at the source address; the string ends at its first zero
    byte (or where the list ends). *)
Fixpoint strncpy_bytes (n : nat) (src : list char) : list char :=
  match n with
  | O => []
  | S n' => match src with
            | [] => repeat NUL (S n')
            | c :: src' => if Ascii.eqb c NUL then repeat NUL (S n')
                           else c :: strncpy_bytes n' src'
            end
  end.

Fixpoint store_bytes (dst : list char) (off : nat) (bytes : list char)
  : list char :=
  match bytes with
  | [] => dst
  | b :: bytes' => store_bytes (<[off := b]> dst) (S off) bytes'
  end.

Definition strncpy (dst : list char) (off : nat) (src : list char) (n : nat)
  : list char :=
  store_bytes dst off (strncpy_bytes n src).

(** The string a C reader finds in a buffer: the bytes before the first
    zero. *)
Fixpoint c_string (buf : list char) : list char :=
  match buf with
  | [] => []
  | c :: buf' => if Ascii.eqb c NUL then [] else c :: c_string buf'
  end.

Definition sizeof_name : nat := 17.

(** [calloc(1, sizeof(struct thread_state))] *)
Definition calloc_thread_state : thread_state :=
  {| run := 0; arg := 0; name := repeat NUL sizeof_name |}.

Definition tvhthread_create (start_routine arg0 : Z) (name0 : list char)
  : M (Z * thread_state) :=
  let ts := calloc_thread_state in
  let n1 := strncpy (name ts) 0 (list_ascii_of_string "tvh:") 4 in
  let n2 := strncpy n1 4 name0 (sizeof_name - 4) in
  let n3 := <[(sizeof_name - 1)%nat := NUL]> n2 in
  let ts := {| run := start_routine; arg := arg0; name := n3 |} in
  r ← pthread_create ts;
  mret (r, ts).

(** The label the new thread gives itself: [thread_wrapper] passes
    [ts->name] to the platform's naming call, which reads it as a string. *)
Definition thread_label (ts : thread_state) : list char := c_string (name ts).

(** ** Timed mutex *)

Fixpoint tvh_mutex_timedlock_loop (fuel : nat) (mutex finish : Z) : M Z :=
  match fuel with
  | O => out_of_fuel
  | S fuel' =>
      retcode ← pthread_mutex_trylock mutex;
      if retcode =? EBUSY then
        now ← getfastmonoclock;
        if now >=? finish then mret ETIMEDOUT
        else
          tvh_safe_usleep fuel' 10000 ;;
          tvh_mutex_timedlock_loop fuel' mutex finish
      else mret retcode
  end.

Definition tvh_mutex_timedlock (fuel : nat) (mutex usec : Z) : M Z :=
  t ← getfastmonoclock;
  let finish := int64_add t usec in
  tvh_mutex_timedlock_loop fuel mutex finish.

(** ** Condition variables on the monotonic clock *)

Definition tvh_cond_init (c : tvh_cond_t) : M (Z * tvh_cond_t) :=
  attr ← pthread_condattr_init;
  '(r, attr) ← pthread_condattr_setclock attr CLOCK_MONOTONIC;
  (if negb (r =? 0) then
     fprintf_stderr "Unable to set monotonic clocks for conditions! (%d)" r ;;
     abort
   else mret tt) ;;
  pthread_cond_init c attr.

(** ** qsort *)

(** Calling through a comparator pointer; the call is recorded with the
    context it was given. *)
Definition call_compar (f : compar_t) (a b : list char) (ctx : Z) : M Z :=
  emit (Ev_compar a b ctx) ;; mret (f a b ctx).

(** The array at [base] seen as [nmemb] elements of [size] bytes. *)
Fixpoint elements_of (nmemb size : nat) (base : list char)
  : list (list char) :=
  match nmemb with
  | O => []
  | S n => take size base :: elements_of n size (drop size base)
  end.

(** The C library's [qsort(base, nmemb, size, compar)], as an insertion sort
    that asks [compar] for every comparison it makes; the bytes after the
    array are not touched. *)
Fixpoint qsort_insert (compar : list char -> list char -> M Z)
  (x : list char) (l : list (list char)) : M (list (list char)) :=
  match l with
  | [] => mret [x]
  | y :: l' =>
      r ← compar x y;
      if r <=? 0 then mret (x :: y :: l')
      else l'' ← qsort_insert compar x l'; mret (y :: l'')
  end.

Fixpoint qsort_elements (compar : list char -> list char -> M Z)
  (l : list (list char)) : M (list (list char)) :=
  match l with
  | [] => mret []
  | x :: l' => s ← qsort_elements compar l'; qsort_insert compar x s
  end.

Definition qsort (base : list char) (nmemb size : nat)
  (compar : list char -> list char -> M Z) : M (list char) :=
  s ← qsort_elements compar (elements_of nmemb size base);
  mret (concat s ++ drop (nmemb * size) base).

(** The native sorts with context: glibc's takes the comparator and then the
    context, BSD's and Darwin's take the context and then a comparator whose
    first argument is the context.  Both are given the insertion sort of
    [qsort] here; what holds of the wrappers whatever the routine of the
    library is stated over [sort_plan] below. *)
Definition glibc_qsort_r (base : list char) (nmemb size : nat)
  (compar : compar_t) (arg0 : Z) : M (list char) :=
  qsort base nmemb size (fun a b => call_compar compar a b arg0).

Definition bsd_qsort_r {T : Type} (base : list char) (nmemb size : nat)
  (thunk : T) (compar : T -> list char -> list char -> M Z) : M (list char) :=
  qsort base nmemb size (compar thunk).

(** The shim of the builds without [ENABLE_QSORT_R]. *)
Definition qsort_r_wrap (a b : list char) : M Z :=
  d ← gets qsort_r_data;
  match cmp d with
  | Some f => call_compar f a b (aux d)
  | None => abort
  end.

Definition qsort_r (base : list char) (nmemb size : nat)
  (cmp0 : compar_t) (aux0 : Z) : M (list char) :=
  modify (fun w => with_qsort_r_data
                     {| cmp := Some cmp0; aux := aux (qsort_r_data w) |} w) ;;
  modify (fun w => with_qsort_r_data
                     {| cmp := cmp (qsort_r_data w); aux := aux0 |} w) ;;
  qsort base nmemb size qsort_r_wrap.

Definition tvh_qsort_swap (data : tvh_qsort_data) (a b : list char) : M Z :=
  call_compar (qd_compar data) a b (qd_arg data).

Definition tvh_qsort_r (b : build) (base : list char) (nmemb size : nat)
  (compar : compar_t) (arg0 : Z) : M (list char) :=
  match b with
  | NativeBSD =>
      let swap_arg := {| qd_arg := arg0; qd_compar := compar |} in
      bsd_qsort_r base nmemb size swap_arg tvh_qsort_swap
  | NativeGlibc => glibc_qsort_r base nmemb size compar arg0
  | Shim => qsort_r base nmemb size compar arg0
  end.

(** What a sorting routine of a C library does with an array, whatever its
    algorithm: it asks the comparator about two blocks of bytes and goes on
    according to the answer, until it leaves the memory at [base] in its
    final state. *)
Inductive sort_plan :=
| Leave (result : list char)
| Ask (a b : list char) (next : Z -> sort_plan).

Fixpoint run_plan (compar : list char -> list char -> M Z) (p : sort_plan)
  : M (list char) :=
  match p with
  | Leave result => mret result
  | Ask a b next => r ← compar a b; run_plan compar (next r)
  end.

(** The insertion sort of [qsort] above as a plan. *)
Fixpoint insert_plan (x : list char) (l : list (list char))
  (k : list (list char) -> sort_plan) : sort_plan :=
  match l with
  | [] => k [x]
  | y :: l' =>
      Ask x y (fun r => if r <=? 0 then k (x :: y :: l')
                        else insert_plan x l' (fun l'' => k (y :: l'')))
  end.

Fixpoint elements_plan (l : list (list char))
  (k : list (list char) -> sort_plan) : sort_plan :=
  match l with
  | [] => k []
  | x :: l' => elements_plan l' (fun s => insert_plan x s k)
  end.

Definition insertion_plan (base : list char) (nmemb size : nat) : sort_plan :=
  elements_plan (elements_of nmemb size base)
    (fun s => Leave (concat s ++ drop (nmemb * size) base)).

Section AnyLibrarySort.

(** The plan the sorting routines of the C library follow on an array; the
    routine with context and the one without are the same routine. *)
Variable libc_sort : list char -> nat -> nat -> sort_plan.

Definition qsort_over (base : list char) (nmemb size : nat)
  (compar : list char -> list char -> M Z) : M (list char) :=
  run_plan compar (libc_sort base nmemb size).

Definition glibc_qsort_r_over (base : list char) (nmemb size : nat)
  (compar : compar_t) (arg0 : Z) : M (list char) :=
  qsort_over base nmemb size (fun a b => call_compar compar a b arg0).

Definition bsd_qsort_r_over {T : Type} (base : list char) (nmemb size : nat)
  (thunk : T) (compar : T -> list char -> list char -> M Z) : M (list char) :=
  qsort_over base nmemb size (compar thunk).

Definition qsort_r_over (base : list char) (nmemb size : nat)
  (cmp0 : compar_t) (aux0 : Z) : M (list char) :=
  modify (fun w => with_qsort_r_data
                     {| cmp := Some cmp0; aux := aux (qsort_r_data w) |} w) ;;
  modify (fun w => with_qsort_r_data
                     {| cmp := cmp (qsort_r_data w); aux := aux0 |} w) ;;
  qsort_over base nmemb size qsort_r_wrap.

(** [tvh_qsort_r] over a library whose sort follows [libc_sort]. *)
Definition tvh_qsort_r_over (b : build) (base : list char) (nmemb size : nat)
  (compar : compar_t) (arg0 : Z) : M (list char) :=
  match b with
  | NativeBSD =>
      let swap_arg := {| qd_arg := arg0; qd_compar := compar |} in
      bsd_qsort_r_over base nmemb size swap_arg tvh_qsort_swap
  | NativeGlibc => glibc_qsort_r_over base nmemb size compar arg0
  | Shim => qsort_r_over base nmemb size compar arg0
  end.

End AnyLibrarySort.

(** The contexts the comparator was called with, in order. *)
Definition compar_contexts (tr : list event) : list Z :=
  omap (fun e => match e with Ev_compar _ _ ctx => Some ctx | _ => None end) tr.

(** [a] sorts before or with [b] under [compar] with context [ctx]. *)
Definition compar_le (compar : compar_t) (ctx : Z) (a b : list char) : Prop :=
  compar a b ctx <= 0.

(** ** Predicates the properties are stated with *)

(** The descriptor is open and carries the close-on-exec flag. *)
Definition cloexec_set (w : world) (fd : Z) : Prop :=
  exists d, fds w !! fd = Some d /\ Z.land (fd_flags d) FD_CLOEXEC = FD_CLOEXEC.

(** The descriptor is open. *)
Definition valid_fd (w : world) (fd : Z) : Prop := is_Some (fds w !! fd).

(** The invariant of a pipe handle: both ends are the sentinel, or both are
    open descriptors. *)
Definition pipe_inv (w : world) (p : th_pipe_t) : Prop :=
  (rd p = -1 /\ wr p = -1) \/ (valid_fd w (rd p) /\ valid_fd w (wr p)).

(** The open descriptors numbered [from] or higher. *)
Definition at_or_above (from : Z) (tab : gmap Z fdesc) : gmap Z fdesc :=
  filter (fun kv => from <= kv.1) tab.

(** The state in which a guarded call reaches the underlying system call:
    the fork lock has just been taken. *)
Definition locked (w : world) : world :=
  log Ev_mutex_lock (with_fork_lock true w).

(** A remaining time as the kernel reports it. *)
Definition timespec_ok (ts : timespec) : Prop :=
  0 <= tv_sec ts < 2 ^ 40 /\ 0 <= tv_nsec ts < 1000000000.

(** The deadline [tvh_write] computes when it starts in [w]. *)
Definition write_limit (w : world) : Z :=
  int64_add (k_clock (kern w) (tick w)) (sec2mono 25).

(** ** Traces *)

(** From [w] to [w'] nothing changed but the trace, which grew by [evs]. *)
Definition quiet (w w' : world) (evs : list event) : Prop :=
  kern w' = kern w /\ fds w' = fds w /\ fork_lock w' = fork_lock w /\
  errno w' = errno w /\ qsort_r_data w' = qsort_r_data w /\ out w' = out w /\
  trace w' = trace w ++ evs.

Definition is_sleep (e : event) : Prop :=
  match e with Ev_nanosleep 0 _ _ => True | _ => False end.

(** What is left of a relative sleep of [us] microseconds after one
    [clock_nanosleep] with the given reply: when the call was interrupted,
    the time it reports as left, rounded to microseconds; when it was
    refused for the moment, the whole sleep; when it completed, nothing; and
    when it failed, minus the error number. *)
Definition usleep_result (us : Z) (reply : Z * timespec) : Z :=
  let '(r, rem) := reply in
  if r =? EINTR then usleep_value rem
  else if ERRNO_AGAIN r then usleep_value (usleep_request us)
  else neg_or_zero r.

(** The calls of one [tvh_safe_usleep(us)] whose first call is call number
    [t] under kernel [k]: a relative sleep of [us] microseconds, which is the
    only call unless a positive time is left of it, and then the calls of a
    sleep of exactly the time left. *)
Inductive sleep_trace (k : kernel) : nat -> Z -> list event -> Prop :=
| sleep_ends t us :
    usleep_result us (k_sleep k t) <= 0 ->
    sleep_trace k t us [Ev_nanosleep 0 (usleep_request us) (fst (k_sleep k t))]
| sleep_resumes t us evs :
    0 < usleep_result us (k_sleep k t) ->
    sleep_trace k (S t) (usleep_result us (k_sleep k t)) evs ->
    sleep_trace k t us
      (Ev_nanosleep 0 (usleep_request us) (fst (k_sleep k t)) :: evs).

(** The calls of the polling loop of [tvh_mutex_timedlock] with deadline
    [finish] whose first call is call number [t] under kernel [k], and the
    value it returns.  An attempt with a result other than [EBUSY] ends the
    loop with that result.  After a busy attempt the clock is read: at or
    after the deadline the loop ends with [ETIMEDOUT]; before it, the calls
    of a 10 millisecond [tvh_safe_usleep] follow, and then the loop starts
    over. *)
Inductive timedlock_trace (k : kernel) (finish : Z)
  : nat -> list event -> Z -> Prop :=
| tl_done t :
    k_trylock k t <> EBUSY ->
    timedlock_trace k finish t [Ev_trylock (k_trylock k t)] (k_trylock k t)
| tl_timeout t :
    k_trylock k t = EBUSY ->
    finish <= k_clock k (S t) ->
    timedlock_trace k finish t
      [Ev_trylock EBUSY; Ev_fastmonoclock (k_clock k (S t))] ETIMEDOUT
| tl_retry t sl rest v :
    k_trylock k t = EBUSY ->
    k_clock k (S t) < finish ->
    sleep_trace k (S (S t)) 10000 sl ->
    timedlock_trace k finish (S (S t) + length sl) rest v ->
    timedlock_trace k finish t
      (Ev_trylock EBUSY :: Ev_fastmonoclock (k_clock k (S t)) :: sl ++ rest) v.

(** The calls of [n] rounds of the polling loop from call number [t] on in
    which the mutex is busy, the deadline not reached and the sleep not
    interrupted: three calls each. *)
Fixpoint busy_rounds (k : kernel) (t n : nat) : list event :=
  match n with
  | O => []
  | S n' =>
      Ev_trylock EBUSY :: Ev_fastmonoclock (k_clock k (S t))
      :: Ev_nanosleep 0 (usleep_request 10000) 0
      :: busy_rounds k (3 + t) n'
  end.

(** From call number [N] on, sleeps run to their end. *)
Definition sleeps_complete (k : kernel) (N : nat) : Prop :=
  forall n, (N <= n)%nat -> fst (k_sleep k n) = 0.

(** From call number [N] on, the clock has reached [deadline] and sleeps
    run to their end. *)
Definition settles (k : kernel) (N : nat) (deadline : Z) : Prop :=
  forall n, (N <= n)%nat -> deadline <= k_clock k n /\ fst (k_sleep k n) = 0.

(** A call of the comparator with context [ctx]. *)
Definition compar_with (ctx : Z) (e : event) : Prop :=
  exists a b, e = Ev_compar a b ctx.

(** ** The order a sort is checked against *)

(** What the insertion sort of [qsort] computes when every comparison
    answers [f a b ctx]. *)
Fixpoint insert_sorted (f : compar_t) (ctx : Z) (x : list char)
  (l : list (list char)) : list (list char) :=
  match l with
  | [] => [x]
  | y :: l' => if f x y ctx <=? 0 then x :: y :: l'
               else y :: insert_sorted f ctx x l'
  end.

Fixpoint sorted_elements (f : compar_t) (ctx : Z) (l : list (list char))
  : list (list char) :=
  match l with
  | [] => []
  | x :: l' => insert_sorted f ctx x (sorted_elements f ctx l')
  end.

(** ** Sample worlds and inputs *)

(** The descriptor table of a fresh process: standard input, output and
    error. *)
Definition std_fds : gmap Z fdesc :=
  <[0 := {| fd_flags := 0; fl_flags := 0 |}]>
    (<[1 := {| fd_flags := 0; fl_flags := 1 |}]>
       (<[2 := {| fd_flags := 0; fl_flags := 1 |}]> ∅)).

(** A fresh process under kernel [k]: the three standard descriptors are
    open, nothing is locked, nothing was called. *)
Definition world0 (k : kernel) : world :=
  {| kern := k; fds := std_fds; fork_lock := false; errno := 0;
     qsort_r_data := {| cmp := None; aux := 0 |}; out := fun _ => [];
     trace := [] |}.

(** A kernel that lets every call succeed at once: creations succeed,
    writes take everything, the clock stands at 0, sleeps complete, the
    mutex is free. *)
Definition kernel_ok : kernel :=
  {| k_create := fun _ => 0;
     k_write := fun _ => 2 ^ 62;
     k_clock := fun _ => 0;
     k_sleep := fun _ => (0, {| tv_sec := 0; tv_nsec := 0 |});
     k_trylock := fun _ => 0;
     k_setclock := fun _ => 0;
     k_cond_init := fun _ => 0 |}.

(** A kernel that runs out of descriptors. *)
Definition kernel_no_descriptors : kernel :=
  {| k_create := fun _ => EMFILE;
     k_write := fun _ => 2 ^ 62;
     k_clock := fun _ => 0;
     k_sleep := fun _ => (0, {| tv_sec := 0; tv_nsec := 0 |});
     k_trylock := fun _ => 0;
     k_setclock := fun _ => EINVAL;
     k_cond_init := fun _ => 0 |}.

(** A kernel that interrupts every sleep 400 nanoseconds before its end. *)
Definition kernel_late_signal : kernel :=
  {| k_create := fun _ => 0;
     k_write := fun _ => 2 ^ 62;
     k_clock := fun _ => 0;
     k_sleep := fun _ => (EINTR, {| tv_sec := 0; tv_nsec := 400 |});
     k_trylock := fun _ => 0;
     k_setclock := fun _ => 0;
     k_cond_init := fun _ => 0 |}.

(** A kernel whose destination takes two bytes and then fails every write
    with [EPIPE]. *)
Definition kernel_broken_pipe : kernel :=
  {| k_create := fun _ => 0;
     k_write := fun n => if (n =? 1)%nat then 2 else - EPIPE;
     k_clock := fun _ => 0;
     k_sleep := fun _ => (0, {| tv_sec := 0; tv_nsec := 0 |});
     k_trylock := fun _ => 0;
     k_setclock := fun _ => 0;
     k_cond_init := fun _ => 0 |}.

(** A kernel whose destination is never ready and whose clock advances 10
    seconds with every call. *)
Definition kernel_never_ready : kernel :=
  {| k_create := fun _ => 0;
     k_write := fun _ => - EAGAIN;
     k_clock := fun n => 10000000 * Z.of_nat n;
     k_sleep := fun _ => (0, {| tv_sec := 0; tv_nsec := 0 |});
     k_trylock := fun _ => 0;
     k_setclock := fun _ => 0;
     k_cond_init := fun _ => 0 |}.

(** A kernel whose destination accepts every write and takes no bytes. *)
Definition kernel_zero_writes : kernel :=
  {| k_create := fun _ => 0;
     k_write := fun _ => 0;
     k_clock := fun n => 10000000 * Z.of_nat n;
     k_sleep := fun _ => (0, {| tv_sec := 0; tv_nsec := 0 |});
     k_trylock := fun _ => 0;
     k_setclock := fun _ => 0;
     k_cond_init := fun _ => 0 |}.

(** A kernel under which the mutex is busy for the first two attempts and
    the clock advances 4 milliseconds with every call. *)
Definition kernel_busy_twice : kernel :=
  {| k_create := fun _ => 0;
     k_write := fun _ => 2 ^ 62;
     k_clock := fun n => 4000 * Z.of_nat n;
     k_sleep := fun _ => (0, {| tv_sec := 0; tv_nsec := 0 |});
     k_trylock := fun n => if (n <? 7)%nat then EBUSY else 0;
     k_setclock := fun _ => 0;
     k_cond_init := fun _ => 0 |}.

(** A kernel under which the mutex stays busy, the first sleep is
    interrupted once with 3 milliseconds left, and the clock advances 4
    milliseconds with every call. *)
Definition kernel_busy : kernel :=
  {| k_create := fun _ => 0;
     k_write := fun _ => 2 ^ 62;
     k_clock := fun n => 4000 * Z.of_nat n;
     k_sleep := fun n => if (n =? 3)%nat
                         then (EINTR, {| tv_sec := 0; tv_nsec := 3000000 |})
                         else (0, {| tv_sec := 0; tv_nsec := 0 |});
     k_trylock := fun _ => EBUSY;
     k_setclock := fun _ => 0;
     k_cond_init := fun _ => 0 |}.

(** A kernel under which the mutex is busy for the first two attempts and
    then has been destroyed, with sleeps that run to their end. *)
Definition kernel_busy_then_invalid : kernel :=
  {| k_create := fun _ => 0;
     k_write := fun _ => 2 ^ 62;
     k_clock := fun n => 4000 * Z.of_nat n;
     k_sleep := fun _ => (0, {| tv_sec := 0; tv_nsec := 0 |});
     k_trylock := fun n => if (n <? 7)%nat then EBUSY else EINVAL;
     k_setclock := fun _ => 0;
     k_cond_init := fun _ => 0 |}.

(** A kernel that interrupts the first call, when it is a sleep, with 40
    microseconds left, and lets every later sleep run to its end. *)
Definition kernel_one_signal : kernel :=
  {| k_create := fun _ => 0;
     k_write := fun _ => 2 ^ 62;
     k_clock := fun _ => 0;
     k_sleep := fun n => if (n =? 0)%nat
                         then (EINTR, {| tv_sec := 0; tv_nsec := 40000 |})
                         else (0, {| tv_sec := 0; tv_nsec := 0 |});
     k_trylock := fun _ => 0;
     k_setclock := fun _ => 0;
     k_cond_init := fun _ => 0 |}.

(** A kernel whose destination takes two bytes, is not ready for the next
    write and takes everything after that; the sleep in between is
    interrupted once with 40 microseconds left, and the clock advances one
    millisecond with every call. *)
Definition kernel_slow_reader : kernel :=
  {| k_create := fun _ => 0;
     k_write := fun n => if (n =? 1)%nat then 2
                         else if (n =? 2)%nat then - EAGAIN else 2 ^ 62;
     k_clock := fun n => 1000 * Z.of_nat n;
     k_sleep := fun n => if (n =? 4)%nat
                         then (EINTR, {| tv_sec := 0; tv_nsec := 40000 |})
                         else (0, {| tv_sec := 0; tv_nsec := 0 |});
     k_trylock := fun _ => 0;
     k_setclock := fun _ => 0;
     k_cond_init := fun _ => 0 |}.

(** A kernel that rejects the mutex as invalid. *)
Definition kernel_bad_mutex : kernel :=
  {| k_create := fun _ => 0;
     k_write := fun _ => 2 ^ 62;
     k_clock := fun _ => 0;
     k_sleep := fun _ => (0, {| tv_sec := 0; tv_nsec := 0 |});
     k_trylock := fun _ => EINVAL;
     k_setclock := fun _ => 0;
     k_cond_init := fun _ => 0 |}.

Definition name16 : list char := list_ascii_of_string "abcdefghijklmnop".

Definition hello : list char := list_ascii_of_string "hello".

Definition digits : list char := list_ascii_of_string "53142".

(** Comparing elements by their first byte; the context is not used. *)
Definition compar_first_byte : compar_t :=
  fun a b _ =>
    Z.of_N (N_of_ascii (hd NUL a)) - Z.of_N (N_of_ascii (hd NUL b)).

(** ** Streams *)

(** [fopen(filename, mode)]: a stream is the descriptor under it, [None] is
    the null pointer; the stream is opened as [open] opens a file. *)
Definition fopen (filename mode : string) : M (option Z) :=
  fd ← create_fd 0 0;
  emit (Ev_open 0 fd) ;;
  mret (if fd =? -1 then None else Some fd).

(** [fileno(f)] *)
Definition fileno (f : Z) : Z := f.

Definition tvh_fopen (filename mode : string) : M (option Z) :=
  lock_fork_lock ;;
  f ← fopen filename mode;
  match f with
  | Some s =>
      let fd := fileno s in
      v ← fcntl_getfd fd; fcntl_setfd fd (Z.lor v FD_CLOEXEC) ;; mret tt
  | None => mret tt
  end ;;
  unlock_fork_lock ;;
  mret f.

(** ** The calls of a deadline-bounded write *)

(** The calls of the loop of [tvh_write] on [len] bytes with deadline
    [limit] whose first call is call number [t] under kernel [k], and the
    count left when it stops.  With nothing left there is no call.  A write
    that succeeds takes what the kernel has room for, [len] bytes at most,
    and is followed by the calls for the bytes left.  After a write that
    fails the loop stops at once, or it reads the clock: past the limit it
    stops, otherwise the calls of a 100 microsecond [tvh_safe_usleep]
    follow, and then the loop starts over with the same [len]. *)
Inductive write_trace (k : kernel) (limit fd : Z)
  : nat -> Z -> list event -> Z -> Prop :=
| wt_done t : write_trace k limit fd t 0 [] 0
| wt_taken t len c evs left :
    len <> 0 -> 0 <= k_write k t -> c = Z.min (k_write k t) len ->
    write_trace k limit fd (S t) (len - c) evs left ->
    write_trace k limit fd t len (Ev_write fd len c :: evs) left
| wt_failed t len :
    len <> 0 -> write_trace k limit fd t len [Ev_write fd len (-1)] len
| wt_late t len :
    len <> 0 -> limit < k_clock k (S t) ->
    write_trace k limit fd t len
      [Ev_write fd len (-1); Ev_mclk (k_clock k (S t))] len
| wt_retry t len sl evs left :
    len <> 0 -> k_clock k (S t) <= limit ->
    sleep_trace k (S (S t)) 100 sl ->
    write_trace k limit fd (S (S t) + length sl) len evs left ->
    write_trace k limit fd t len
      (Ev_write fd len (-1) :: Ev_mclk (k_clock k (S t)) :: sl ++ evs) left.

(** ** Waiting on a condition variable *)

(** The deadline [tvh_cond_timedwait] computes from a monotonic time in
    microseconds.  [monoclock % MONOCLOCK_RESOLUTION] is a signed 64-bit
    value and [1000000000ULL / MONOCLOCK_RESOLUTION] an unsigned one, so the
    product is taken in unsigned 64-bit arithmetic and stored into the
    signed [tv_nsec]. *)
Definition timedwait_timespec (monoclock : Z) : timespec :=
  {| tv_sec := int64_div monoclock MONOCLOCK_RESOLUTION;
     tv_nsec :=
       wrap64
         (wrap_size
            (wrap_size (int64_rem monoclock MONOCLOCK_RESOLUTION)
             * wrap_size (Z.quot 1000000000 (wrap_size MONOCLOCK_RESOLUTION))))
  |}.

Section CondWait.

(** [pthread_cond_timedwait], which blocks the calling thread, is taken as
    it comes. *)
Variable pthread_cond_timedwait : tvh_cond_t -> Z -> timespec -> M Z.

Definition tvh_cond_timedwait (c : tvh_cond_t) (mutex monoclock : Z) : M Z :=
  let ts := timedwait_timespec monoclock in
  pthread_cond_timedwait c mutex ts.

End CondWait.

(** A condition variable that is never signalled, as POSIX describes the
    call: a deadline that is not a well-formed time is refused, any other
    one passes. *)
Definition never_signalled (c : tvh_cond_t) (mutex : Z) (ts : timespec)
  : M Z :=
  if (tv_nsec ts <? 0) || (1000000000 <=? tv_nsec ts) then mret EINVAL
  else mret ETIMEDOUT.

(** ** Runs that differ in the thread-local data only *)

Definition outcome_map {A} (g : world -> world) (o : outcome A) : outcome A :=
  match o with
  | Ret a w => Ret a (g w)
  | Abort w => Abort (g w)
  | Fuel => Fuel
  end.

(** What a build of [tvh_qsort_r] leaves behind besides the sorted array:
    the build with the shim leaves the comparator and the context in the
    thread-local data, the native builds leave nothing. *)
Definition build_leaves (b : build) (compar : compar_t) (arg0 : Z)
  : world -> world :=
  match b with
  | Shim => with_qsort_r_data {| cmp := Some compar; aux := arg0 |}
  | NativeGlibc | NativeBSD => fun w => w
  end.

(** ** The new thread *)

Definition SIGQUIT : Z := 3.
Definition SIGTERM : Z := 15.

Inductive platform :=
| PLATFORM_LINUX | PLATFORM_FREEBSD | PLATFORM_DARWIN | PLATFORM_OTHER.

(** What is installed for a signal: [doexit] is the shutdown handler of the
    process, [doquit] the empty function of this file. *)
Inductive sighandler := SIG_DFL | SIG_IGN | doexit | doquit.

(** The state a thread runs in: the signals it blocks, the handlers
    installed, the name the platform shows for it, whether its descriptor is
    still allocated, and the lines written to the trace log. *)
Record thread := {
  th_blocked : gset Z;
  th_handlers : gmap Z sighandler;
  th_comm : list char;
  th_ts_live : bool;
  th_log : list (list char * Z * Z)
}.

(** The platform's naming call keeps what fits its name buffer: 15
    characters for Linux's [prctl(PR_SET_NAME)], 19 for FreeBSD's
    [pthread_set_name_np], 63 for Darwin's [pthread_setname_np]. *)
Definition set_thread_name (pf : platform) (nm : list char) (t : thread)
  : thread :=
  let set_comm (limit : nat) :=
    {| th_blocked := th_blocked t; th_handlers := th_handlers t;
       th_comm := take limit (c_string nm);
       th_ts_live := th_ts_live t; th_log := th_log t |} in
  match pf with
  | PLATFORM_LINUX => set_comm 15%nat
  | PLATFORM_FREEBSD => set_comm 19%nat
  | PLATFORM_DARWIN => set_comm 63%nat
  | PLATFORM_OTHER => t
  end.

Definition sigemptyset : gset Z := ∅.
Definition sigaddset (set : gset Z) (sig : Z) : gset Z := set ∪ {[sig]}.

(** [pthread_sigmask(SIG_UNBLOCK, &set, NULL)] *)
Definition pthread_sigmask_unblock (set : gset Z) (t : thread) : thread :=
  {| th_blocked := th_blocked t ∖ set; th_handlers := th_handlers t;
     th_comm := th_comm t; th_ts_live := th_ts_live t; th_log := th_log t |}.

Definition signal (sig : Z) (h : sighandler) (t : thread) : thread :=
  {| th_blocked := th_blocked t; th_handlers := <[sig := h]> (th_handlers t);
     th_comm := th_comm t; th_ts_live := th_ts_live t; th_log := th_log t |}.

Definition tvhtrace_thread (ts : thread_state) (t : thread) : thread :=
  {| th_blocked := th_blocked t; th_handlers := th_handlers t;
     th_comm := th_comm t; th_ts_live := th_ts_live t;
     th_log := th_log t ++ [(c_string (name ts), run ts, arg ts)] |}.

Definition free_thread_state (t : thread) : thread :=
  {| th_blocked := th_blocked t; th_handlers := th_handlers t;
     th_comm := th_comm t; th_ts_live := false; th_log := th_log t |}.

(** [thread_wrapper]; [call f a] runs the function at address [f] on the
    argument [a]. *)
Definition thread_wrapper (pf : platform)
  (call : Z -> Z -> thread -> Z * thread) (ts : thread_state) (t : thread)
  : Z * thread :=
  let t := set_thread_name pf (name ts) t in
  let set := sigemptyset in
  let set := sigaddset set SIGTERM in
  let set := sigaddset set SIGQUIT in
  let t := pthread_sigmask_unblock set t in
  let t := signal SIGTERM doexit t in
  let t := signal SIGQUIT doquit t in
  let t := tvhtrace_thread ts t in
  let '(r, t) := call (run ts) (arg ts) t in
  let t := free_thread_state t in
  (r, t).

(* ===================================================================== *)
(** * Part II: properties                                                 *)
(* ===================================================================== *)

Ltac unfold_proc :=
  repeat (progress (unfold mbind, M_bind, mret, M_ret, bind, ret, when, emit,
                      modify, gets, abort, out_of_fuel in *;
                    simpl in *)).

(** ** Descriptors *)

Lemma first_free_lower n from tab : from <= first_free n from tab.
Proof.
  revert from. induction n as [|n IH]; intros from; simpl; [lia|].
  destruct (tab !! from); [|lia]. specialize (IH (from + 1)). lia.
Qed.

Lemma lowest_free_nonneg tab : 0 <= lowest_free tab.
Proof. apply first_free_lower. Qed.

Lemma lowest_free_not_minus_one tab : (lowest_free tab =? -1) = false.
Proof. pose proof (lowest_free_nonneg tab). lia. Qed.

Lemma cloexec_bit v : Z.land (Z.lor v FD_CLOEXEC) FD_CLOEXEC = FD_CLOEXEC.
Proof.
  unfold FD_CLOEXEC. rewrite Z.land_lor_distr_l.
  change (Z.land 1 1) with 1. apply Z.bits_inj'. intros n Hn.
  rewrite Z.lor_spec, Z.land_spec.
  destruct (Z.testbit 1 n);
    [rewrite andb_true_r, orb_true_r|rewrite andb_false_r]; reflexivity.
Qed.

Lemma first_free_fresh n from tab :
  (size (at_or_above from tab) <= n)%nat -> tab !! first_free n from tab = None.
Proof.
  revert from. induction n as [|n IH]; intros from Hsz; simpl.
  - destruct (tab !! from) as [d|] eqn:E; [|reflexivity].
    assert (at_or_above from tab !! from = Some d) as Hin.
    { apply map_lookup_filter_Some. split; [done|simpl; lia]. }
    assert (size (at_or_above from tab) = 0%nat) as H0 by lia.
    apply map_size_empty_inv in H0. rewrite H0 in Hin.
    by rewrite lookup_empty in Hin.
  - destruct (tab !! from) as [d|] eqn:E; [|done].
    apply IH.
    assert (at_or_above from tab !! from = Some d) as Hin.
    { apply map_lookup_filter_Some. split; [done|simpl; lia]. }
    assert (at_or_above (from + 1) tab ⊆ delete from (at_or_above from tab))
      as Hsub.
    { apply map_subseteq_spec. intros k v Hk.
      apply map_lookup_filter_Some in Hk as [Hk Hle]. simpl in Hle.
      rewrite lookup_delete_ne by lia.
      apply map_lookup_filter_Some. split; [done|simpl; lia]. }
    apply map_subseteq_size in Hsub.
    rewrite map_size_delete_Some in Hsub by eauto.
    lia.
Qed.

Lemma lowest_free_fresh tab : tab !! lowest_free tab = None.
Proof.
  apply first_free_fresh. apply map_subseteq_size, map_filter_subseteq.
Qed.

(** What a guarded call does around a descriptor-creating call [sys] that
    behaves like [create_fd] followed by a trace entry. *)
Lemma guarded_create fdf flf (ev : Z -> event) w :
  let sys := (fd ← create_fd fdf flf; emit (ev fd) ;; mret fd) : M Z in
  let guarded :=
    (lock_fork_lock ;;
     fd ← sys;
     when (negb (fd =? -1))
       (v ← fcntl_getfd fd; fcntl_setfd fd (Z.lor v FD_CLOEXEC)) ;;
     unlock_fork_lock ;;
     mret fd) : M Z in
  exists fd w1 w',
    sys (locked w) = Ret fd w1 /\
    guarded w = Ret fd w' /\
    fork_lock w' = false /\
    (fd <> -1 -> fds w !! fd = None /\ cloexec_set w' fd) /\
    (fd = -1 -> errno w' = errno w1 /\ fds w' = fds w) /\
    (fd = -1 <-> k_create (kern w) (tick (locked w)) <> 0).
Proof.
  intros sys guarded. subst sys guarded.
  unfold lock_fork_lock, unlock_fork_lock, locked.
  unfold create_fd. unfold_proc.
  destruct (k_create (kern w) _ =? 0) eqn:E; unfold_proc.
  - rewrite lowest_free_not_minus_one. unfold_proc.
    unfold fcntl_getfd, fcntl_setfd. unfold_proc.
    rewrite lookup_insert_eq. unfold_proc. rewrite lookup_insert_eq.
    unfold_proc.
    pose proof (lowest_free_nonneg (fds w)) as Hnn.
    eexists _, _, _. repeat split; try reflexivity; try lia.
    + apply lowest_free_fresh.
    + eexists. simpl. rewrite lookup_insert_eq. split; [reflexivity|].
      simpl. rewrite cloexec_bit. reflexivity.
  - eexists _, _, _. repeat split; try reflexivity; try congruence; lia.
Qed.

(** C6: a guarded [open] or [socket] returns what the system call returned;
    when that is a descriptor it is a new one and carries close-on-exec when
    the call returns; when it is the failure result -1, which happens exactly
    when the kernel refuses, [errno] is the one the system call left and no
    descriptor was opened.  The fork lock is released either way. *)
Theorem guarded_descriptor_cloexec
  (w : world) (pathname : string) (flags mode domain type protocol : Z) :
  (exists fd w1 w',
     open pathname flags mode (locked w) = Ret fd w1 /\
     tvh_open pathname flags mode w = Ret fd w' /\
     fork_lock w' = false /\
     (fd <> -1 -> fds w !! fd = None /\ cloexec_set w' fd) /\
     (fd = -1 -> errno w' = errno w1 /\ fds w' = fds w) /\
     (fd = -1 <-> k_create (kern w) (tick (locked w)) <> 0)) /\
  (exists fd w1 w',
     socket domain type protocol (locked w) = Ret fd w1 /\
     tvh_socket domain type protocol w = Ret fd w' /\
     fork_lock w' = false /\
     (fd <> -1 -> fds w !! fd = None /\ cloexec_set w' fd) /\
     (fd = -1 -> errno w' = errno w1 /\ fds w' = fds w) /\
     (fd = -1 <-> k_create (kern w) (tick (locked w)) <> 0)).
Proof.
  split.
  - apply (guarded_create (cloexec_of flags O_CLOEXEC) flags (Ev_open flags) w).
  - apply (guarded_create (cloexec_of type SOCK_CLOEXEC) 0 (Ev_socket type) w).
Qed.

(** ** Pipes *)

Lemma tvh_pipe_run flags p w :
  exists err p' w',
    tvh_pipe flags p w = Ret (err, p') w' /\
    fork_lock w' = false /\
    (err <> -1 ->
       valid_fd w' (rd p') /\ valid_fd w' (wr p') /\
       rd p' <> -1 /\ wr p' <> -1 /\ rd p' <> wr p' /\
       cloexec_set w' (rd p') /\ cloexec_set w' (wr p')) /\
    (err = -1 -> p' = p /\ fds w' = fds w) /\
    (err = -1 <-> k_create (kern w) (tick (locked w)) <> 0) /\
    (err = 0 \/ err = -1) /\
    (err <> -1 -> fds w !! rd p' = None /\ fds w !! wr p' = None).
Proof.
  unfold tvh_pipe, lock_fork_lock, unlock_fork_lock, locked, pipe.
  unfold_proc.
  destruct (k_create (kern w) _ =? 0) eqn:E; unfold_proc.
  - set (fd0 := lowest_free (fds w)).
    set (tab0 := <[fd0 := {| fd_flags := 0; fl_flags := O_RDONLY |}]> (fds w)).
    set (fd1 := lowest_free tab0).
    assert (fds w !! fd0 = None) as Hf0 by apply lowest_free_fresh.
    assert (fd1 <> fd0) as Hne.
    { intros Heq. pose proof (lowest_free_fresh tab0) as Hf.
      fold fd1 in Hf. rewrite Heq in Hf. unfold tab0 in Hf.
      by rewrite lookup_insert_eq in Hf. }
    assert (fds w !! fd1 = None) as Hf1.
    { pose proof (lowest_free_fresh tab0) as Hf. fold fd1 in Hf.
      unfold tab0 in Hf. by rewrite lookup_insert_ne in Hf. }
    pose proof (lowest_free_nonneg (fds w)) as Hnn0. fold fd0 in Hnn0.
    pose proof (lowest_free_nonneg tab0) as Hnn1. fold fd1 in Hnn1.
    unfold fcntl_getfd, fcntl_setfd, fcntl_getfl, fcntl_setfl. unfold_proc.
    clearbody fd1. subst tab0.
    repeat (first [ rewrite lookup_insert_eq
                  | rewrite lookup_insert_ne by congruence ];
            unfold_proc).
    eexists _, _, _. split; [reflexivity|].
    unfold valid_fd, cloexec_set. simpl.
    repeat (first [ rewrite lookup_insert_eq
                  | rewrite lookup_insert_ne by congruence ]).
    repeat split; try lia; try congruence; eauto.
  - eexists _, _, _. repeat split; try reflexivity; try congruence; lia.
Qed.

(** The handle a successful [tvh_pipe] fills holds the two descriptors
    [pipe] returned, the read end first. *)
Lemma tvh_pipe_ends flags p w :
  exists err fd w1 p' w',
    pipe (0, 0) (locked w) = Ret (err, fd) w1 /\
    tvh_pipe flags p w = Ret (err, p') w' /\
    (err <> -1 -> rd p' = fst fd /\ wr p' = snd fd).
Proof.
  unfold tvh_pipe, lock_fork_lock, unlock_fork_lock, locked, pipe.
  unfold_proc.
  destruct (k_create (kern w) _ =? 0) eqn:E; unfold_proc.
  - set (fd0 := lowest_free (fds w)).
    set (tab0 := <[fd0 := {| fd_flags := 0; fl_flags := O_RDONLY |}]> (fds w)).
    set (fd1 := lowest_free tab0).
    assert (fd1 <> fd0) as Hne.
    { intros Heq. pose proof (lowest_free_fresh tab0) as Hf.
      fold fd1 in Hf. rewrite Heq in Hf. unfold tab0 in Hf.
      by rewrite lookup_insert_eq in Hf. }
    unfold fcntl_getfd, fcntl_setfd, fcntl_getfl, fcntl_setfl. unfold_proc.
    clearbody fd1. subst tab0.
    repeat (first [ rewrite lookup_insert_eq
                  | rewrite lookup_insert_ne by congruence ];
            unfold_proc).
    eexists _, _, _, _, _. split; [reflexivity|]. split; [reflexivity|].
    intros _. split; reflexivity.
  - eexists _, _, _, _, _. split; [reflexivity|]. split; [reflexivity|].
    intros H. contradiction.
Qed.

Lemma tvh_pipe_close_run p w :
  exists w', tvh_pipe_close p w = Ret {| rd := -1; wr := -1 |} w' /\
             fds w' = delete (wr p) (delete (rd p) (fds w)).
Proof.
  unfold tvh_pipe_close, close. unfold_proc.
  destruct (fds w !! rd p) eqn:E1; unfold_proc.
  - destruct (delete (rd p) (fds w) !! wr p) eqn:E2; unfold_proc;
      eexists; split; try reflexivity.
    simpl. symmetry. by apply delete_id.
  - destruct (fds w !! wr p) eqn:E2; unfold_proc;
      eexists; split; try reflexivity; simpl.
    + rewrite (delete_id (fds w) (rd p)) by done. reflexivity.
    + rewrite (delete_id (fds w) (rd p)) by done. by rewrite delete_id.
Qed.

(** C7: the pipe operations keep the invariant of the handle.  [tvh_pipe]
    returns what [pipe] returned, 0 or -1, and -1 exactly when the kernel
    refuses the pipe.  When it succeeds it leaves in the handle the two
    descriptors [pipe] opened, the read end first: two distinct open
    descriptors that were not open before.  When it fails it leaves the
    handle and the descriptor table as they were.  [tvh_pipe_close] leaves
    both ends at the sentinel -1 and neither descriptor open. *)
Theorem pipe_handle_invariant (w : world) (flags : Z) (p : th_pipe_t) :
  (exists err p' w',
     tvh_pipe flags p w = Ret (err, p') w' /\
     (err = 0 \/ err = -1) /\
     (err = -1 <-> k_create (kern w) (tick (locked w)) <> 0) /\
     (err <> -1 ->
        valid_fd w' (rd p') /\ valid_fd w' (wr p') /\
        rd p' <> -1 /\ wr p' <> -1) /\
     (err <> -1 ->
        rd p' <> wr p' /\ fds w !! rd p' = None /\ fds w !! wr p' = None) /\
     (exists fd w1,
        pipe (0, 0) (locked w) = Ret (err, fd) w1 /\
        (err <> -1 -> rd p' = fst fd /\ wr p' = snd fd)) /\
     (err = -1 -> p' = p /\ fds w' = fds w) /\
     (pipe_inv w p -> pipe_inv w' p')) /\
  (exists p' w',
     tvh_pipe_close p w = Ret p' w' /\
     rd p' = -1 /\ wr p' = -1 /\
     ~ valid_fd w' (rd p) /\ ~ valid_fd w' (wr p) /\
     pipe_inv w' p').
Proof.
  split.
  - destruct (tvh_pipe_run flags p w)
      as (err & p' & w' & Hrun & _ & Hok & Hfail & Hiff & H01 & Hnew).
    exists err, p', w'. split; [exact Hrun|].
    split; [exact H01|]. split; [exact Hiff|].
    split; [intros H; destruct (Hok H) as (?&?&?&?&_); auto|].
    split; [intros H; destruct (Hok H) as (_&_&_&_&?&_), (Hnew H); auto|].
    split.
    { destruct (tvh_pipe_ends flags p w)
        as (err2 & fd & w1 & p2 & w2 & Hpipe & Hrun2 & Hends).
      rewrite Hrun in Hrun2. injection Hrun2 as <- <- <-.
      exists fd, w1. split; [exact Hpipe|exact Hends]. }
    split; [exact Hfail|].
    intros Hinv. destruct (decide (err = -1)) as [He|He].
    + destruct (Hfail He) as [-> Hfds]. unfold pipe_inv, valid_fd in *.
      rewrite Hfds. exact Hinv.
    + right. destruct (Hok He) as (?&?&_). auto.
  - destruct (tvh_pipe_close_run p w) as (w' & Hrun & Hfds).
    exists {| rd := -1; wr := -1 |}, w'. split; [exact Hrun|].
    unfold valid_fd, pipe_inv. rewrite Hfds. simpl.
    repeat split; try reflexivity.
    + intros [d Hd]. rewrite lookup_delete_Some in Hd. destruct Hd as [_ Hd].
      by rewrite lookup_delete_eq in Hd.
    + intros [d Hd]. by rewrite lookup_delete_eq in Hd.
    + left. split; reflexivity.
Qed.

(** ** Thread labels *)

Lemma strncpy_bytes_length n src : length (strncpy_bytes n src) = n.
Proof.
  revert src. induction n as [|n IH]; intros src; [reflexivity|].
  simpl. destruct src as [|c src]; [simpl; by rewrite repeat_length|].
  destruct (Ascii.eqb c NUL); simpl; [by rewrite repeat_length|by rewrite IH].
Qed.

Lemma store_bytes_splice bytes : forall dst off,
  (off + length bytes <= length dst)%nat ->
  store_bytes dst off bytes
  = take off dst ++ bytes ++ drop (off + length bytes) dst.
Proof.
  induction bytes as [|b bytes IH]; intros dst off Hlen; simpl in *.
  - rewrite Nat.add_0_r. by rewrite take_drop.
  - rewrite IH by (rewrite length_insert; lia).
    rewrite take_S_r with (x := b) by (apply list_lookup_insert_eq; lia).
    rewrite take_insert_ge by lia. rewrite <- app_assoc. simpl.
    rewrite drop_insert_lt by lia.
    replace (S (off + length bytes)) with (off + S (length bytes))%nat by lia.
    reflexivity.
Qed.

Lemma c_string_take_strncpy n : forall src,
  c_string (take n (strncpy_bytes (S n) src) ++ [NUL]) = take n (c_string src).
Proof.
  induction n as [|n IH]; intros src.
  - reflexivity.
  - change (strncpy_bytes (S (S n)) src) with
      (match src with
       | [] => repeat NUL (S (S n))
       | c :: src' => if Ascii.eqb c NUL then repeat NUL (S (S n))
                      else c :: strncpy_bytes (S n) src'
       end).
    destruct src as [|c src]; [reflexivity|].
    simpl c_string. destruct (Ascii.eqb c NUL) eqn:E; [reflexivity|].
    rewrite firstn_cons. simpl. rewrite E. f_equal. apply IH.
Qed.

(** The 17 bytes [tvhthread_create] leaves in [ts->name]. *)
Lemma thread_name_bytes_pure name0 :
  <[(sizeof_name - 1)%nat := NUL]>
    (strncpy (strncpy (repeat NUL sizeof_name) 0
                (list_ascii_of_string "tvh:") 4)
       4 name0 (sizeof_name - 4))
  = list_ascii_of_string "tvh:" ++ take 12 (strncpy_bytes 13 name0) ++ [NUL].
Proof.
  unfold strncpy, sizeof_name.
  change (17 - 4)%nat with 13%nat. change (17 - 1)%nat with 16%nat.
  change (store_bytes (repeat NUL 17) 0
            (strncpy_bytes 4 (list_ascii_of_string "tvh:")))
    with (list_ascii_of_string "tvh:" ++ repeat NUL 13).
  rewrite store_bytes_splice
    by (rewrite strncpy_bytes_length; simpl; lia).
  rewrite strncpy_bytes_length.
  change (take 4 _) with (list_ascii_of_string "tvh:").
  change (drop (4 + 13) _) with (@nil char).
  rewrite app_nil_r.
  assert (length (take 12 (strncpy_bytes 13 name0)) = 12%nat) as Hl
    by (rewrite length_take, strncpy_bytes_length; lia).
  assert (exists c, drop 12 (strncpy_bytes 13 name0) = [c]) as [c Hc].
  { pose proof (length_drop (strncpy_bytes 13 name0) 12) as Hd.
    rewrite strncpy_bytes_length in Hd.
    destruct (drop 12 (strncpy_bytes 13 name0)) as [|c [|c' l]];
      simpl in Hd; try lia. by exists c. }
  rewrite <- (take_drop 12 (strncpy_bytes 13 name0)) at 1.
  rewrite Hc.
  change 16%nat with (length (list_ascii_of_string "tvh:") + 12)%nat.
  rewrite insert_app_r. f_equal.
  rewrite <- Hl at 1. rewrite <- (Nat.add_0_r (length (take 12 _))).
  rewrite insert_app_r. reflexivity.
Qed.

Lemma thread_name_bytes start_routine arg0 name0 w :
  tvhthread_create start_routine arg0 name0 w
  = Ret (k_create (kern w) (tick w),
         {| run := start_routine; arg := arg0;
            name := list_ascii_of_string "tvh:"
                    ++ take 12 (strncpy_bytes 13 name0) ++ [NUL] |})
        (log (Ev_pthread_create
                {| run := start_routine; arg := arg0;
                   name := list_ascii_of_string "tvh:"
                           ++ take 12 (strncpy_bytes 13 name0) ++ [NUL] |}
                (k_create (kern w) (tick w))) w).
Proof.
  rewrite <- thread_name_bytes_pure. reflexivity.
Qed.

Lemma c_string_no_nul l : NUL ∉ l -> c_string l = l.
Proof.
  induction l as [|c l IH]; intros Hn; [reflexivity|].
  simpl. destruct (Ascii.eqb c NUL) eqn:E.
  - apply Ascii.eqb_eq in E. subst c. exfalso. apply Hn. left.
  - f_equal. apply IH. intros Hin. apply Hn. by right.
Qed.

(** C3, as the code has it: the label is the 4-character prefix "tvh:"
    followed by the caller's name cut to its first 12 characters; the
    17-byte buffer always ends in a zero byte, so the label has at most 16
    visible characters, prefix included, and a name of up to 12 characters
    is kept whole. *)
Theorem thread_label_prefix_and_truncation
  (w : world) (start_routine arg0 : Z) (name0 : list char) :
  exists r ts w',
    tvhthread_create start_routine arg0 name0 w = Ret (r, ts) w' /\
    run ts = start_routine /\ arg ts = arg0 /\
    length (name ts) = sizeof_name /\
    name ts !! 16%nat = Some NUL /\
    thread_label ts = list_ascii_of_string "tvh:" ++ take 12 (c_string name0) /\
    (length (thread_label ts) <= 16)%nat /\
    (NUL ∉ name0 -> (length name0 <= 12)%nat ->
     thread_label ts = list_ascii_of_string "tvh:" ++ name0).
Proof.
  eexists _, _, _. split; [apply thread_name_bytes|]. cbn [run arg name].
  assert (length (take 12 (strncpy_bytes 13 name0)) = 12%nat) as Hl
    by (rewrite length_take, strncpy_bytes_length; lia).
  assert (thread_label
            {| run := start_routine; arg := arg0;
               name := list_ascii_of_string "tvh:"
                       ++ take 12 (strncpy_bytes 13 name0) ++ [NUL] |}
          = list_ascii_of_string "tvh:" ++ take 12 (c_string name0)) as Hlab.
  { unfold thread_label. cbn [name list_ascii_of_string app c_string].
    change (Ascii.eqb "t" NUL) with false.
    change (Ascii.eqb "v" NUL) with false.
    change (Ascii.eqb "h" NUL) with false.
    change (Ascii.eqb ":" NUL) with false.
    cbv iota. do 4 f_equal. apply c_string_take_strncpy. }
  split; [reflexivity|]. split; [reflexivity|].
  split.
  { cbn [list_ascii_of_string app length]. rewrite length_app, Hl.
    reflexivity. }
  split.
  { rewrite lookup_app_r by (simpl; lia).
    rewrite lookup_app_r by (rewrite Hl; simpl; lia).
    rewrite Hl. reflexivity. }
  split; [exact Hlab|].
  split.
  { rewrite Hlab, length_app, length_take.
    change (length (list_ascii_of_string "tvh:")) with 4%nat. lia. }
  intros Hn Hlen. rewrite Hlab. f_equal.
  rewrite c_string_no_nul by exact Hn. apply take_ge. exact Hlen.
Qed.

(** C3 as stated fails for a name of 16 characters: only its first 12
    reach the label. *)
Lemma thread_label_sixteen_cut :
  length name16 = 16%nat /\
  (NUL ∉ name16) /\
  match tvhthread_create 0 0 name16 (world0 kernel_ok) with
  | Ret (_, ts) _ =>
      thread_label ts = list_ascii_of_string "tvh:abcdefghijkl" /\
      thread_label ts <> list_ascii_of_string "tvh:" ++ name16
  | _ => False
  end.
Proof.
  split; [reflexivity|]. split.
  - intros Hin. apply list_elem_of_In in Hin. simpl in Hin.
    repeat (destruct Hin as [Hin|Hin]; [discriminate Hin|]). exact Hin.
  - rewrite thread_name_bytes. split; [reflexivity|].
    intros H. vm_compute in H. discriminate H.
Qed.

(** ** Machine arithmetic in range *)

Ltac pow_consts :=
  change (2 ^ 64) with 18446744073709551616 in *;
  change (2 ^ 63) with 9223372036854775808 in *;
  change (2 ^ 62) with 4611686018427387904 in *;
  change (2 ^ 40) with 1099511627776 in *;
  change (2 ^ 32) with 4294967296 in *;
  change (2 ^ 31) with 2147483648 in *.

Ltac in_range := unfold in_int64, in_size, timespec_ok in *; pow_consts; lia.

Lemma wrap64_id x : in_int64 x -> wrap64 x = x.
Proof.
  unfold in_int64, wrap64. intros H.
  rewrite Z.mod_small by lia. lia.
Qed.

Lemma wrap32_id x : - 2 ^ 31 <= x < 2 ^ 31 -> wrap32 x = x.
Proof.
  unfold wrap32. intros H. rewrite Z.mod_small by lia. lia.
Qed.

Lemma wrap_size_id x : in_size x -> wrap_size x = x.
Proof. unfold in_size, wrap_size. intros H. apply Z.mod_small. lia. Qed.

(** ** Single sleeps *)

Lemma usleep_request_fields us :
  0 < us -> in_int64 us ->
  tv_sec (usleep_request us) = us / 1000000 /\
  tv_nsec (usleep_request us) = (us mod 1000000) * 1000.
Proof.
  unfold in_int64. intros Hpos Hr. unfold usleep_request. simpl.
  unfold int64_div, int64_mul, int64_rem.
  rewrite Z.quot_div_nonneg by lia. rewrite Z.rem_mod_nonneg by lia.
  pose proof (Z.mod_pos_bound us 1000000 ltac:(lia)) as Hm.
  assert (0 <= us / 1000000 <= us) as Hd.
  { split; [apply Z.div_pos; lia|]. apply Z.div_le_upper_bound; lia. }
  rewrite (wrap64_id (us / 1000000)) by in_range.
  rewrite (wrap64_id (us mod 1000000)) by in_range.
  rewrite wrap64_id by in_range.
  split; reflexivity.
Qed.

Lemma usleep_value_ok ts :
  timespec_ok ts ->
  usleep_value ts = tv_sec ts * 1000000 + (tv_nsec ts + 500) / 1000.
Proof.
  unfold timespec_ok. intros [Hs Hn]. unfold usleep_value.
  unfold int64_add, int64_mul, int64_div.
  rewrite (wrap64_id (tv_sec ts * 1000000)) by in_range.
  rewrite (wrap64_id (tv_nsec ts + 500)) by in_range.
  rewrite Z.quot_div_nonneg by lia.
  assert (0 <= (tv_nsec ts + 500) / 1000 <= 1000000) as Hq.
  { Z.div_mod_to_equations. lia. }
  rewrite (wrap64_id ((tv_nsec ts + 500) / 1000)) by in_range.
  apply wrap64_id. in_range.
Qed.

Lemma usleep_value_request us :
  0 < us -> in_int64 us -> usleep_value (usleep_request us) = us.
Proof.
  intros Hpos Hr. unfold usleep_value.
  destruct (usleep_request_fields us Hpos Hr) as [-> ->].
  unfold in_int64 in Hr.
  pose proof (Z.mod_pos_bound us 1000000 ltac:(lia)) as Hm.
  pose proof (Z.div_mod us 1000000 ltac:(lia)) as Hdm.
  assert (0 <= us / 1000000) as Hd by (apply Z.div_pos; lia).
  unfold int64_add, int64_mul, int64_div.
  rewrite (wrap64_id (us / 1000000 * 1000000)) by in_range.
  rewrite (wrap64_id (us mod 1000000 * 1000 + 500)) by in_range.
  rewrite Z.quot_div_nonneg by lia.
  replace ((us mod 1000000 * 1000 + 500) / 1000) with (us mod 1000000).
  2:{ apply Z.div_unique with (r := 500); lia. }
  rewrite (wrap64_id (us mod 1000000)) by in_range.
  rewrite wrap64_id by in_range. lia.
Qed.

(** Both single sleeps are one [clock_nanosleep] whose result is turned
    into the return value the same way. *)
Lemma tvh_usleep_eq us w :
  0 < us ->
  tvh_usleep us w =
  (let '(r, rem) := k_sleep (kern w) (tick w) in
   let ts := if (r =? EINTR) && negb (0 =? TIMER_ABSTIME) then rem
             else usleep_request us in
   Ret (if ERRNO_AGAIN r then usleep_value ts else neg_or_zero r)
       (log (Ev_nanosleep 0 (usleep_request us) r) w)).
Proof.
  intros Hpos. unfold tvh_usleep, clock_nanosleep.
  replace (us <=? 0) with false by lia.
  unfold mbind, M_bind, bind, mret, M_ret, ret.
  destruct (k_sleep (kern w) (tick w)) as [r rem].
  destruct (ERRNO_AGAIN r); reflexivity.
Qed.

Lemma tvh_usleep_abs_eq us w :
  0 < us ->
  tvh_usleep_abs us w =
  (let '(r, rem) := k_sleep (kern w) (tick w) in
   Ret (if ERRNO_AGAIN r then usleep_value (usleep_request us)
        else neg_or_zero r)
       (log (Ev_nanosleep TIMER_ABSTIME (usleep_request us) r) w)).
Proof.
  intros Hpos. unfold tvh_usleep_abs, clock_nanosleep.
  replace (us <=? 0) with false by lia.
  unfold mbind, M_bind, bind, mret, M_ret, ret.
  destruct (k_sleep (kern w) (tick w)) as [r rem].
  replace ((r =? EINTR) && negb (TIMER_ABSTIME =? TIMER_ABSTIME)) with false
    by (rewrite Z.eqb_refl; simpl; by rewrite andb_false_r).
  destruct (ERRNO_AGAIN r); reflexivity.
Qed.

Lemma ERRNO_AGAIN_spec e :
  ERRNO_AGAIN e = true <-> e = EAGAIN \/ e = EINTR.
Proof.
  unfold ERRNO_AGAIN, EAGAIN, EINTR, EWOULDBLOCK. split.
  - intros H. apply orb_true_iff in H as [H|H]; [|lia].
    apply orb_true_iff in H as [H|H]; lia.
  - intros [->| ->]; reflexivity.
Qed.

(** C4, as the code has it.  Both single sleeps return 0 for a target of
    zero or less without calling the kernel.  Otherwise they make one
    [clock_nanosleep] call: when it completes they return 0; when it fails
    with an error outside the retry class they return minus the error
    number, which is negative; when it is interrupted the relative sleep
    returns the time left rounded to the nearest microsecond, which is never
    negative and is positive exactly when at least 500 nanoseconds are
    left, and the absolute sleep returns its deadline unchanged, which is
    positive. *)
Theorem sleep_once_results
  (w : world) (us r : Z) (rem : timespec)
  (Hk : k_sleep (kern w) (tick w) = (r, rem))
  (Hus : in_int64 us)
  (Hr : 0 <= r < 2 ^ 31)
  (Hrem : timespec_ok rem) :
  (us <= 0 -> tvh_usleep us w = Ret 0 w /\ tvh_usleep_abs us w = Ret 0 w) /\
  (0 < us ->
   let w_rel := log (Ev_nanosleep 0 (usleep_request us) r) w in
   let w_abs := log (Ev_nanosleep TIMER_ABSTIME (usleep_request us) r) w in
   let left := tv_sec rem * 1000000 + (tv_nsec rem + 500) / 1000 in
   (r = 0 ->
    tvh_usleep us w = Ret 0 w_rel /\ tvh_usleep_abs us w = Ret 0 w_abs) /\
   (r = EINTR ->
    tvh_usleep us w = Ret left w_rel /\
    0 <= left /\
    (0 < left <-> 0 < tv_sec rem \/ 500 <= tv_nsec rem) /\
    tvh_usleep_abs us w = Ret us w_abs) /\
   (r = EAGAIN ->
    tvh_usleep us w = Ret us w_rel /\ tvh_usleep_abs us w = Ret us w_abs) /\
   (r <> 0 -> ERRNO_AGAIN r = false ->
    tvh_usleep us w = Ret (- r) w_rel /\
    tvh_usleep_abs us w = Ret (- r) w_abs /\
    - r < 0)).
Proof.
  split.
  - intros Hle. unfold tvh_usleep, tvh_usleep_abs.
    replace (us <=? 0) with true by lia. split; reflexivity.
  - intros Hpos w_rel w_abs left. subst w_rel w_abs.
    rewrite (tvh_usleep_eq us w Hpos), (tvh_usleep_abs_eq us w Hpos), Hk.
    pose proof (usleep_value_request us Hpos Hus) as Hreq.
    pose proof (usleep_value_ok rem Hrem) as Hval. fold left in Hval.
    repeat split.
    + subst r. reflexivity.
    + subst r. reflexivity.
    + subst r. cbn -[usleep_value usleep_request]. by rewrite Hval.
    + unfold timespec_ok in Hrem. subst left. Z.div_mod_to_equations. lia.
    + unfold timespec_ok in Hrem. subst left. Z.div_mod_to_equations. lia.
    + unfold timespec_ok in Hrem. subst left. Z.div_mod_to_equations. lia.
    + subst r. cbn -[usleep_value usleep_request]. by rewrite Hreq.
    + subst r. cbn -[usleep_value usleep_request]. by rewrite Hreq.
    + subst r. cbn -[usleep_value usleep_request]. by rewrite Hreq.
    + rewrite H0. unfold neg_or_zero. replace (r =? 0) with false by lia.
      rewrite wrap32_id by (pow_consts; lia). reflexivity.
    + rewrite H0. unfold neg_or_zero. replace (r =? 0) with false by lia.
      rewrite wrap32_id by (pow_consts; lia). reflexivity.
    + lia.
Qed.

(** The theorem at a sleep of one millisecond that a signal interrupts 400
    nanoseconds before its end. *)
Lemma sleep_once_results_witness :
  tvh_usleep_abs 1000 (world0 kernel_late_signal)
  = Ret 1000
      (log (Ev_nanosleep TIMER_ABSTIME (usleep_request 1000) EINTR)
         (world0 kernel_late_signal)).
Proof.
  destruct (sleep_once_results (world0 kernel_late_signal) 1000 EINTR
              {| tv_sec := 0; tv_nsec := 400 |}) as [_ H].
  - reflexivity.
  - unfold in_int64. simpl. lia.
  - unfold EINTR. simpl. lia.
  - unfold timespec_ok. simpl. lia.
  - destruct (H ltac:(lia)) as (_ & Hintr & _).
    destruct (Hintr eq_refl) as (_ & _ & _ & Habs). exact Habs.
Defined.

(** C4 as stated fails when the signal arrives less than 500 nanoseconds
    before the end of a relative sleep: the sleep was interrupted, and the
    value returned is 0, not a positive remainder. *)
Lemma sleep_interrupted_returns_zero :
  k_sleep kernel_late_signal 0 = (EINTR, {| tv_sec := 0; tv_nsec := 400 |}) /\
  match tvh_usleep 1000 (world0 kernel_late_signal) with
  | Ret v w' =>
      v = 0 /\ ~ 0 < v /\
      trace w' = [Ev_nanosleep 0 {| tv_sec := 0; tv_nsec := 1000000 |} EINTR]
  | _ => False
  end.
Proof.
  split; [reflexivity|]. vm_compute. repeat split. intros H. discriminate H.
Qed.

(** ** Condition variables *)

(** C9: when the clock of the condition variable cannot be set to the
    monotonic one, [tvh_cond_init] reports it on the error stream and aborts;
    it returns only after the clock was set, with the result of
    [pthread_cond_init], and a condition variable it initialised measures
    timeouts against the monotonic clock. *)
Theorem tvh_cond_init_aborts (w : world) (c : tvh_cond_t) :
  (k_setclock (kern w) (tick w) <> 0 ->
   tvh_cond_init c w
   = Abort (log (Ev_stderr "Unable to set monotonic clocks for conditions! (%d)"
                   (k_setclock (kern w) (tick w)))
              (log (Ev_condattr_setclock CLOCK_MONOTONIC
                      (k_setclock (kern w) (tick w))) w))) /\
  (k_setclock (kern w) (tick w) = 0 ->
   exists r c' w',
     tvh_cond_init c w = Ret (r, c') w' /\
     r = k_cond_init (kern w) (S (tick w)) /\
     (r = 0 -> cond c' = Some CLOCK_MONOTONIC) /\
     (r <> 0 -> c' = c)) /\
  (forall v w', tvh_cond_init c w = Ret v w' ->
                k_setclock (kern w) (tick w) = 0).
Proof.
  unfold tvh_cond_init, pthread_condattr_init, pthread_condattr_setclock,
    pthread_cond_init, fprintf_stderr.
  unfold_proc.
  destruct (k_setclock (kern w) (tick w) =? 0) eqn:E; unfold_proc.
  - apply Z.eqb_eq in E. split; [intros H; congruence|]. split; [|auto].
    intros _. eexists _, _, _. split; [reflexivity|].
    unfold tick. simpl. rewrite length_app. simpl.
    replace (length (trace w) + 1)%nat with (S (length (trace w))) by lia.
    split; [reflexivity|].
    split; intros Hr.
    + rewrite Hr. reflexivity.
    + replace (_ =? 0) with false by lia. reflexivity.
  - apply Z.eqb_neq in E. split; [intros _; reflexivity|].
    split; [intros H; congruence|]. intros v w' H. discriminate H.
Qed.

(** ** Runs that only extend the trace *)

Lemma bind_Ret_inv {A B} (m : M A) (k : A -> M B) w b w2 :
  (m ≫= k) w = Ret b w2 -> exists a w1, m w = Ret a w1 /\ k a w1 = Ret b w2.
Proof.
  unfold mbind, M_bind, bind. destruct (m w) as [a w1| |]; intros H;
    [eauto|discriminate H|discriminate H].
Qed.

Lemma bind_Ret {A B} (m : M A) (k : A -> M B) w a w1 :
  m w = Ret a w1 -> (m ≫= k) w = k a w1.
Proof. unfold mbind, M_bind, bind. intros ->. reflexivity. Qed.

Lemma quiet_refl w : quiet w w [].
Proof. unfold quiet. rewrite app_nil_r. repeat split. Qed.

Lemma quiet_log w e : quiet w (log e w) [e].
Proof. unfold quiet. repeat split. Qed.

Lemma quiet_trans w w1 w2 e1 e2 :
  quiet w w1 e1 -> quiet w1 w2 e2 -> quiet w w2 (e1 ++ e2).
Proof.
  unfold quiet. intros (?&?&?&?&?&?&Ht1) (?&?&?&?&?&?&Ht2).
  rewrite Ht2, Ht1, app_assoc. repeat split; congruence.
Qed.

Lemma quiet_tick w w' evs :
  quiet w w' evs -> tick w' = (tick w + length evs)%nat.
Proof.
  unfold quiet, tick. intros (_&_&_&_&_&_&H). rewrite H. apply length_app.
Qed.

Lemma quiet_kern w w' evs : quiet w w' evs -> kern w' = kern w.
Proof. unfold quiet. tauto. Qed.

Lemma tick_log e w : tick (log e w) = S (tick w).
Proof. unfold tick. simpl. rewrite length_app. simpl. lia. Qed.

(** One [tvh_usleep(us)] with [us] positive is one relative sleep. *)
Lemma tvh_usleep_run us w :
  0 < us ->
  exists v,
    tvh_usleep us w
    = Ret v (log (Ev_nanosleep 0 (usleep_request us)
                    (fst (k_sleep (kern w) (tick w)))) w) /\
    (fst (k_sleep (kern w) (tick w)) = 0 -> v = 0).
Proof.
  intros Hpos. rewrite (tvh_usleep_eq us w Hpos).
  destruct (k_sleep (kern w) (tick w)) as [r rem]. simpl.
  eexists. split; [reflexivity|]. intros ->. reflexivity.
Qed.

Lemma tvh_usleep_result us w :
  0 < us ->
  tvh_usleep us w
  = Ret (usleep_result us (k_sleep (kern w) (tick w)))
      (log (Ev_nanosleep 0 (usleep_request us)
              (fst (k_sleep (kern w) (tick w)))) w).
Proof.
  intros Hpos. rewrite (tvh_usleep_eq us w Hpos). unfold usleep_result.
  destruct (k_sleep (kern w) (tick w)) as [r rem]. cbn [fst].
  destruct (r =? EINTR) eqn:E; [|reflexivity].
  apply Z.eqb_eq in E. subst r. reflexivity.
Qed.

Lemma tvh_safe_usleep_loop_sound fuel : forall us w w',
  0 < us ->
  tvh_safe_usleep_loop fuel us w = Ret tt w' ->
  exists evs,
    quiet w w' evs /\ sleep_trace (kern w) (tick w) us evs /\
    (length evs <= fuel)%nat.
Proof.
  induction fuel as [|fuel IH]; intros us w w' Hpos Hrun; [discriminate Hrun|].
  simpl in Hrun.
  rewrite (bind_Ret _ _ _ _ _ (tvh_usleep_result us w Hpos)) in Hrun.
  set (v := usleep_result us (k_sleep (kern w) (tick w))) in *.
  set (e := Ev_nanosleep 0 (usleep_request us)
              (fst (k_sleep (kern w) (tick w)))) in *.
  assert (v <= 0 ->
          quiet w (log e w) [e] /\ sleep_trace (kern w) (tick w) us [e] /\
          (length [e] <= S fuel)%nat) as Hstop.
  { intros Hv. split; [apply quiet_log|]. split; [|simpl; lia].
    apply sleep_ends. exact Hv. }
  destruct (v <? 0) eqn:Hneg.
  - destruct (ERRNO_AGAIN (int64_neg v)).
    + replace (v >? 0) with false in Hrun by lia.
      injection Hrun as <-. exists [e]. apply Hstop. lia.
    + injection Hrun as <-. exists [e]. apply Hstop. lia.
  - destruct (v >? 0) eqn:Hgt.
    + destruct (IH v _ _ ltac:(lia) Hrun) as (evs & Hq & Htr & Hn).
      exists (e :: evs). split; [|split; [|simpl; lia]].
      * apply (quiet_trans w (log e w) w' [e]); [apply quiet_log|exact Hq].
      * rewrite tick_log in Htr.
        apply sleep_resumes; [fold v; lia|exact Htr].
    + injection Hrun as <-. exists [e]. apply Hstop. lia.
Qed.

Lemma tvh_safe_usleep_sound fuel us w w' :
  0 < us ->
  tvh_safe_usleep fuel us w = Ret tt w' ->
  exists evs,
    quiet w w' evs /\ sleep_trace (kern w) (tick w) us evs /\
    (length evs <= fuel)%nat.
Proof.
  intros Hpos. unfold tvh_safe_usleep. replace (us <=? 0) with false by lia.
  apply tvh_safe_usleep_loop_sound. exact Hpos.
Qed.

Lemma settles_sleeps k N deadline : settles k N deadline -> sleeps_complete k N.
Proof. intros Hset n Hn. apply (Hset n Hn). Qed.

Lemma tvh_safe_usleep_loop_complete N fuel : forall us w,
  sleeps_complete (kern w) N ->
  0 < us ->
  (N - tick w < fuel)%nat ->
  exists w', tvh_safe_usleep_loop fuel us w = Ret tt w'.
Proof.
  induction fuel as [|fuel IH]; intros us w Hset Hpos Hfuel; [lia|].
  simpl. destruct (tvh_usleep_run us w Hpos) as (v & Hrun & Hzero).
  rewrite (bind_Ret _ _ _ _ _ Hrun).
  set (w1 := log _ w) in *.
  destruct (decide (N <= tick w)%nat) as [Hlate|Hearly].
  - rewrite (Hzero (Hset (tick w) Hlate)). simpl. eauto.
  - destruct (v <? 0) eqn:Hneg.
    + destruct (ERRNO_AGAIN (int64_neg v)); [|eauto].
      replace (v >? 0) with false by lia. eauto.
    + destruct (v >? 0) eqn:Hgt; [|eauto].
      apply IH; [exact Hset|lia|subst w1; rewrite tick_log; lia].
Qed.

Lemma tvh_safe_usleep_complete N fuel us w :
  sleeps_complete (kern w) N ->
  (N - tick w < fuel)%nat ->
  exists w', tvh_safe_usleep fuel us w = Ret tt w'.
Proof.
  intros Hset Hfuel. unfold tvh_safe_usleep.
  destruct (us <=? 0) eqn:E; [eauto|].
  apply (tvh_safe_usleep_loop_complete N); [exact Hset|lia|exact Hfuel].
Qed.

Lemma tvh_safe_usleep_terminates N deadline fuel us w :
  settles (kern w) N deadline ->
  (N - tick w < fuel)%nat ->
  exists w', tvh_safe_usleep fuel us w = Ret tt w'.
Proof.
  intros Hset. apply (tvh_safe_usleep_complete N).
  exact (settles_sleeps _ _ _ Hset).
Qed.

(** A sleep that runs to its end is one call. *)
Lemma tvh_safe_usleep_one_call fuel us w :
  0 < us ->
  fst (k_sleep (kern w) (tick w)) = 0 ->
  tvh_safe_usleep (S fuel) us w
  = Ret tt (log (Ev_nanosleep 0 (usleep_request us) 0) w).
Proof.
  intros Hpos H0. unfold tvh_safe_usleep. replace (us <=? 0) with false by lia.
  simpl. rewrite (bind_Ret _ _ _ _ _ (tvh_usleep_result us w Hpos)).
  destruct (k_sleep (kern w) (tick w)) as [r rem]. simpl in H0. subst r.
  reflexivity.
Qed.

Lemma sleep_trace_all k t us sl : sleep_trace k t us sl -> Forall is_sleep sl.
Proof.
  induction 1 as [t us Hv|t us evs Hv Hrest IH].
  - constructor; [exact I|constructor].
  - constructor; [exact I|exact IH].
Qed.

(** What the calls of a 10 millisecond [tvh_safe_usleep] are: one call when
    the sleep runs to its end; when it is interrupted, that call and then,
    if a positive time is left, the calls of a sleep of the time left. *)
Lemma sleep_trace_cases k t us sl :
  sleep_trace k t us sl ->
  (fst (k_sleep k t) = 0 -> sl = [Ev_nanosleep 0 (usleep_request us) 0]) /\
  (forall rem,
     k_sleep k t = (EINTR, rem) -> timespec_ok rem ->
     let left := tv_sec rem * 1000000 + (tv_nsec rem + 500) / 1000 in
     (left <= 0 -> sl = [Ev_nanosleep 0 (usleep_request us) EINTR]) /\
     (0 < left ->
      exists sl', sl = Ev_nanosleep 0 (usleep_request us) EINTR :: sl' /\
                  sleep_trace k (S t) left sl')).
Proof.
  intros Htr. split.
  - intros H0.
    assert (usleep_result us (k_sleep k t) = 0) as Hv.
    { destruct (k_sleep k t) as [r rem]. simpl in H0. subst r. reflexivity. }
    inversion Htr as [t' us' Hle|t' us' evs Hlt Hrest]; subst.
    + rewrite H0. reflexivity.
    + lia.
  - intros rem Hk Hrem left.
    assert (usleep_result us (k_sleep k t) = left) as Hv.
    { rewrite Hk. unfold usleep_result. cbn -[usleep_value].
      apply usleep_value_ok. exact Hrem. }
    inversion Htr as [t' us' Hle|t' us' evs Hlt Hrest]; subst.
    + rewrite Hk. cbn [fst]. split; [reflexivity|]. rewrite Hv in Hle. lia.
    + rewrite Hk. cbn [fst]. rewrite Hv in Hlt, Hrest. split; [lia|].
      intros _. exists evs. split; [reflexivity|exact Hrest].
Qed.

(** ** Timed mutex *)

Lemma timedlock_loop_sound fuel : forall mutex finish w v w',
  tvh_mutex_timedlock_loop fuel mutex finish w = Ret v w' ->
  exists evs,
    quiet w w' evs /\ timedlock_trace (kern w) finish (tick w) evs v.
Proof.
  induction fuel as [|fuel IH]; intros mutex finish w v w' Hrun;
    [discriminate Hrun|].
  simpl in Hrun. unfold pthread_mutex_trylock, getfastmonoclock in Hrun.
  unfold mbind at 1, M_bind at 1, bind at 1 in Hrun.
  set (r := k_trylock (kern w) (tick w)) in *.
  set (w1 := log (Ev_trylock r) w) in *.
  destruct (r =? EBUSY) eqn:Hbusy.
  - apply Z.eqb_eq in Hbusy.
    unfold mbind at 1, M_bind at 1, bind at 1 in Hrun.
    assert (k_clock (kern w1) (tick w1) = k_clock (kern w) (S (tick w)))
      as Hclk by (subst w1; rewrite tick_log; reflexivity).
    rewrite Hclk in Hrun.
    set (t := k_clock (kern w) (S (tick w))) in *.
    set (w2 := log (Ev_fastmonoclock t) w1) in *.
    assert (quiet w w2 [Ev_trylock EBUSY; Ev_fastmonoclock t]) as Hq2.
    { rewrite <- Hbusy. apply (quiet_trans w w1 w2 [_] [_]); apply quiet_log. }
    assert (tick w2 = S (S (tick w))) as Ht2
      by (subst w2 w1; rewrite !tick_log; reflexivity).
    destruct (t >=? finish) eqn:Hlate.
    + injection Hrun as <- <-. eexists. split; [exact Hq2|].
      apply tl_timeout; [exact Hbusy|fold t; lia].
    + apply bind_Ret_inv in Hrun as ([] & w3 & Hsleep & Hrest).
      apply tvh_safe_usleep_sound in Hsleep as (sl & Hq3 & Hsl & _); [|lia].
      apply IH in Hrest as (rest & Hq4 & Htr).
      rewrite (quiet_kern _ _ _ Hq3), (quiet_tick _ _ _ Hq3), Ht2 in Htr.
      rewrite Ht2 in Hsl.
      exists ([Ev_trylock EBUSY; Ev_fastmonoclock t] ++ sl ++ rest). split.
      * eapply quiet_trans; [exact Hq2|]. eapply quiet_trans; eassumption.
      * simpl. apply tl_retry; [exact Hbusy|fold t; lia|exact Hsl|exact Htr].
  - apply Z.eqb_neq in Hbusy. injection Hrun as <- <-.
    exists [Ev_trylock r]. split; [apply quiet_log|]. by apply tl_done.
Qed.

Lemma timedlock_loop_terminates N fuel : forall mutex finish w,
  settles (kern w) N finish ->
  (N - tick w < fuel)%nat ->
  exists v w',
    tvh_mutex_timedlock_loop fuel mutex finish w = Ret v w' /\
    ((forall n, k_trylock (kern w) n = EBUSY) -> v = ETIMEDOUT).
Proof.
  induction fuel as [|fuel IH]; intros mutex finish w Hset Hfuel; [lia|].
  simpl. unfold pthread_mutex_trylock, getfastmonoclock.
  unfold mbind at 1, M_bind at 1, bind at 1.
  set (r := k_trylock (kern w) (tick w)).
  set (w1 := log (Ev_trylock r) w).
  destruct (r =? EBUSY) eqn:Hbusy.
  2:{ eexists _, _. split; [reflexivity|]. intros Hall.
      specialize (Hall (tick w)). fold r in Hall. lia. }
  unfold mbind at 1, M_bind at 1, bind at 1.
  set (t := k_clock (kern w1) (tick w1)).
  set (w2 := log (Ev_fastmonoclock t) w1).
  destruct (t >=? finish) eqn:Hlate; [eauto|].
  assert (tick w1 < N)%nat as Hearly.
  { destruct (decide (N <= tick w1)%nat) as [Hge|]; [|lia].
    destruct (Hset (tick w1) Hge) as [Hclock _]. subst t.
    change (kern w1) with (kern w) in Hlate. lia. }
  assert (tick w1 = S (tick w)) as Ht1 by apply tick_log.
  assert (tick w2 = S (tick w1)) as Ht2 by apply tick_log.
  destruct (tvh_safe_usleep_terminates N finish fuel 10000 w2) as [w3 Hsleep];
    [exact Hset|lia|].
  rewrite (bind_Ret _ _ _ _ _ Hsleep).
  destruct (tvh_safe_usleep_sound fuel 10000 w2 w3 ltac:(lia) Hsleep)
    as (sl & Hq & _).
  assert (kern w3 = kern w) as Hk3 by apply (quiet_kern _ _ _ Hq).
  destruct (IH mutex finish w3) as (v & w' & Hrun & Hto).
  - rewrite Hk3. exact Hset.
  - rewrite (quiet_tick _ _ _ Hq). lia.
  - exists v, w'. split; [exact Hrun|]. intros Hall. apply Hto.
    rewrite Hk3. exact Hall.
Qed.

Lemma split_after_sleeps sl : forall rest pre r post,
  Forall is_sleep sl ->
  sl ++ rest = pre ++ Ev_trylock r :: post ->
  exists pre', pre = sl ++ pre' /\ rest = pre' ++ Ev_trylock r :: post.
Proof.
  induction sl as [|e sl IH]; intros rest pre r post Hall Heq.
  - exists pre. split; [reflexivity|exact Heq].
  - inversion Hall as [|? ? He Hall']; subst.
    destruct pre as [|x pre]; simpl in Heq.
    + injection Heq as -> _. destruct He.
    + injection Heq as <- Heq.
      destruct (IH _ _ _ _ Hall' Heq) as (pre' & -> & ->).
      exists pre'. split; reflexivity.
Qed.

Lemma timedlock_trace_head k finish t evs v :
  timedlock_trace k finish t evs v -> exists r rest, evs = Ev_trylock r :: rest.
Proof. intros H. inversion H; subst; eauto. Qed.

(** An attempt with a result other than [EBUSY] is the last call of the
    loop, and its result is what the loop returns. *)
Lemma timedlock_trace_pass k finish t evs v :
  timedlock_trace k finish t evs v ->
  forall pre r post,
    evs = pre ++ Ev_trylock r :: post -> r <> EBUSY -> v = r /\ post = [].
Proof.
  induction 1 as [t Hr0|t Hb Ht|t sl rest v Hb Ht Hsl Hrest IH];
    intros pre r post Heq Hr.
  - destruct pre as [|x pre]; simpl in Heq.
    + injection Heq as <- <-. split; reflexivity.
    + injection Heq as _ Heq. destruct pre; discriminate Heq.
  - destruct pre as [|x [|y pre]]; simpl in Heq.
    + injection Heq as <- _. congruence.
    + injection Heq as _ Heq. discriminate Heq.
    + injection Heq as _ _ Heq. destruct pre; discriminate Heq.
  - destruct pre as [|x [|y pre]]; simpl in Heq.
    + injection Heq as <- _. congruence.
    + injection Heq as _ Heq. discriminate Heq.
    + injection Heq as _ _ Heq.
      destruct (split_after_sleeps sl rest pre r post
                  (sleep_trace_all _ _ _ _ Hsl) Heq) as (pre' & _ & Hrest').
      exact (IH pre' r post Hrest' Hr).
Qed.

(** How the loop ends: with an attempt whose result it returns, or with a
    busy attempt and a reading of the clock at or after the deadline. *)
Lemma timedlock_trace_last k finish t evs v :
  timedlock_trace k finish t evs v ->
  (exists pre r, evs = pre ++ [Ev_trylock r] /\ r <> EBUSY /\ v = r) \/
  (exists pre t', evs = pre ++ [Ev_trylock EBUSY; Ev_fastmonoclock t'] /\
                  finish <= t' /\ v = ETIMEDOUT).
Proof.
  induction 1 as [t Hr0|t Hb Ht|t sl rest v Hb Ht Hsl Hrest IH].
  - left. exists [], (k_trylock k t). auto.
  - right. exists [], (k_clock k (S t)). auto.
  - destruct IH as [(pre & r & -> & Hr & Hv)|(pre & t' & -> & Ht' & Hv)].
    + left.
      exists (Ev_trylock EBUSY :: Ev_fastmonoclock (k_clock k (S t))
              :: sl ++ pre), r.
      split; [|auto]. simpl. by rewrite <- app_assoc.
    + right.
      exists (Ev_trylock EBUSY :: Ev_fastmonoclock (k_clock k (S t))
              :: sl ++ pre), t'.
      split; [|auto]. simpl. by rewrite <- app_assoc.
Qed.

Lemma tvh_mutex_timedlock_eq fuel mutex usec w :
  tvh_mutex_timedlock fuel mutex usec w
  = tvh_mutex_timedlock_loop fuel mutex
      (int64_add (k_clock (kern w) (tick w)) usec)
      (log (Ev_fastmonoclock (k_clock (kern w) (tick w))) w).
Proof. reflexivity. Qed.

Lemma timedlock_first_attempt fuel mutex usec w :
  k_trylock (kern w) (S (tick w)) <> EBUSY ->
  tvh_mutex_timedlock (S fuel) mutex usec w
  = Ret (k_trylock (kern w) (S (tick w)))
      (log (Ev_trylock (k_trylock (kern w) (S (tick w))))
         (log (Ev_fastmonoclock (k_clock (kern w) (tick w))) w)).
Proof.
  intros Hr. rewrite tvh_mutex_timedlock_eq. simpl.
  unfold pthread_mutex_trylock. unfold mbind, M_bind, bind.
  rewrite tick_log. change (kern (log _ w)) with (kern w).
  replace (_ =? EBUSY) with false by lia. reflexivity.
Qed.

Lemma timedlock_sound fuel mutex usec w v w' :
  tvh_mutex_timedlock fuel mutex usec w = Ret v w' ->
  exists evs,
    quiet w w' (Ev_fastmonoclock (k_clock (kern w) (tick w)) :: evs) /\
    timedlock_trace (kern w) (int64_add (k_clock (kern w) (tick w)) usec)
      (S (tick w)) evs v.
Proof.
  rewrite tvh_mutex_timedlock_eq. intros Hrun.
  apply timedlock_loop_sound in Hrun as (evs & Hq & Htr).
  rewrite tick_log in Htr.
  exists evs. split; [|exact Htr].
  exact (quiet_trans w _ w' [_] evs (quiet_log w _) Hq).
Qed.

(** Under a kernel that settles the call returns, and its calls are those
    of the polling loop. *)
Lemma timedlock_returns N mutex usec w :
  settles (kern w) N (int64_add (k_clock (kern w) (tick w)) usec) ->
  exists v w' evs,
    tvh_mutex_timedlock (S N) mutex usec w = Ret v w' /\
    quiet w w' (Ev_fastmonoclock (k_clock (kern w) (tick w)) :: evs) /\
    timedlock_trace (kern w) (int64_add (k_clock (kern w) (tick w)) usec)
      (S (tick w)) evs v.
Proof.
  intros Hset.
  destruct (timedlock_loop_terminates N (S N) mutex
              (int64_add (k_clock (kern w) (tick w)) usec)
              (log (Ev_fastmonoclock (k_clock (kern w) (tick w))) w))
    as (v & w' & Hrun & _).
  - exact Hset.
  - rewrite tick_log. lia.
  - rewrite <- tvh_mutex_timedlock_eq in Hrun.
    destruct (timedlock_sound _ _ _ _ _ _ Hrun) as (evs & Hq & Htr).
    exists v, w', evs. auto.
Qed.

(** One round of the loop with the mutex busy, the deadline not reached and
    the sleep not interrupted. *)
Lemma timedlock_loop_busy_round fuel mutex finish w :
  k_trylock (kern w) (tick w) = EBUSY ->
  k_clock (kern w) (S (tick w)) < finish ->
  fst (k_sleep (kern w) (S (S (tick w)))) = 0 ->
  tvh_mutex_timedlock_loop (S (S fuel)) mutex finish w
  = tvh_mutex_timedlock_loop (S fuel) mutex finish
      (log (Ev_nanosleep 0 (usleep_request 10000) 0)
         (log (Ev_fastmonoclock (k_clock (kern w) (S (tick w))))
            (log (Ev_trylock EBUSY) w))).
Proof.
  intros Hb Hc Hs.
  change (tvh_mutex_timedlock_loop (S (S fuel)) mutex finish w)
    with ((retcode ← pthread_mutex_trylock mutex;
           if retcode =? EBUSY then
             now ← getfastmonoclock;
             if now >=? finish then mret ETIMEDOUT
             else
               tvh_safe_usleep (S fuel) 10000 ;;
               tvh_mutex_timedlock_loop (S fuel) mutex finish
           else mret retcode) w).
  unfold pthread_mutex_trylock, getfastmonoclock.
  unfold mbind at 1, M_bind at 1, bind at 1. rewrite Hb, Z.eqb_refl.
  unfold mbind at 1, M_bind at 1, bind at 1.
  rewrite tick_log. change (kern (log _ w)) with (kern w).
  replace (_ >=? finish) with false by lia.
  set (w2 := log (Ev_fastmonoclock _) _).
  assert (fst (k_sleep (kern w2) (tick w2)) = 0) as Hs2
    by (subst w2; rewrite !tick_log; exact Hs).
  rewrite (bind_Ret _ _ _ _ _
             (tvh_safe_usleep_one_call fuel 10000 w2 ltac:(lia) Hs2)).
  reflexivity.
Qed.

Lemma timedlock_loop_rounds mutex finish : forall n w,
  (forall i, (i < n)%nat ->
     k_trylock (kern w) (tick w + 3 * i) = EBUSY /\
     k_clock (kern w) (S (tick w + 3 * i)) < finish /\
     fst (k_sleep (kern w) (S (S (tick w + 3 * i)))) = 0) ->
  k_trylock (kern w) (tick w + 3 * n) <> EBUSY ->
  exists w',
    tvh_mutex_timedlock_loop (S n) mutex finish w
    = Ret (k_trylock (kern w) (tick w + 3 * n)) w' /\
    quiet w w' (busy_rounds (kern w) (tick w) n
                ++ [Ev_trylock (k_trylock (kern w) (tick w + 3 * n))]).
Proof.
  induction n as [|n IH]; intros w Hbusy Hr.
  - replace (tick w + 3 * 0)%nat with (tick w) in * by lia.
    simpl. unfold pthread_mutex_trylock. unfold mbind, M_bind, bind.
    replace (_ =? EBUSY) with false by lia.
    eexists. split; [reflexivity|]. apply quiet_log.
  - destruct (Hbusy 0%nat ltac:(lia)) as (Hb & Hc & Hs).
    replace (tick w + 3 * 0)%nat with (tick w) in * by lia.
    rewrite (timedlock_loop_busy_round n mutex finish w Hb Hc Hs).
    set (w3 := log _ (log _ (log _ w))).
    assert (tick w3 = (3 + tick w)%nat) as Ht3
      by (subst w3; rewrite !tick_log; reflexivity).
    assert (forall i, (tick w3 + 3 * i = tick w + 3 * S i)%nat) as Hshift
      by (intros i; lia).
    destruct (IH w3) as (w' & Hrun & Hq).
    + intros i Hi. change (kern w3) with (kern w). rewrite Hshift.
      apply Hbusy. lia.
    + change (kern w3) with (kern w). rewrite Hshift. exact Hr.
    + change (kern w3) with (kern w) in *. rewrite Hshift in Hrun, Hq.
      rewrite Ht3 in Hq.
      exists w'. split; [exact Hrun|].
      apply (quiet_trans w w3 w'
               [Ev_trylock EBUSY;
                Ev_fastmonoclock (k_clock (kern w) (S (tick w)));
                Ev_nanosleep 0 (usleep_request 10000) 0]); [|exact Hq].
      subst w3.
      apply (quiet_trans w (log (Ev_trylock EBUSY) w) _ [_] [_; _]);
        [apply quiet_log|].
      apply (quiet_trans _
               (log (Ev_fastmonoclock (k_clock (kern w) (S (tick w))))
                  (log (Ev_trylock EBUSY) w)) _ [_] [_]); apply quiet_log.
Qed.

(** C5: an attempt that finds the mutex free returns 0 at once, without a
    sleep.  A run that returns has made the calls of the polling loop, and
    under a kernel whose clock reaches the deadline and whose sleeps then
    run to their end the call does return.  The loop is this: each attempt
    that finds the mutex busy with the clock before the deadline, which is
    the first clock reading plus the timeout, is followed by one
    [tvh_safe_usleep] of 10 milliseconds and another attempt; the loop ends
    with the result of an attempt that is not [EBUSY], or with [ETIMEDOUT]
    after a busy attempt with the clock at or past the deadline.  The sleep
    between two attempts is a single request for 10 milliseconds when it is
    not interrupted; when it is interrupted it is followed only by a sleep
    for the time the kernel reports as left.  When the mutex stays busy the
    value returned is [ETIMEDOUT]. *)
Theorem timedlock_polls_until_deadline (w : world) (mutex usec : Z) :
  (forall fuel,
     k_trylock (kern w) (S (tick w)) = 0 ->
     tvh_mutex_timedlock (S fuel) mutex usec w
     = Ret 0 (log (Ev_trylock 0)
                (log (Ev_fastmonoclock (k_clock (kern w) (tick w))) w))) /\
  (forall fuel v w',
     tvh_mutex_timedlock fuel mutex usec w = Ret v w' ->
     exists evs,
       quiet w w' (Ev_fastmonoclock (k_clock (kern w) (tick w)) :: evs) /\
       timedlock_trace (kern w) (int64_add (k_clock (kern w) (tick w)) usec)
         (S (tick w)) evs v) /\
  (forall N,
     settles (kern w) N (int64_add (k_clock (kern w) (tick w)) usec) ->
     exists v w' evs,
       tvh_mutex_timedlock (S N) mutex usec w = Ret v w' /\
       quiet w w' (Ev_fastmonoclock (k_clock (kern w) (tick w)) :: evs) /\
       timedlock_trace (kern w) (int64_add (k_clock (kern w) (tick w)) usec)
         (S (tick w)) evs v) /\
  usleep_request 10000 = {| tv_sec := 0; tv_nsec := 10000000 |} /\
  (forall t sl,
     sleep_trace (kern w) t 10000 sl ->
     (fst (k_sleep (kern w) t) = 0 ->
      sl = [Ev_nanosleep 0 (usleep_request 10000) 0]) /\
     (forall rem,
        k_sleep (kern w) t = (EINTR, rem) -> timespec_ok rem ->
        let left := tv_sec rem * 1000000 + (tv_nsec rem + 500) / 1000 in
        (left <= 0 -> sl = [Ev_nanosleep 0 (usleep_request 10000) EINTR]) /\
        (0 < left ->
         exists sl',
           sl = Ev_nanosleep 0 (usleep_request 10000) EINTR :: sl' /\
           sleep_trace (kern w) (S t) left sl'))) /\
  (forall N,
     settles (kern w) N (int64_add (k_clock (kern w) (tick w)) usec) ->
     (forall n, k_trylock (kern w) n = EBUSY) ->
     exists w', tvh_mutex_timedlock (S N) mutex usec w = Ret ETIMEDOUT w').
Proof.
  split; [|split; [|split; [|split; [|split]]]].
  - intros fuel H0.
    rewrite timedlock_first_attempt by (rewrite H0; discriminate).
    rewrite H0. reflexivity.
  - intros fuel v w'. apply timedlock_sound.
  - intros N. apply timedlock_returns.
  - reflexivity.
  - intros t sl. apply sleep_trace_cases.
  - intros N Hset Hbusy. rewrite tvh_mutex_timedlock_eq.
    destruct (timedlock_loop_terminates N (S N) mutex
                (int64_add (k_clock (kern w) (tick w)) usec)
                (log (Ev_fastmonoclock (k_clock (kern w) (tick w))) w))
      as (v & w' & Hrun & Hto).
    + exact Hset.
    + rewrite tick_log. lia.
    + exists w'. rewrite Hrun. f_equal. apply Hto. exact Hbusy.
Qed.

(** C10: whatever the timeout, zero and negative ones included, the first
    call after the clock reading that fixes the deadline is an attempt to
    take the mutex, and when its result is not [EBUSY] that result, success
    or error, is returned at once.  The same holds of every later attempt:
    when the mutex is busy for [n] attempts, each before the deadline and
    followed by a sleep that runs to its end, and the next attempt has a
    result other than [EBUSY], the call returns that result, having made
    these calls and no other.  Under a kernel whose clock reaches the
    deadline and whose sleeps then run to their end the call returns, and
    in every run that returns, an attempt with a result other than [EBUSY]
    is the last call made and its result is the value returned;
    [ETIMEDOUT] is produced by the deadline only after an attempt that
    found the mutex busy. *)
Theorem timedlock_tries_before_deadline (w : world) (mutex usec : Z) :
  (forall fuel,
     k_trylock (kern w) (S (tick w)) <> EBUSY ->
     tvh_mutex_timedlock (S fuel) mutex usec w
     = Ret (k_trylock (kern w) (S (tick w)))
         (log (Ev_trylock (k_trylock (kern w) (S (tick w))))
            (log (Ev_fastmonoclock (k_clock (kern w) (tick w))) w))) /\
  (forall n,
     (forall i, (i < n)%nat ->
        k_trylock (kern w) (S (tick w) + 3 * i) = EBUSY /\
        k_clock (kern w) (S (S (tick w) + 3 * i))
        < int64_add (k_clock (kern w) (tick w)) usec /\
        fst (k_sleep (kern w) (S (S (S (tick w) + 3 * i)))) = 0) ->
     k_trylock (kern w) (S (tick w) + 3 * n) <> EBUSY ->
     exists w',
       tvh_mutex_timedlock (S n) mutex usec w
       = Ret (k_trylock (kern w) (S (tick w) + 3 * n)) w' /\
       trace w' = trace w
                  ++ Ev_fastmonoclock (k_clock (kern w) (tick w))
                     :: busy_rounds (kern w) (S (tick w)) n
                  ++ [Ev_trylock (k_trylock (kern w) (S (tick w) + 3 * n))]) /\
  (forall N,
     settles (kern w) N (int64_add (k_clock (kern w) (tick w)) usec) ->
     exists v w' evs,
       tvh_mutex_timedlock (S N) mutex usec w = Ret v w' /\
       trace w' = trace w
                  ++ Ev_fastmonoclock (k_clock (kern w) (tick w)) :: evs /\
       timedlock_trace (kern w) (int64_add (k_clock (kern w) (tick w)) usec)
         (S (tick w)) evs v /\
       ((exists pre r, evs = pre ++ [Ev_trylock r] /\ r <> EBUSY /\ v = r) \/
        (exists pre t,
           evs = pre ++ [Ev_trylock EBUSY; Ev_fastmonoclock t] /\
           int64_add (k_clock (kern w) (tick w)) usec <= t /\
           v = ETIMEDOUT))) /\
  (forall fuel v w',
     tvh_mutex_timedlock fuel mutex usec w = Ret v w' ->
     exists r rest,
       trace w' = trace w ++ Ev_fastmonoclock (k_clock (kern w) (tick w))
                  :: Ev_trylock r :: rest) /\
  (forall fuel v w' pre r post,
     tvh_mutex_timedlock fuel mutex usec w = Ret v w' ->
     trace w' = trace w ++ pre ++ Ev_trylock r :: post ->
     r <> EBUSY ->
     v = r /\ post = []) /\
  (forall fuel v w',
     tvh_mutex_timedlock fuel mutex usec w = Ret v w' ->
     (exists pre r, trace w' = trace w ++ pre ++ [Ev_trylock r] /\
                    r <> EBUSY /\ v = r) \/
     (exists pre t, trace w' = trace w ++ pre
                               ++ [Ev_trylock EBUSY; Ev_fastmonoclock t] /\
                    int64_add (k_clock (kern w) (tick w)) usec <= t /\
                    v = ETIMEDOUT)).
Proof.
  split; [|split; [|split; [|split; [|split]]]].
  - intros fuel. apply timedlock_first_attempt.
  - intros n Hbusy Hr. rewrite tvh_mutex_timedlock_eq.
    set (w0 := log (Ev_fastmonoclock (k_clock (kern w) (tick w))) w).
    assert (tick w0 = S (tick w)) as Ht0 by apply tick_log.
    destruct (timedlock_loop_rounds mutex
                (int64_add (k_clock (kern w) (tick w)) usec) n w0)
      as (w' & Hrun & Hq).
    + intros i Hi. change (kern w0) with (kern w). rewrite Ht0.
      apply Hbusy. exact Hi.
    + change (kern w0) with (kern w). rewrite Ht0. exact Hr.
    + change (kern w0) with (kern w) in *. rewrite Ht0 in Hrun, Hq.
      exists w'. split; [exact Hrun|].
      destruct Hq as (_&_&_&_&_&_&Hq). rewrite Hq. subst w0. simpl.
      rewrite <- app_assoc. reflexivity.
  - intros N Hset.
    destruct (timedlock_returns N mutex usec w Hset)
      as (v & w' & evs & Hrun & Hq & Htr).
    exists v, w', evs. split; [exact Hrun|]. split; [apply Hq|].
    split; [exact Htr|]. exact (timedlock_trace_last _ _ _ _ _ Htr).
  - intros fuel v w' Hrun.
    destruct (timedlock_sound _ _ _ _ _ _ Hrun) as (evs & Hq & Htr).
    destruct (timedlock_trace_head _ _ _ _ _ Htr) as (r & rest & ->).
    exists r, rest. apply Hq.
  - intros fuel v w' pre r post Hrun Htrace Hr.
    destruct (timedlock_sound _ _ _ _ _ _ Hrun) as (evs & Hq & Htr).
    destruct Hq as (_&_&_&_&_&_&Hq). rewrite Hq in Htrace.
    apply app_inv_head in Htrace.
    destruct pre as [|x pre]; simpl in Htrace; [discriminate Htrace|].
    injection Htrace as _ Htrace.
    exact (timedlock_trace_pass _ _ _ _ _ Htr pre r post Htrace Hr).
  - intros fuel v w' Hrun.
    destruct (timedlock_sound _ _ _ _ _ _ Hrun) as (evs & Hq & Htr).
    destruct Hq as (_&_&_&_&_&_&Hq). rewrite Hq.
    destruct (timedlock_trace_last _ _ _ _ _ Htr)
      as [(pre & r & -> & Hr & Hv)|(pre & t & -> & Ht & Hv)].
    + left. exists (Ev_fastmonoclock (k_clock (kern w) (tick w)) :: pre), r.
      auto.
    + right. exists (Ev_fastmonoclock (k_clock (kern w) (tick w)) :: pre), t.
      auto.
Qed.

(** ** Deadline-bounded write *)

Lemma write_run fd buf len w :
  0 <= len ->
  exists c w1,
    write fd buf len w = Ret c w1 /\
    kern w1 = kern w /\ fds w1 = fds w /\ tick w1 = S (tick w) /\
    ((c = -1 /\ out w1 = out w) \/
     (0 <= k_write (kern w) (tick w) /\
      c = Z.min (k_write (kern w) (tick w)) len /\
      out w1 fd = out w fd ++ take (Z.to_nat c) buf /\
      (forall d, d <> fd -> out w1 d = out w d))).
Proof.
  intros Hlen. unfold write.
  destruct (fds w !! fd) as [d|].
  - destruct (k_write (kern w) (tick w) <? 0) eqn:Hneg.
    + eexists _, _. split; [reflexivity|]. rewrite tick_log.
      repeat split. left. split; reflexivity.
    + eexists _, _. split; [reflexivity|]. rewrite tick_log.
      repeat split. right. simpl. rewrite Z.eqb_refl.
      repeat split; try lia.
      intros d' Hd. replace (d' =? fd) with false by lia. reflexivity.
  - eexists _, _. split; [reflexivity|]. rewrite tick_log.
    repeat split. left. split; reflexivity.
Qed.

Lemma take_plus {A} (a b : nat) (l : list A) :
  take (a + b) l = take a l ++ take b (drop a l).
Proof.
  revert l. induction a as [|a IH]; intros l; [reflexivity|].
  destruct l as [|x l]; simpl; [by rewrite take_nil|].
  f_equal. apply IH.
Qed.

Lemma tvh_write_loop_sound fuel : forall limit fd buf len w len' w',
  len = Z.of_nat (length buf) ->
  len < 2 ^ 64 ->
  tvh_write_loop fuel limit fd buf len w = Ret len' w' ->
  exists n,
    (n <= length buf)%nat /\
    len' = len - Z.of_nat n /\
    out w' fd = out w fd ++ take n buf /\
    (forall d, d <> fd -> out w' d = out w d) /\
    kern w' = kern w /\ fds w' = fds w.
Proof.
  induction fuel as [|fuel IH]; intros limit fd buf len w len' w' Hlen Hsz Hrun.
  - simpl in Hrun. destruct (len =? 0) eqn:E; [|discriminate Hrun].
    injection Hrun as <- <-. exists 0%nat. rewrite take_0, app_nil_r.
    repeat split; lia.
  - simpl in Hrun. destruct (len =? 0) eqn:E.
    { injection Hrun as <- <-. exists 0%nat. rewrite take_0, app_nil_r.
      repeat split; lia. }
    destruct (write_run fd buf len w ltac:(lia))
      as (c & w1 & Hw & Hk1 & Hf1 & Ht1 & Hcases).
    rewrite (bind_Ret _ _ _ _ _ Hw) in Hrun.
    destruct Hcases as [[-> Hout]|(Hkw & Hc & Hout & Hother)].
    + (* the write failed *)
      simpl in Hrun. unfold mbind at 1, M_bind at 1, bind at 1, gets in Hrun.
      assert (exists n : nat,
                (n <= length buf)%nat /\ len = len - Z.of_nat n /\
                out w1 fd = out w fd ++ take n buf /\
                (forall d, d <> fd -> out w1 d = out w d) /\
                kern w1 = kern w /\ fds w1 = fds w) as Hstop.
      { exists 0%nat. rewrite take_0, app_nil_r, Hout.
        repeat split; try lia; assumption. }
      destruct (ERRNO_AGAIN (errno w1)).
      * unfold mclk in Hrun.
        unfold mbind at 1, M_bind at 1, bind at 1 in Hrun.
        set (t := k_clock (kern w1) (tick w1)) in *.
        set (w2 := log (Ev_mclk t) w1) in *.
        destruct (t >? limit).
        { injection Hrun as <- <-. exact Hstop. }
        apply bind_Ret_inv in Hrun as ([] & w3 & Hsleep & Hrest).
        apply tvh_safe_usleep_sound in Hsleep as (sl & Hq & _); [|lia].
        destruct Hq as (Hk3 & Hf3 & _ & _ & _ & Ho3 & _).
        apply IH in Hrest as (n & Hn & Hl & Ho & Hoth & Hk & Hf);
          [|exact Hlen|exact Hsz].
        exists n. rewrite Ho, Hk, Hf, Ho3, Hk3, Hf3. simpl. rewrite Hout.
        repeat split; try assumption.
        intros d Hd. rewrite (Hoth d Hd), Ho3. simpl. by rewrite Hout.
      * injection Hrun as <- <-. exact Hstop.
    + (* the write took [c] bytes *)
      assert (0 <= c <= len) as Hcr by lia.
      replace (c <? 0) with false in Hrun by lia.
      assert (size_sub len c = len - c) as Hsub
        by (apply wrap_size_id; unfold in_size; lia).
      rewrite Hsub in Hrun.
      apply IH in Hrun as (n & Hn & Hl & Ho & Hoth & Hk & Hf).
      * rewrite length_drop in Hn.
        exists (Z.to_nat c + n)%nat.
        rewrite take_plus, app_assoc, <- Hout, Ho, Hk, Hf.
        repeat split; try assumption; try lia.
        intros d Hd. rewrite (Hoth d Hd). apply Hother, Hd.
      * rewrite length_drop. lia.
      * lia.
Qed.

Lemma tvh_write_loop_terminates N fuel : forall limit fd buf len w,
  len = Z.of_nat (length buf) ->
  len < 2 ^ 64 ->
  settles (kern w) N (limit + 1) ->
  (forall n, k_write (kern w) n <> 0) ->
  (N - tick w + length buf < fuel)%nat ->
  exists len' w', tvh_write_loop fuel limit fd buf len w = Ret len' w'.
Proof.
  induction fuel as [|fuel IH];
    intros limit fd buf len w Hlen Hsz Hset Hprog Hfuel; [lia|].
  simpl. destruct (len =? 0) eqn:E; [eauto|].
  destruct (write_run fd buf len w ltac:(lia))
    as (c & w1 & Hw & Hk1 & Hf1 & Ht1 & Hcases).
  rewrite (bind_Ret _ _ _ _ _ Hw).
  destruct Hcases as [[-> Hout]|(Hkw & Hc & Hout & Hother)].
  - simpl. unfold mbind at 1, M_bind at 1, bind at 1, gets.
    destruct (ERRNO_AGAIN (errno w1)); [|eauto].
    unfold mclk. unfold mbind at 1, M_bind at 1, bind at 1.
    set (t := k_clock (kern w1) (tick w1)).
    set (w2 := log (Ev_mclk t) w1).
    destruct (t >? limit) eqn:Hlate; [eauto|].
    assert (tick w1 < N)%nat as Hearly.
    { destruct (decide (N <= tick w1)%nat) as [Hge|]; [|lia].
      destruct (Hset (tick w1) Hge) as [Hclock _]. subst t.
      rewrite Hk1 in Hlate. lia. }
    assert (tick w2 = S (tick w1)) as Ht2 by apply tick_log.
    assert (kern w2 = kern w) as Hk2 by exact Hk1.
    destruct (tvh_safe_usleep_terminates N (limit + 1) fuel 100 w2)
      as [w3 Hsleep]; [rewrite Hk2; exact Hset|lia|].
    rewrite (bind_Ret _ _ _ _ _ Hsleep).
    destruct (tvh_safe_usleep_sound fuel 100 w2 w3 ltac:(lia) Hsleep)
      as (sl & Hq & _).
    assert (kern w3 = kern w) as Hk3
      by (rewrite (quiet_kern _ _ _ Hq); exact Hk2).
    apply IH; try assumption.
    + rewrite Hk3. exact Hset.
    + rewrite Hk3. exact Hprog.
    + rewrite (quiet_tick _ _ _ Hq). lia.
  - pose proof (Hprog (tick w)) as Hnow.
    assert (1 <= c <= len) as Hcr by lia.
    replace (c <? 0) with false by lia.
    assert (size_sub len c = len - c) as Hsub
      by (apply wrap_size_id; unfold in_size; lia).
    rewrite Hsub. apply IH.
    + rewrite length_drop. lia.
    + lia.
    + rewrite Hk1. exact Hset.
    + rewrite Hk1. exact Hprog.
    + rewrite length_drop. lia.
Qed.

Lemma tvh_write_eq fuel fd buf len w :
  tvh_write fuel fd buf len w
  = ((len' ← tvh_write_loop fuel (write_limit w) fd buf len;
      mret (if len' =? 0 then 0 else 1)) : M Z)
      (log (Ev_mclk (k_clock (kern w) (tick w))) w).
Proof. reflexivity. Qed.

Lemma tvh_write_sound fuel fd buf len w v w' :
  len = Z.of_nat (length buf) ->
  len < 2 ^ 64 ->
  tvh_write fuel fd buf len w = Ret v w' ->
  exists n,
    (n <= length buf)%nat /\
    out w' fd = out w fd ++ take n buf /\
    (forall d, d <> fd -> out w' d = out w d) /\
    (v = 0 <-> n = length buf) /\
    (v = 1 <-> (n < length buf)%nat).
Proof.
  intros Hlen Hsz. rewrite tvh_write_eq. intros Hrun.
  apply bind_Ret_inv in Hrun as (len' & w1 & Hloop & Hret).
  injection Hret as <- <-.
  apply tvh_write_loop_sound in Hloop
    as (n & Hn & Hl & Ho & Hoth & _ & _); [|exact Hlen|exact Hsz].
  exists n. split; [exact Hn|]. split; [exact Ho|]. split; [exact Hoth|].
  destruct (len' =? 0) eqn:E; split; split; intros H; lia.
Qed.

Lemma tvh_write_all fuel fd buf len w :
  len = Z.of_nat (length buf) ->
  len < 2 ^ 64 ->
  is_Some (fds w !! fd) ->
  len <= k_write (kern w) (S (tick w)) ->
  exists w', tvh_write (S fuel) fd buf len w = Ret 0 w'.
Proof.
  intros Hlen Hsz [d Hd] Hroom. rewrite tvh_write_eq.
  set (w0 := log _ w). simpl tvh_write_loop.
  unfold mbind at 1, M_bind at 1, bind at 1.
  destruct (len =? 0) eqn:E.
  { unfold mret, M_ret, ret. rewrite E. eauto. }
  unfold mbind at 1, M_bind at 1, bind at 1. unfold write.
  change (fds w0) with (fds w). rewrite Hd.
  change (kern w0) with (kern w).
  assert (tick w0 = S (tick w)) as Ht0 by apply tick_log. rewrite !Ht0.
  replace (k_write (kern w) (S (tick w)) <? 0) with false by lia.
  rewrite Z.min_r by lia.
  replace (len <? 0) with false by lia.
  replace (size_sub len len) with 0
    by (unfold size_sub; rewrite Z.sub_diag; reflexivity).
  destruct fuel; simpl; eauto.
Qed.

(** Why the progress condition: a write that succeeds with no byte taken
    is retried at once, without a look at the clock, so under a kernel that
    keeps answering 0 the loop is still running whatever the fuel. *)
Lemma tvh_write_loop_zero_writes fuel : forall limit buf len w,
  kern w = kernel_zero_writes ->
  is_Some (fds w !! 1) ->
  0 < len < 2 ^ 64 ->
  tvh_write_loop fuel limit 1 buf len w = Fuel.
Proof.
  induction fuel as [|fuel IH]; intros limit buf len w Hk [d Hd] Hlen; simpl.
  - replace (len =? 0) with false by lia. reflexivity.
  - replace (len =? 0) with false by lia.
    unfold mbind at 1, M_bind at 1, bind at 1, write.
    rewrite Hd, Hk. simpl k_write. rewrite Z.min_l by lia.
    change (0 <? 0) with false. cbv iota beta.
    assert (size_sub len 0 = len) as ->
      by (unfold size_sub; rewrite Z.sub_0_r; apply wrap_size_id;
          unfold in_size; lia).
    apply IH; [exact Hk|exists d; exact Hd|exact Hlen].
Qed.

(** C1, as the code has it: [tvh_write] returns 0 exactly when all [len]
    bytes reached the descriptor and 1 whenever any of them did not, however
    many are left; the bytes that did reach it are a prefix of the buffer.
    It does return when no write is refused with zero bytes taken and the
    clock passes the deadline with sleeps running to their end, and a
    descriptor with room for the whole buffer gets all of it and the result
    is 0. *)
Theorem tvh_write_reports_completion
  (w : world) (fd : Z) (buf : list char) (len : Z)
  (Hlen : len = Z.of_nat (length buf))
  (Hsz : len < 2 ^ 64) :
  (forall fuel v w',
     tvh_write fuel fd buf len w = Ret v w' ->
     exists n,
       (n <= length buf)%nat /\
       out w' fd = out w fd ++ take n buf /\
       (forall d, d <> fd -> out w' d = out w d) /\
       (v = 0 <-> n = length buf) /\
       (v = 1 <-> (n < length buf)%nat)) /\
  (forall N,
     settles (kern w) N (write_limit w + 1) ->
     (forall n, k_write (kern w) n <> 0) ->
     exists v w', tvh_write (S (N + length buf)) fd buf len w = Ret v w') /\
  (forall fuel,
     is_Some (fds w !! fd) ->
     len <= k_write (kern w) (S (tick w)) ->
     exists w', tvh_write (S fuel) fd buf len w = Ret 0 w' /\
                out w' fd = out w fd ++ buf).
Proof.
  split; [|split].
  - intros fuel v w'. apply tvh_write_sound; assumption.
  - intros N Hset Hprog. rewrite tvh_write_eq.
    destruct (tvh_write_loop_terminates N (S (N + length buf)) (write_limit w)
                fd buf len (log (Ev_mclk (k_clock (kern w) (tick w))) w))
      as (len' & w' & Hloop); try assumption.
    + rewrite tick_log. lia.
    + rewrite (bind_Ret _ _ _ _ _ Hloop). eexists _, _. reflexivity.
  - intros fuel Hopen Hroom.
    destruct (tvh_write_all fuel fd buf len w Hlen Hsz Hopen Hroom)
      as [w' Hrun].
    exists w'. split; [exact Hrun|].
    destruct (tvh_write_sound _ _ _ _ _ _ _ Hlen Hsz Hrun)
      as (n & Hn & Ho & _ & Hz & _).
    rewrite Ho. f_equal. rewrite (proj1 Hz eq_refl). apply firstn_all.
Qed.

(** The theorem at five bytes written to the standard output of a process
    whose kernel takes everything. *)
Lemma tvh_write_reports_completion_witness :
  exists w', tvh_write 1 1 hello 5 (world0 kernel_ok) = Ret 0 w' /\
             out w' 1 = hello.
Proof.
  destruct (tvh_write_reports_completion (world0 kernel_ok) 1 hello 5)
    as (_ & _ & Hall).
  - reflexivity.
  - reflexivity.
  - destruct (Hall 0%nat) as (w' & Hrun & Hout).
    + eexists. reflexivity.
    + simpl. unfold hello. simpl. lia.
    + exists w'. split; [exact Hrun|exact Hout].
Defined.

(** C1 as stated fails when a write breaks off: two of five bytes were
    taken, three are left, and the value returned is 1. *)
Lemma tvh_write_returns_one_not_count :
  match tvh_write 2 1 hello 5 (world0 kernel_broken_pipe) with
  | Ret v w' =>
      out w' 1 = list_ascii_of_string "he" /\
      (Z.of_nat (length hello) - Z.of_nat (length (out w' 1)) = 3) /\
      v = 1 /\ v <> 3
  | _ => False
  end.
Proof. vm_compute. repeat split. intros H. discriminate H. Qed.

(** ** Sorting *)

Lemma elements_of_concat size l rest :
  Forall (fun e => length e = size) l ->
  elements_of (length l) size (concat l ++ rest) = l.
Proof.
  induction 1 as [|e l He Hl IH]; [reflexivity|].
  simpl. rewrite <- app_assoc.
  rewrite take_app_length' by (symmetry; exact He).
  rewrite drop_app_length' by (symmetry; exact He).
  by rewrite IH.
Qed.

Lemma elements_of_lengths nmemb size : forall base,
  (nmemb * size <= length base)%nat ->
  length (elements_of nmemb size base) = nmemb /\
  Forall (fun e => length e = size) (elements_of nmemb size base) /\
  concat (elements_of nmemb size base) ++ drop (nmemb * size) base = base.
Proof.
  induction nmemb as [|n IH]; intros base Hb; simpl in *.
  - repeat split. constructor.
  - destruct (IH (drop size base)) as (Hlen & Hall & Hcat).
    { rewrite length_drop. lia. }
    split; [by rewrite Hlen|]. split.
    + constructor; [rewrite length_take; lia|exact Hall].
    + rewrite drop_drop in Hcat. rewrite <- app_assoc, Hcat.
      apply take_drop.
Qed.

Lemma insert_sorted_perm f ctx x l :
  Permutation (insert_sorted f ctx x l) (x :: l).
Proof.
  induction l as [|y l IH]; simpl; [reflexivity|].
  destruct (f x y ctx <=? 0); [reflexivity|].
  rewrite IH. apply perm_swap.
Qed.

Lemma sorted_elements_perm f ctx l : Permutation (sorted_elements f ctx l) l.
Proof.
  induction l as [|x l IH]; simpl; [reflexivity|].
  rewrite insert_sorted_perm. by constructor.
Qed.

Lemma insert_sorted_hd f ctx x l y :
  compar_le f ctx y x ->
  HdRel (compar_le f ctx) y l ->
  HdRel (compar_le f ctx) y (insert_sorted f ctx x l).
Proof.
  intros Hyx Hhd. destruct l as [|z l]; simpl.
  - by constructor.
  - destruct (f x z ctx <=? 0); constructor; [exact Hyx|].
    by inversion Hhd.
Qed.

Lemma insert_sorted_sorted f ctx x l :
  (forall a b, compar_le f ctx a b \/ compar_le f ctx b a) ->
  Sorted (compar_le f ctx) l ->
  Sorted (compar_le f ctx) (insert_sorted f ctx x l).
Proof.
  intros Htot. induction 1 as [|y l Hs IH Hhd]; simpl.
  - repeat constructor.
  - destruct (f x y ctx <=? 0) eqn:E.
    + constructor; [by constructor|]. constructor. unfold compar_le. lia.
    + constructor; [exact IH|].
      apply insert_sorted_hd; [|exact Hhd].
      destruct (Htot x y) as [H|H]; [unfold compar_le in H; lia|exact H].
Qed.

Lemma sorted_elements_sorted f ctx l :
  (forall a b, compar_le f ctx a b \/ compar_le f ctx b a) ->
  Sorted (compar_le f ctx) (sorted_elements f ctx l).
Proof.
  intros Htot. induction l as [|x l IH]; simpl; [constructor|].
  by apply insert_sorted_sorted.
Qed.

Section Comparisons.

(** A comparator [c] handed to [qsort] that, while the thread-local data is
    [d], calls [f] with context [ctx]. *)
Variables (c : list char -> list char -> M Z) (d : qsort_r_data_t)
          (f : compar_t) (ctx : Z).
Hypothesis c_calls : forall a b w,
  qsort_r_data w = d -> c a b w = Ret (f a b ctx) (log (Ev_compar a b ctx) w).

Lemma qsort_insert_run x l : forall w,
  qsort_r_data w = d ->
  exists w' evs,
    qsort_insert c x l w = Ret (insert_sorted f ctx x l) w' /\
    quiet w w' evs /\ Forall (compar_with ctx) evs.
Proof.
  induction l as [|y l IH]; intros w Hd; simpl.
  - exists w, []. split; [reflexivity|]. split; [apply quiet_refl|constructor].
  - rewrite (bind_Ret _ _ _ _ _ (c_calls x y w Hd)).
    destruct (f x y ctx <=? 0).
    + eexists _, [_]. split; [reflexivity|]. split; [apply quiet_log|].
      repeat constructor. by eexists _, _.
    + destruct (IH (log (Ev_compar x y ctx) w) Hd)
        as (w' & evs & Hrun & Hq & Hall).
      rewrite (bind_Ret _ _ _ _ _ Hrun).
      exists w', (Ev_compar x y ctx :: evs). split; [reflexivity|]. split.
      * exact (quiet_trans w _ w' [_] evs (quiet_log w _) Hq).
      * constructor; [by eexists _, _|exact Hall].
Qed.

Lemma qsort_elements_run l : forall w,
  qsort_r_data w = d ->
  exists w' evs,
    qsort_elements c l w = Ret (sorted_elements f ctx l) w' /\
    quiet w w' evs /\ Forall (compar_with ctx) evs.
Proof.
  induction l as [|x l IH]; intros w Hd; simpl.
  - exists w, []. split; [reflexivity|]. split; [apply quiet_refl|constructor].
  - destruct (IH w Hd) as (w1 & e1 & Hrun1 & Hq1 & Hall1).
    rewrite (bind_Ret _ _ _ _ _ Hrun1).
    assert (qsort_r_data w1 = d) as Hd1
      by (destruct Hq1 as (_&_&_&_&->&_); exact Hd).
    destruct (qsort_insert_run x (sorted_elements f ctx l) w1 Hd1)
      as (w2 & e2 & Hrun2 & Hq2 & Hall2).
    exists w2, (e1 ++ e2). split; [exact Hrun2|]. split.
    + exact (quiet_trans _ _ _ _ _ Hq1 Hq2).
    + apply Forall_app. by split.
Qed.

Lemma qsort_run base nmemb size w :
  qsort_r_data w = d ->
  exists w' evs,
    qsort base nmemb size c w
    = Ret (concat (sorted_elements f ctx (elements_of nmemb size base))
           ++ drop (nmemb * size) base) w' /\
    quiet w w' evs /\ Forall (compar_with ctx) evs.
Proof.
  intros Hd. unfold qsort.
  destruct (qsort_elements_run (elements_of nmemb size base) w Hd)
    as (w' & evs & Hrun & Hq & Hall).
  rewrite (bind_Ret _ _ _ _ _ Hrun). exists w', evs.
  split; [reflexivity|]. split; assumption.
Qed.

End Comparisons.

(** The shim stores the comparator and the context, sorts, and returns with
    both still stored. *)
Lemma qsort_r_run base nmemb size cmp0 aux0 w :
  exists w' evs,
    qsort_r base nmemb size cmp0 aux0 w
    = Ret (concat (sorted_elements cmp0 aux0 (elements_of nmemb size base))
           ++ drop (nmemb * size) base) w' /\
    quiet (with_qsort_r_data {| cmp := Some cmp0; aux := aux0 |} w) w' evs /\
    Forall (compar_with aux0) evs.
Proof.
  unfold qsort_r.
  unfold mbind at 1, M_bind at 1, bind at 1, modify at 1.
  unfold mbind at 1, M_bind at 1, bind at 1, modify at 1.
  apply (qsort_run qsort_r_wrap {| cmp := Some cmp0; aux := aux0 |}
           cmp0 aux0); [|reflexivity].
  intros a b w0 Hd. unfold qsort_r_wrap.
  unfold mbind, M_bind, bind, gets. rewrite Hd. reflexivity.
Qed.

Lemma tvh_qsort_r_run b base nmemb size compar arg0 w :
  exists w' evs,
    tvh_qsort_r b base nmemb size compar arg0 w
    = Ret (concat (sorted_elements compar arg0 (elements_of nmemb size base))
           ++ drop (nmemb * size) base) w' /\
    trace w' = trace w ++ evs /\
    Forall (compar_with arg0) evs.
Proof.
  destruct b; simpl.
  - destruct (qsort_run (fun x y => call_compar compar x y arg0)
                (qsort_r_data w) compar arg0 ltac:(reflexivity) base nmemb size
                w eq_refl)
      as (w' & evs & Hrun & Hq & Hall).
    exists w', evs. split; [exact Hrun|]. split; [apply Hq|exact Hall].
  - destruct (qsort_run
                (tvh_qsort_swap {| qd_arg := arg0; qd_compar := compar |})
                (qsort_r_data w) compar arg0 ltac:(reflexivity) base nmemb size
                w eq_refl)
      as (w' & evs & Hrun & Hq & Hall).
    exists w', evs. split; [exact Hrun|]. split; [apply Hq|exact Hall].
  - destruct (qsort_r_run base nmemb size compar arg0 w)
      as (w' & evs & Hrun & Hq & Hall).
    exists w', evs. split; [exact Hrun|]. split; [apply Hq|exact Hall].
Qed.

(** C8: in each of the three builds [tvh_qsort_r] returns, with the [nmemb]
    elements of [size] bytes rearranged and the bytes behind them untouched.
    Every call it makes is a call of the comparator with the caller's
    context pointer.  When the comparator orders any two elements one way
    or the other, the elements end up in its order, each before or with
    its successor, and before or with all that follow when the comparator is
    transitive too. *)
Theorem tvh_qsort_r_sorts
  (b : build) (w : world) (base : list char) (nmemb size : nat)
  (compar : compar_t) (arg0 : Z)
  (Hbounds : (nmemb * size <= length base)%nat)
  (Htotal : forall x y, compar x y arg0 <= 0 \/ compar y x arg0 <= 0) :
  exists base' w' evs,
    tvh_qsort_r b base nmemb size compar arg0 w = Ret base' w' /\
    length base' = length base /\
    drop (nmemb * size) base' = drop (nmemb * size) base /\
    Permutation (elements_of nmemb size base') (elements_of nmemb size base) /\
    Sorted (compar_le compar arg0) (elements_of nmemb size base') /\
    ((forall x y z, compar x y arg0 <= 0 -> compar y z arg0 <= 0 ->
                    compar x z arg0 <= 0) ->
     StronglySorted (compar_le compar arg0) (elements_of nmemb size base')) /\
    trace w' = trace w ++ evs /\
    Forall (compar_with arg0) evs.
Proof.
  destruct (tvh_qsort_r_run b base nmemb size compar arg0 w)
    as (w' & evs & Hrun & Htr & Hall).
  destruct (elements_of_lengths nmemb size base Hbounds)
    as (Hlen & Hsz & Hcat).
  set (els := elements_of nmemb size base) in *.
  set (srt := sorted_elements compar arg0 els) in *.
  assert (Permutation srt els) as Hperm by apply sorted_elements_perm.
  assert (Forall (fun e => length e = size) srt) as Hsz'.
  { eapply Permutation_Forall; [symmetry; exact Hperm|exact Hsz]. }
  assert (length srt = nmemb) as Hlen'
    by (rewrite (Permutation_length Hperm); exact Hlen).
  assert (length (concat srt) = (nmemb * size)%nat) as Hcl.
  { rewrite <- Hlen'. clear -Hsz'. induction Hsz' as [|e l He Hl IH];
      [reflexivity|]. simpl. rewrite length_app, IH, He. reflexivity. }
  assert (elements_of nmemb size (concat srt ++ drop (nmemb * size) base)
          = srt) as Hels.
  { rewrite <- Hlen' at 1. apply elements_of_concat. exact Hsz'. }
  exists (concat srt ++ drop (nmemb * size) base), w', evs.
  split; [exact Hrun|]. split.
  { rewrite length_app, Hcl, length_drop. lia. }
  split.
  { rewrite drop_app_length' by (symmetry; exact Hcl). reflexivity. }
  rewrite Hels.
  assert (Sorted (compar_le compar arg0) srt) as Hsorted
    by (apply sorted_elements_sorted; exact Htotal).
  split; [exact Hperm|]. split; [exact Hsorted|].
  split; [|split; assumption].
  intros Htrans. apply Sorted_StronglySorted; [|exact Hsorted].
  intros x y z. apply Htrans.
Qed.

(** The theorem at five one-byte elements sorted by their byte in the build
    with the shim. *)
Lemma tvh_qsort_r_sorts_witness :
  exists base' w' evs,
    tvh_qsort_r Shim digits 5 1 compar_first_byte 4096 (world0 kernel_ok)
    = Ret base' w' /\
    length base' = length digits /\
    drop (5 * 1) base' = drop (5 * 1) digits /\
    Permutation (elements_of 5 1 base') (elements_of 5 1 digits) /\
    Sorted (compar_le compar_first_byte 4096) (elements_of 5 1 base') /\
    ((forall x y z, compar_first_byte x y 4096 <= 0 ->
                    compar_first_byte y z 4096 <= 0 ->
                    compar_first_byte x z 4096 <= 0) ->
     StronglySorted (compar_le compar_first_byte 4096)
       (elements_of 5 1 base')) /\
    trace w' = trace (world0 kernel_ok) ++ evs /\
    Forall (compar_with 4096) evs.
Proof.
  apply (tvh_qsort_r_sorts Shim (world0 kernel_ok) digits 5 1
           compar_first_byte 4096).
  - simpl. lia.
  - intros x y. unfold compar_first_byte. lia.
Defined.

Example tvh_qsort_r_digits (b : build) :
  match tvh_qsort_r b digits 5 1 compar_first_byte 4096 (world0 kernel_ok) with
  | Ret base' w' =>
      base' = list_ascii_of_string "12345" /\
      compar_contexts (trace w') = repeat 4096 (length (trace w'))
  | _ => False
  end.
Proof. destruct b; vm_compute; split; reflexivity. Qed.

(** C2, as the code has it: the shim stores the comparator and the context
    in the thread-local data before the sort starts, every comparison of the
    sort is a call of that comparator with that context, and when the call
    returns the thread-local data still holds both; nothing else of the
    thread's state changes but the trace. *)
Theorem qsort_r_leaves_data_set
  (w : world) (base : list char) (nmemb size : nat)
  (cmp0 : compar_t) (aux0 : Z) :
  exists base' w' evs,
    qsort_r base nmemb size cmp0 aux0 w = Ret base' w' /\
    base' = concat (sorted_elements cmp0 aux0 (elements_of nmemb size base))
            ++ drop (nmemb * size) base /\
    quiet (with_qsort_r_data {| cmp := Some cmp0; aux := aux0 |} w) w' evs /\
    Forall (compar_with aux0) evs /\
    cmp (qsort_r_data w') = Some cmp0 /\ aux (qsort_r_data w') = aux0.
Proof.
  destruct (qsort_r_run base nmemb size cmp0 aux0 w)
    as (w' & evs & Hrun & Hq & Hall).
  eexists _, w', evs. split; [exact Hrun|]. split; [reflexivity|].
  split; [exact Hq|]. split; [exact Hall|].
  destruct Hq as (_&_&_&_&->&_). split; reflexivity.
Qed.

(** C2 as stated fails: a thread whose thread-local data was empty finds
    the comparator and the context of the call still stored after the call
    returned; they were neither cleared nor put back. *)
Lemma qsort_r_data_not_cleared :
  cmp (qsort_r_data (world0 kernel_ok)) = None /\
  aux (qsort_r_data (world0 kernel_ok)) = 0 /\
  match qsort_r digits 5 1 compar_first_byte 4096 (world0 kernel_ok) with
  | Ret _ w' =>
      cmp (qsort_r_data w') = Some compar_first_byte /\
      cmp (qsort_r_data w') <> None /\
      aux (qsort_r_data w') = 4096 /\
      qsort_r_data w' <> qsort_r_data (world0 kernel_ok)
  | _ => False
  end.
Proof.
  split; [reflexivity|]. split; [reflexivity|].
  destruct (qsort_r_run digits 5 1 compar_first_byte 4096 (world0 kernel_ok))
    as (w' & evs & Hrun & Hq & _).
  rewrite Hrun. destruct Hq as (_&_&_&_&Htls&_). rewrite Htls. simpl.
  split; [reflexivity|]. split; [discriminate|]. split; [reflexivity|].
  intros H. discriminate H.
Qed.

(** ** Sample runs *)

Example tvh_open_sample :
  match tvh_open "/dev/null" 0 0 (world0 kernel_ok) with
  | Ret fd w' =>
      fd = 3 /\
      fds w' !! 3 = Some {| fd_flags := FD_CLOEXEC; fl_flags := 0 |} /\
      fork_lock w' = false
  | _ => False
  end.
Proof. vm_compute. repeat split. Qed.

Example tvh_open_no_descriptors :
  match tvh_open "/dev/null" 0 0 (world0 kernel_no_descriptors) with
  | Ret fd w' => fd = -1 /\ errno w' = EMFILE /\ fds w' = std_fds /\
                 fork_lock w' = false
  | _ => False
  end.
Proof. vm_compute. repeat split. Qed.

Example tvh_pipe_sample :
  match tvh_pipe O_NONBLOCK {| rd := -1; wr := -1 |} (world0 kernel_ok) with
  | Ret (err, p) w' =>
      err = 0 /\ p = {| rd := 3; wr := 4 |} /\
      fds w' !! 3 = Some {| fd_flags := FD_CLOEXEC; fl_flags := O_NONBLOCK |} /\
      fds w' !! 4 = Some {| fd_flags := FD_CLOEXEC;
                            fl_flags := Z.lor O_WRONLY O_NONBLOCK |}
  | _ => False
  end.
Proof. vm_compute. repeat split. Qed.

(** [O_CLOEXEC] among the flags of [tvh_pipe] changes nothing: it is not a
    status flag, and close-on-exec is set in any case. *)
Example tvh_pipe_cloexec_flag :
  match tvh_pipe O_CLOEXEC {| rd := -1; wr := -1 |} (world0 kernel_ok) with
  | Ret (err, p) w' =>
      err = 0 /\ p = {| rd := 3; wr := 4 |} /\
      fds w' !! 3 = Some {| fd_flags := FD_CLOEXEC; fl_flags := O_RDONLY |} /\
      fds w' !! 4 = Some {| fd_flags := FD_CLOEXEC; fl_flags := O_WRONLY |}
  | _ => False
  end.
Proof. vm_compute. repeat split. Qed.

Example timedlock_busy_twice :
  match tvh_mutex_timedlock 3 0 1000000 (world0 kernel_busy_twice) with
  | Ret v w' =>
      v = 0 /\
      trace w' =
      [Ev_fastmonoclock 0;
       Ev_trylock EBUSY; Ev_fastmonoclock 8000;
       Ev_nanosleep 0 {| tv_sec := 0; tv_nsec := 10000000 |} 0;
       Ev_trylock EBUSY; Ev_fastmonoclock 20000;
       Ev_nanosleep 0 {| tv_sec := 0; tv_nsec := 10000000 |} 0;
       Ev_trylock 0]
  | _ => False
  end.
Proof. vm_compute. split; reflexivity. Qed.

Example timedlock_busy_then_invalid :
  match tvh_mutex_timedlock 3 0 1000000 (world0 kernel_busy_then_invalid) with
  | Ret v w' =>
      v = EINVAL /\
      trace w' =
      [Ev_fastmonoclock 0;
       Ev_trylock EBUSY; Ev_fastmonoclock 8000;
       Ev_nanosleep 0 {| tv_sec := 0; tv_nsec := 10000000 |} 0;
       Ev_trylock EBUSY; Ev_fastmonoclock 20000;
       Ev_nanosleep 0 {| tv_sec := 0; tv_nsec := 10000000 |} 0;
       Ev_trylock EINVAL]
  | _ => False
  end.
Proof. vm_compute. split; reflexivity. Qed.

Example timedlock_times_out :
  match tvh_mutex_timedlock 3 0 15000 (world0 kernel_busy) with
  | Ret v w' =>
      v = ETIMEDOUT /\
      trace w' =
      [Ev_fastmonoclock 0;
       Ev_trylock EBUSY; Ev_fastmonoclock 8000;
       Ev_nanosleep 0 {| tv_sec := 0; tv_nsec := 10000000 |} EINTR;
       Ev_nanosleep 0 {| tv_sec := 0; tv_nsec := 3000000 |} 0;
       Ev_trylock EBUSY; Ev_fastmonoclock 24000]
  | _ => False
  end.
Proof. vm_compute. split; reflexivity. Qed.

Example timedlock_negative_timeout_error :
  match tvh_mutex_timedlock 1 0 (-5) (world0 kernel_bad_mutex) with
  | Ret v w' => v = EINVAL /\ trace w' = [Ev_fastmonoclock 0; Ev_trylock EINVAL]
  | _ => False
  end.
Proof. vm_compute. split; reflexivity. Qed.

Example timedlock_out_of_fuel :
  tvh_mutex_timedlock 1 0 15000 (world0 kernel_busy) = Fuel.
Proof. reflexivity. Qed.

Example tvh_write_never_ready :
  match tvh_write 3 1 hello 5 (world0 kernel_never_ready) with
  | Ret v w' =>
      v = 1 /\ out w' 1 = [] /\
      trace w' =
      [Ev_mclk 0;
       Ev_write 1 5 (-1); Ev_mclk 20000000;
       Ev_nanosleep 0 {| tv_sec := 0; tv_nsec := 100000 |} 0;
       Ev_write 1 5 (-1); Ev_mclk 50000000]
  | _ => False
  end.
Proof. vm_compute. repeat split. Qed.

Example tvh_cond_init_sample :
  tvh_cond_init {| cond := None |} (world0 kernel_ok)
  = Ret (0, {| cond := Some CLOCK_MONOTONIC |})
      (log (Ev_cond_init 0)
         (log (Ev_condattr_setclock CLOCK_MONOTONIC 0) (world0 kernel_ok))).
Proof. reflexivity. Qed.

Example tvh_cond_init_no_monotonic_clock :
  match tvh_cond_init {| cond := None |} (world0 kernel_no_descriptors) with
  | Abort w' =>
      trace w' =
      [Ev_condattr_setclock CLOCK_MONOTONIC EINVAL;
       Ev_stderr "Unable to set monotonic clocks for conditions! (%d)" EINVAL]
  | _ => False
  end.
Proof. reflexivity. Qed.

(* ===================================================================== *)
(** * Part III: further properties of the wrappers                        *)
(* ===================================================================== *)

(** ** What the guarded calls change *)

Lemma guarded_create_exact fdf flf (ev : Z -> event) w :
  let guarded :=
    (lock_fork_lock ;;
     fd ← (fd ← create_fd fdf flf; emit (ev fd) ;; mret fd);
     when (negb (fd =? -1))
       (v ← fcntl_getfd fd; fcntl_setfd fd (Z.lor v FD_CLOEXEC)) ;;
     unlock_fork_lock ;;
     mret fd) : M Z in
  exists fd w',
    guarded w = Ret fd w' /\
    out w' = out w /\ qsort_r_data w' = qsort_r_data w /\
    (fd <> -1 ->
     fds w !! fd = None /\
     fds w' = <[fd := {| fd_flags := FD_CLOEXEC; fl_flags := flf |}]> (fds w) /\
     errno w' = errno w) /\
    (fd = -1 -> fds w' = fds w) /\
    (fd = -1 <-> k_create (kern w) (tick (locked w)) <> 0).
Proof.
  intros guarded. subst guarded.
  unfold lock_fork_lock, unlock_fork_lock, locked, create_fd. unfold_proc.
  destruct (k_create (kern w) _ =? 0) eqn:E; unfold_proc.
  - rewrite lowest_free_not_minus_one. unfold_proc.
    unfold fcntl_getfd, fcntl_setfd. unfold_proc.
    rewrite lookup_insert_eq. unfold_proc. rewrite lookup_insert_eq.
    unfold_proc.
    pose proof (lowest_free_nonneg (fds w)) as Hnn.
    eexists _, _. split; [reflexivity|]. simpl.
    split; [reflexivity|]. split; [reflexivity|].
    split; [|split; [lia|split; [lia|intros H; lia]]].
    intros _. split; [apply lowest_free_fresh|]. split; [|reflexivity].
    rewrite insert_insert_eq, cloexec_bit. reflexivity.
  - eexists _, _. split; [reflexivity|]. simpl.
    split; [reflexivity|]. split; [reflexivity|].
    split; [intros H; congruence|]. split; [reflexivity|].
    split; [lia|reflexivity].
Qed.

(** X1: a guarded [open] or [socket] fails exactly when the kernel refuses
    the descriptor.  One that succeeds adds exactly one descriptor to the
    table, a number that was free, with close-on-exec as its only descriptor
    flag; every descriptor that was open is left as it was and [errno] is
    not touched.  One that fails leaves the table as it was.  Neither
    touches what descriptors have received. *)
Theorem guarded_create_adds_one
  (w : world) (pathname : string) (flags mode domain type protocol : Z) :
  (exists fd w',
     tvh_open pathname flags mode w = Ret fd w' /\
     out w' = out w /\
     (fd <> -1 ->
      fds w !! fd = None /\
      fds w' = <[fd := {| fd_flags := FD_CLOEXEC; fl_flags := flags |}]> (fds w)
      /\ errno w' = errno w) /\
     (fd = -1 -> fds w' = fds w) /\
     (fd = -1 <-> k_create (kern w) (tick (locked w)) <> 0)) /\
  (exists fd w',
     tvh_socket domain type protocol w = Ret fd w' /\
     out w' = out w /\
     (fd <> -1 ->
      fds w !! fd = None /\
      fds w' = <[fd := {| fd_flags := FD_CLOEXEC; fl_flags := 0 |}]> (fds w)
      /\ errno w' = errno w) /\
     (fd = -1 -> fds w' = fds w) /\
     (fd = -1 <-> k_create (kern w) (tick (locked w)) <> 0)).
Proof.
  split.
  - destruct (guarded_create_exact (cloexec_of flags O_CLOEXEC) flags
                (Ev_open flags) w)
      as (fd & w' & Hrun & Ho & _ & Hok & Hfail & Hiff).
    exists fd, w'. repeat split; try assumption; try apply Hok;
      try apply Hiff; assumption.
  - destruct (guarded_create_exact (cloexec_of type SOCK_CLOEXEC) 0
                (Ev_socket type) w)
      as (fd & w' & Hrun & Ho & _ & Hok & Hfail & Hiff).
    exists fd, w'. repeat split; try assumption; try apply Hok;
      try apply Hiff; assumption.
Qed.

(** X2: [tvh_fopen] returns the stream [fopen] returned.  When that is a
    stream, its descriptor is new, carries close-on-exec, and is the only
    change to the descriptor table; when it is the null pointer nothing was
    opened and [errno] is the one [fopen] left.  The fork lock is released
    either way. *)
Theorem tvh_fopen_cloexec (w : world) (filename mode : string) :
  exists f w',
    tvh_fopen filename mode w = Ret f w' /\
    fork_lock w' = false /\
    (forall s, f = Some s ->
       k_create (kern w) (tick (locked w)) = 0 /\
       fds w !! s = None /\
       fds w' = <[fileno s := {| fd_flags := FD_CLOEXEC; fl_flags := 0 |}]>
                  (fds w) /\
       cloexec_set w' (fileno s)) /\
    (f = None ->
       fds w' = fds w /\
       errno w' = k_create (kern w) (tick (locked w)) /\
       errno w' <> 0).
Proof.
  unfold tvh_fopen, fopen, lock_fork_lock, unlock_fork_lock, locked, create_fd.
  unfold_proc.
  destruct (k_create (kern w) _ =? 0) eqn:E; unfold_proc.
  - rewrite lowest_free_not_minus_one. unfold_proc.
    unfold fcntl_getfd, fcntl_setfd, fileno. unfold_proc.
    rewrite lookup_insert_eq. unfold_proc. rewrite lookup_insert_eq.
    unfold_proc.
    eexists _, _. split; [reflexivity|]. split; [reflexivity|].
    split; [|intros H; discriminate H].
    intros s Hs. injection Hs as <-.
    split; [lia|]. split; [apply lowest_free_fresh|]. simpl.
    rewrite insert_insert_eq. split; [reflexivity|].
    eexists. simpl. rewrite lookup_insert_eq. split; reflexivity.
  - eexists _, _. split; [reflexivity|]. split; [reflexivity|].
    split; [intros s H; discriminate H|].
    intros _. simpl. repeat split. lia.
Qed.

(** ** Pipes, opened and closed *)

Lemma setfl_flags_settable old v :
  Z.land (setfl_flags old v) SETFL_MASK = Z.land v SETFL_MASK.
Proof.
  unfold setfl_flags. apply Z.bits_inj'. intros n Hn.
  rewrite !Z.land_spec, Z.lor_spec, !Z.land_spec, Z.lnot_spec by exact Hn.
  destruct (Z.testbit SETFL_MASK n), (Z.testbit old n), (Z.testbit v n);
    reflexivity.
Qed.

Lemma setfl_flags_other old v :
  Z.land (setfl_flags old v) (Z.lnot SETFL_MASK)
  = Z.land old (Z.lnot SETFL_MASK).
Proof.
  unfold setfl_flags. apply Z.bits_inj'. intros n Hn.
  rewrite !Z.land_spec, Z.lor_spec, !Z.land_spec, Z.lnot_spec by exact Hn.
  destruct (Z.testbit SETFL_MASK n), (Z.testbit old n), (Z.testbit v n);
    reflexivity.
Qed.

Lemma setfl_flags_lor old v :
  Z.land old SETFL_MASK = 0 ->
  Z.land (setfl_flags old (Z.lor old v)) SETFL_MASK = Z.land v SETFL_MASK.
Proof.
  intros H0. rewrite setfl_flags_settable, Z.land_lor_distr_l, H0.
  apply Z.lor_0_l.
Qed.

Lemma tvh_pipe_exact flags p w :
  exists err p' w',
    tvh_pipe flags p w = Ret (err, p') w' /\
    out w' = out w /\
    (err <> -1 ->
       err = 0 /\
       fds w !! rd p' = None /\ fds w !! wr p' = None /\ rd p' <> wr p' /\
       0 <= rd p' /\ 0 <= wr p' /\
       fds w' =
         <[wr p' := {| fd_flags := FD_CLOEXEC;
                       fl_flags :=
                         setfl_flags O_WRONLY (Z.lor O_WRONLY flags) |}]>
           (<[rd p' := {| fd_flags := FD_CLOEXEC;
                          fl_flags :=
                            setfl_flags O_RDONLY (Z.lor O_RDONLY flags) |}]>
              (fds w)) /\
       errno w' = errno w) /\
    (err = -1 -> p' = p /\ fds w' = fds w) /\
    (err = -1 <-> k_create (kern w) (tick (locked w)) <> 0).
Proof.
  unfold tvh_pipe, lock_fork_lock, unlock_fork_lock, locked, pipe.
  unfold_proc.
  destruct (k_create (kern w) _ =? 0) eqn:E; unfold_proc.
  - set (fd0 := lowest_free (fds w)).
    set (tab0 := <[fd0 := {| fd_flags := 0; fl_flags := O_RDONLY |}]> (fds w)).
    set (fd1 := lowest_free tab0).
    assert (tab0 !! fd1 = None) as Hf1 by apply lowest_free_fresh.
    assert (fds w !! fd0 = None) as Hf0 by apply lowest_free_fresh.
    assert (fd1 <> fd0) as Hne.
    { intros Heq. rewrite Heq in Hf1. unfold tab0 in Hf1.
      by rewrite lookup_insert_eq in Hf1. }
    assert (fds w !! fd1 = None) as Hf1'.
    { unfold tab0 in Hf1. by rewrite lookup_insert_ne in Hf1. }
    pose proof (lowest_free_nonneg (fds w)) as Hnn0. fold fd0 in Hnn0.
    pose proof (lowest_free_nonneg tab0) as Hnn1. fold fd1 in Hnn1.
    unfold fcntl_getfd, fcntl_setfd, fcntl_getfl, fcntl_setfl. unfold_proc.
    clearbody fd1. subst tab0. clearbody fd0.
    repeat (first [ rewrite lookup_insert_eq
                  | rewrite lookup_insert_ne by congruence ];
            unfold_proc).
    eexists _, _, _. split; [reflexivity|]. simpl.
    split; [reflexivity|].
    split; [|split; [intros H; discriminate H|split; [intros H; lia|lia]]].
    intros _. repeat split; try assumption; try congruence.
    apply map_eq. intros k.
    repeat rewrite lookup_insert.
    repeat case_decide; try congruence; try reflexivity.
    all: rewrite cloexec_bit; reflexivity.
  - eexists _, _, _. split; [reflexivity|]. simpl. split; [reflexivity|].
    split; [intros H; congruence|].
    split; [intros _; split; reflexivity|]. split; [lia|reflexivity].
Qed.

(** X3: [tvh_pipe] returns 0 unless the kernel refuses the pipe.  When it
    returns 0 the handle holds two distinct new descriptors, each with
    close-on-exec as its descriptor flag.  Of the caller's [flags], the bits
    [F_SETFL] can change ([O_APPEND], [O_ASYNC], [O_DIRECT], [O_NOATIME],
    [O_NONBLOCK]) are the ones set in the status flags of both ends, and no
    other of these; outside these bits the status flags are those of a new
    pipe, read-only for the read end and write-only for the write end, so
    any other bit of [flags], [O_CLOEXEC] among them, changes nothing.
    Every descriptor that was open is left as it was, no other descriptor
    is opened, and [errno] is not touched. *)
Theorem tvh_pipe_applies_flags (w : world) (flags : Z) (p : th_pipe_t) :
  exists err p' w',
    tvh_pipe flags p w = Ret (err, p') w' /\
    (err = 0 \/ err = -1) /\
    (err = 0 <-> k_create (kern w) (tick (locked w)) = 0) /\
    (err = 0 ->
       rd p' <> wr p' /\
       fds w !! rd p' = None /\ fds w !! wr p' = None /\
       (exists d, fds w' !! rd p' = Some d /\
                  fd_flags d = FD_CLOEXEC /\
                  Z.land (fl_flags d) SETFL_MASK = Z.land flags SETFL_MASK /\
                  Z.land (fl_flags d) (Z.lnot SETFL_MASK) = O_RDONLY) /\
       (exists d, fds w' !! wr p' = Some d /\
                  fd_flags d = FD_CLOEXEC /\
                  Z.land (fl_flags d) SETFL_MASK = Z.land flags SETFL_MASK /\
                  Z.land (fl_flags d) (Z.lnot SETFL_MASK) = O_WRONLY) /\
       (forall k d, fds w !! k = Some d -> fds w' !! k = Some d) /\
       (forall k, is_Some (fds w' !! k) ->
                  k = rd p' \/ k = wr p' \/ is_Some (fds w !! k)) /\
       errno w' = errno w).
Proof.
  destruct (tvh_pipe_exact flags p w)
    as (err & p' & w' & Hrun & _ & Hok & _ & Hiff).
  exists err, p', w'. split; [exact Hrun|].
  destruct (decide (err = -1)) as [He|He].
  { split; [by right|].
    split; [split; intros H; [lia|apply Hiff in He; contradiction]|lia]. }
  destruct (Hok He) as (H0 & Hr & Hw & Hne & _ & _ & Hfds & Herr).
  split; [by left|].
  split.
  { split; [|intros _; exact H0]. intros _.
    destruct (decide (k_create (kern w) (tick (locked w)) = 0)) as [Hk|Hk];
      [exact Hk|]. apply Hiff in Hk. contradiction. }
  intros _. rewrite Hfds.
  split; [exact Hne|]. split; [exact Hr|]. split; [exact Hw|].
  split.
  { eexists. rewrite lookup_insert_ne by congruence. rewrite lookup_insert_eq.
    split; [reflexivity|]. split; [reflexivity|]. cbn [fl_flags].
    split; [apply setfl_flags_lor; reflexivity|].
    rewrite setfl_flags_other. reflexivity. }
  split.
  { eexists. rewrite lookup_insert_eq.
    split; [reflexivity|]. split; [reflexivity|]. cbn [fl_flags].
    split; [apply setfl_flags_lor; reflexivity|].
    rewrite setfl_flags_other. reflexivity. }
  split.
  { intros k d Hk. rewrite !lookup_insert_ne by congruence. exact Hk. }
  split; [|exact Herr].
  intros k Hk. rewrite !lookup_insert in Hk.
  repeat case_decide; auto.
Qed.

(** X4: [tvh_pipe] returns 0 exactly when the kernel grants the pipe, and
    opening a pipe and closing the handle it filled brings the descriptor
    table back to what it was before, and leaves both ends of the handle at
    -1. *)
Theorem tvh_pipe_then_close (w : world) (flags : Z) (p : th_pipe_t) :
  exists err p1 w1 p2 w2,
    tvh_pipe flags p w = Ret (err, p1) w1 /\
    tvh_pipe_close p1 w1 = Ret p2 w2 /\
    p2 = {| rd := -1; wr := -1 |} /\
    (err = 0 -> fds w1 <> fds w /\ fds w2 = fds w) /\
    (err = 0 <-> k_create (kern w) (tick (locked w)) = 0).
Proof.
  destruct (tvh_pipe_exact flags p w)
    as (err & p1 & w1 & Hrun & _ & Hok & _ & Hiff).
  destruct (tvh_pipe_close_run p1 w1) as (w2 & Hclose & Hfds2).
  exists err, p1, w1, {| rd := -1; wr := -1 |}, w2.
  split; [exact Hrun|]. split; [exact Hclose|].
  split; [reflexivity|]. split.
  - intros He.
    destruct (Hok ltac:(lia)) as (_ & Hr & Hw & Hne & _ & _ & Hfds & _).
    split.
    + intros Heq. rewrite Hfds in Heq.
      assert (is_Some (fds w !! wr p1)) as [d Hd]
        by (rewrite <- Heq, lookup_insert_eq; eauto).
      congruence.
    + rewrite Hfds2, Hfds. apply map_eq. intros k.
      rewrite !lookup_delete, !lookup_insert.
      repeat case_decide; subst; try congruence; reflexivity.
  - destruct (decide (err = -1)) as [He|He].
    + split; intros H; [lia|apply Hiff in He; contradiction].
    + destruct (Hok He) as (H0 & _). split; [|intros _; exact H0]. intros _.
      destruct (decide (k_create (kern w) (tick (locked w)) = 0)) as [Hk|Hk];
        [exact Hk|]. apply Hiff in Hk. contradiction.
Qed.

(** X5: closing a handle that is already closed closes nothing: with no
    descriptor numbered -1, the second [tvh_pipe_close] leaves the
    descriptor table as the first one left it, the handle stays at -1, and
    [errno] reports the bad descriptor. *)
Theorem tvh_pipe_close_twice (w : world) (p : th_pipe_t)
  (Hneg : fds w !! (-1) = None) :
  exists p1 w1 p2 w2,
    tvh_pipe_close p w = Ret p1 w1 /\
    tvh_pipe_close p1 w1 = Ret p2 w2 /\
    p2 = p1 /\ p1 = {| rd := -1; wr := -1 |} /\
    fds w2 = fds w1 /\ errno w2 = EBADF.
Proof.
  destruct (tvh_pipe_close_run p w) as (w1 & Hc1 & Hfds1).
  assert (fds w1 !! (-1) = None) as Hneg1.
  { rewrite Hfds1, !lookup_delete. repeat case_decide; auto. }
  eexists _, w1, _, _. split; [exact Hc1|].
  unfold tvh_pipe_close, close. unfold_proc. rewrite Hneg1. unfold_proc.
  rewrite Hneg1. unfold_proc.
  split; [reflexivity|]. repeat split.
Qed.

Lemma tvh_pipe_close_twice_witness :
  exists p1 w1 p2 w2,
    tvh_pipe_close {| rd := 0; wr := 1 |} (world0 kernel_ok) = Ret p1 w1 /\
    tvh_pipe_close p1 w1 = Ret p2 w2 /\
    p2 = p1 /\ p1 = {| rd := -1; wr := -1 |} /\
    fds w2 = fds w1 /\ errno w2 = EBADF.
Proof.
  apply (tvh_pipe_close_twice (world0 kernel_ok) {| rd := 0; wr := 1 |}).
  reflexivity.
Defined.

(** ** Sleeping *)

(** X6: the sleep both single sleeps ask the kernel for is the time they
    were given: for a positive target the request is a well-formed
    [timespec] (seconds not negative, nanoseconds below one second) that
    amounts to exactly [us] microseconds, and converting it back as the
    functions do on return gives [us] again. *)
Theorem usleep_request_exact (w : world) (us : Z)
  (Hpos : 0 < us) (Hus : in_int64 us) :
  exists v v' r,
    tvh_usleep us w
    = Ret v (log (Ev_nanosleep 0 (usleep_request us) r) w) /\
    tvh_usleep_abs us w
    = Ret v' (log (Ev_nanosleep TIMER_ABSTIME (usleep_request us) r) w) /\
    0 <= tv_sec (usleep_request us) /\
    0 <= tv_nsec (usleep_request us) < 1000000000 /\
    tv_sec (usleep_request us) * 1000000000 + tv_nsec (usleep_request us)
    = us * 1000 /\
    usleep_value (usleep_request us) = us.
Proof.
  rewrite (tvh_usleep_eq us w Hpos), (tvh_usleep_abs_eq us w Hpos).
  destruct (k_sleep (kern w) (tick w)) as [r rem].
  eexists _, _, r. split; [reflexivity|]. split; [reflexivity|].
  destruct (usleep_request_fields us Hpos Hus) as [-> ->].
  split; [apply Z.div_pos; lia|].
  split; [Z.div_mod_to_equations; lia|].
  split; [Z.div_mod_to_equations; lia|].
  apply usleep_value_request; assumption.
Qed.

Lemma usleep_request_exact_witness :
  usleep_value (usleep_request 2500000) = 2500000.
Proof.
  destruct (usleep_request_exact (world0 kernel_ok) 2500000)
    as (v & v' & r & _ & _ & _ & _ & _ & H).
  - lia.
  - unfold in_int64. simpl. lia.
  - exact H.
Defined.

Lemma neg_or_zero_sign r :
  0 <= r < 2 ^ 31 ->
  neg_or_zero r = - r /\
  (ERRNO_AGAIN r = false -> ERRNO_AGAIN (int64_neg (neg_or_zero r)) = false).
Proof.
  intros Hr. unfold neg_or_zero.
  destruct (r =? 0) eqn:E.
  - apply Z.eqb_eq in E. subst r. split; reflexivity.
  - rewrite wrap32_id by (pow_consts; lia). split; [reflexivity|].
    unfold int64_neg. rewrite Z.opp_involutive.
    rewrite wrap64_id by (unfold in_int64; pow_consts; lia). auto.
Qed.

(** X7: a sleep that is not interrupted is not repeated.  When the first
    [clock_nanosleep] of [tvh_safe_usleep] completes, or fails with an error
    outside the retry class, the function returns after that one call: a
    failure is neither retried nor reported, and nothing but the trace
    changes. *)
Theorem tvh_safe_usleep_single_call
  (w : world) (fuel : nat) (us r : Z) (rem : timespec)
  (Hpos : 0 < us)
  (Hk : k_sleep (kern w) (tick w) = (r, rem))
  (Hr : 0 <= r < 2 ^ 31)
  (Hclass : ERRNO_AGAIN r = false) :
  tvh_safe_usleep (S fuel) us w
  = Ret tt (log (Ev_nanosleep 0 (usleep_request us) r) w).
Proof.
  assert (tvh_usleep us w
          = Ret (neg_or_zero r) (log (Ev_nanosleep 0 (usleep_request us) r) w))
    as Hs by (rewrite (tvh_usleep_eq us w Hpos), Hk, Hclass; reflexivity).
  unfold tvh_safe_usleep. replace (us <=? 0) with false by lia.
  simpl. rewrite (bind_Ret _ _ _ _ _ Hs).
  destruct (neg_or_zero_sign r Hr) as [Hv Hcls]. rewrite Hv.
  destruct (- r <? 0) eqn:Hneg.
  - rewrite <- Hv. rewrite (Hcls Hclass). reflexivity.
  - replace (- r >? 0) with false by lia. reflexivity.
Qed.

Lemma tvh_safe_usleep_single_call_witness :
  tvh_safe_usleep 1 100 (world0 kernel_ok)
  = Ret tt (log (Ev_nanosleep 0 (usleep_request 100) 0) (world0 kernel_ok)).
Proof.
  apply (tvh_safe_usleep_single_call (world0 kernel_ok) 0 100 0
           {| tv_sec := 0; tv_nsec := 0 |}).
  - lia.
  - reflexivity.
  - simpl. lia.
  - reflexivity.
Defined.

(** X8: an interrupted sleep is taken up again for the time that is left.
    When the first [clock_nanosleep] of [tvh_safe_usleep(us)] is interrupted,
    what follows is a [tvh_safe_usleep] of the time the kernel reported as
    left, rounded to the nearest microsecond; when less than 500 nanoseconds
    are left that is a sleep of 0, which returns at once. *)
Theorem tvh_safe_usleep_resumes
  (w : world) (fuel : nat) (us : Z) (rem : timespec)
  (Hpos : 0 < us)
  (Hk : k_sleep (kern w) (tick w) = (EINTR, rem))
  (Hrem : timespec_ok rem) :
  tvh_safe_usleep (S fuel) us w
  = tvh_safe_usleep fuel
      (tv_sec rem * 1000000 + (tv_nsec rem + 500) / 1000)
      (log (Ev_nanosleep 0 (usleep_request us) EINTR) w).
Proof.
  assert (tvh_usleep us w
          = Ret (usleep_value rem)
              (log (Ev_nanosleep 0 (usleep_request us) EINTR) w))
    as Hs by (rewrite (tvh_usleep_eq us w Hpos), Hk; reflexivity).
  unfold tvh_safe_usleep at 1. replace (us <=? 0) with false by lia.
  simpl. rewrite (bind_Ret _ _ _ _ _ Hs).
  rewrite (usleep_value_ok rem Hrem).
  set (left := tv_sec rem * 1000000 + (tv_nsec rem + 500) / 1000).
  assert (0 <= left) as Hleft.
  { unfold timespec_ok in Hrem. subst left. Z.div_mod_to_equations. lia. }
  replace (left <? 0) with false by lia.
  unfold tvh_safe_usleep.
  destruct (left >? 0) eqn:Hgt.
  - replace (left <=? 0) with false by lia. reflexivity.
  - replace (left <=? 0) with true by lia. reflexivity.
Qed.

Lemma tvh_safe_usleep_resumes_witness :
  tvh_safe_usleep 1 1000 (world0 kernel_late_signal)
  = Ret tt (log (Ev_nanosleep 0 (usleep_request 1000) EINTR)
              (world0 kernel_late_signal)).
Proof.
  rewrite (tvh_safe_usleep_resumes (world0 kernel_late_signal) 0 1000
             {| tv_sec := 0; tv_nsec := 400 |}).
  - reflexivity.
  - lia.
  - reflexivity.
  - unfold timespec_ok. simpl. lia.
Defined.

(** X9: [tvh_safe_usleep] returns once sleeps are no longer cut short,
    whatever the clock does: when from call number [N] on every sleep runs
    to its end, a run with more fuel than there are calls left before [N]
    returns, after at most one call more than were left before [N].  Its
    calls are a sleep of [us] microseconds and, each time a positive time is
    left of a sleep, a sleep of exactly that time; nothing but the trace has
    changed. *)
Theorem tvh_safe_usleep_returns
  (w : world) (N : nat) (us : Z)
  (Hpos : 0 < us)
  (Hset : sleeps_complete (kern w) N) :
  exists w' evs,
    tvh_safe_usleep (S (N - tick w)) us w = Ret tt w' /\
    quiet w w' evs /\
    sleep_trace (kern w) (tick w) us evs /\
    (length evs <= S (N - tick w))%nat.
Proof.
  destruct (tvh_safe_usleep_complete N (S (N - tick w)) us w)
    as [w' Hrun]; [exact Hset|lia|].
  destruct (tvh_safe_usleep_sound _ _ _ _ Hpos Hrun) as (evs & Hq & Htr & Hn).
  exists w', evs. split; [exact Hrun|]. split; [exact Hq|]. split; assumption.
Qed.

(** The theorem at a sleep of 100 microseconds that is interrupted once. *)
Lemma tvh_safe_usleep_returns_witness :
  exists w' evs,
    tvh_safe_usleep (S (1 - tick (world0 kernel_one_signal))) 100
      (world0 kernel_one_signal)
    = Ret tt w' /\
    quiet (world0 kernel_one_signal) w' evs /\
    sleep_trace (kern (world0 kernel_one_signal))
      (tick (world0 kernel_one_signal)) 100 evs /\
    (length evs <= S (1 - tick (world0 kernel_one_signal)))%nat.
Proof.
  apply (tvh_safe_usleep_returns (world0 kernel_one_signal) 1 100).
  - lia.
  - intros n Hn. destruct n as [|n]; [lia|reflexivity].
Defined.

Example tvh_safe_usleep_one_signal :
  match tvh_safe_usleep 2 100 (world0 kernel_one_signal) with
  | Ret _ w' =>
      trace w' =
      [Ev_nanosleep 0 {| tv_sec := 0; tv_nsec := 100000 |} EINTR;
       Ev_nanosleep 0 {| tv_sec := 0; tv_nsec := 40000 |} 0]
  | _ => False
  end.
Proof. vm_compute. reflexivity. Qed.

(** ** Timed mutex with no time left *)

(** X10: with a timeout of zero or less and a clock that does not run
    backwards, a busy mutex is given up at once: one attempt, one look at
    the clock, [ETIMEDOUT], and no sleep. *)
Theorem timedlock_no_time_left
  (w : world) (fuel : nat) (mutex usec : Z)
  (Husec : usec <= 0)
  (Hrange : in_int64 (k_clock (kern w) (tick w) + usec))
  (Hbusy : k_trylock (kern w) (S (tick w)) = EBUSY)
  (Hmono : k_clock (kern w) (tick w) <= k_clock (kern w) (S (S (tick w)))) :
  tvh_mutex_timedlock (S fuel) mutex usec w
  = Ret ETIMEDOUT
      (log (Ev_fastmonoclock (k_clock (kern w) (S (S (tick w)))))
         (log (Ev_trylock EBUSY)
            (log (Ev_fastmonoclock (k_clock (kern w) (tick w))) w))).
Proof.
  rewrite tvh_mutex_timedlock_eq. simpl.
  unfold pthread_mutex_trylock, getfastmonoclock.
  unfold mbind, M_bind, bind.
  rewrite !tick_log. change (kern (log _ w)) with (kern w).
  rewrite Hbusy. rewrite Z.eqb_refl.
  rewrite !tick_log. change (kern (log _ (log _ w))) with (kern w).
  unfold int64_add. rewrite (wrap64_id _ Hrange).
  replace (_ >=? _) with true by lia. reflexivity.
Qed.

Lemma timedlock_no_time_left_witness :
  tvh_mutex_timedlock 1 0 0 (world0 kernel_busy)
  = Ret ETIMEDOUT
      (log (Ev_fastmonoclock 8000)
         (log (Ev_trylock EBUSY)
            (log (Ev_fastmonoclock 0) (world0 kernel_busy)))).
Proof.
  apply (timedlock_no_time_left (world0 kernel_busy) 0 0 0).
  - lia.
  - unfold in_int64. vm_compute. split; [intros H; discriminate H|reflexivity].
  - reflexivity.
  - vm_compute. intros H; discriminate H.
Defined.

(** ** Writes that fail *)

(** X11: a write that fails with an error outside the retry class ends
    [tvh_write] at once.  Whether the descriptor is not open or the kernel
    refuses the first write, the result is 1 after one write attempt, with
    no further look at the clock and no sleep; no byte was delivered and
    [errno] is the error of that write. *)
Theorem tvh_write_hard_error
  (w : world) (fuel : nat) (fd : Z) (buf : list char) (len e : Z)
  (Hlen : len <> 0)
  (Hclass : ERRNO_AGAIN e = false)
  (Hfail : (fds w !! fd = None /\ e = EBADF) \/
           (is_Some (fds w !! fd) /\
            k_write (kern w) (S (tick w)) < 0 /\
            e = - k_write (kern w) (S (tick w)))) :
  exists w',
    tvh_write (S fuel) fd buf len w = Ret 1 w' /\
    trace w' = trace w ++ [Ev_mclk (k_clock (kern w) (tick w));
                           Ev_write fd len (-1)] /\
    out w' = out w /\ fds w' = fds w /\ errno w' = e.
Proof.
  rewrite tvh_write_eq. set (w0 := log _ w).
  assert (tick w0 = S (tick w)) as Ht0 by apply tick_log.
  simpl tvh_write_loop. apply Z.eqb_neq in Hlen. rewrite Hlen.
  unfold mbind at 1, M_bind at 1, bind at 1.
  unfold mbind at 1, M_bind at 1, bind at 1. unfold write.
  change (fds w0) with (fds w). change (kern w0) with (kern w). rewrite Ht0.
  destruct Hfail as [[Hclosed ->]|([d Hd] & Hneg & ->)].
  - rewrite Hclosed. simpl. unfold mbind, M_bind, bind, gets. simpl.
    rewrite Hlen.
    eexists. split; [reflexivity|]. simpl. rewrite <- app_assoc.
    repeat split.
  - rewrite Hd. replace (_ <? 0) with true by lia. simpl.
    unfold mbind, M_bind, bind, gets.
    change (errno (log _ (with_errno ?e w0))) with e. rewrite Hclass.
    unfold mret, M_ret, ret. rewrite Hlen.
    eexists. split; [reflexivity|]. simpl. rewrite <- app_assoc.
    repeat split.
Qed.

Lemma tvh_write_hard_error_witness :
  exists w',
    tvh_write 1 7 hello 5 (world0 kernel_ok) = Ret 1 w' /\
    trace w' = trace (world0 kernel_ok)
               ++ [Ev_mclk (k_clock (kern (world0 kernel_ok))
                              (tick (world0 kernel_ok)));
                   Ev_write 7 5 (-1)] /\
    out w' = out (world0 kernel_ok) /\ fds w' = fds (world0 kernel_ok) /\
    errno w' = EBADF.
Proof.
  apply (tvh_write_hard_error (world0 kernel_ok) 0 7 hello 5 EBADF).
  - lia.
  - reflexivity.
  - left. split; reflexivity.
Defined.

(** ** The calls of a write *)

Lemma write_event fd buf len w :
  0 <= len ->
  exists c w1,
    write fd buf len w = Ret c w1 /\
    trace w1 = trace w ++ [Ev_write fd len c] /\
    kern w1 = kern w /\
    (c = -1 \/
     (0 <= k_write (kern w) (tick w) /\
      c = Z.min (k_write (kern w) (tick w)) len)).
Proof.
  intros Hlen. unfold write.
  destruct (fds w !! fd) as [d|]; [|eexists _, _; repeat split; auto].
  destruct (k_write (kern w) (tick w) <? 0) eqn:Hneg;
    eexists _, _; (split; [reflexivity|]); (split; [reflexivity|]);
    (split; [reflexivity|]); [left; reflexivity|right; lia].
Qed.

Lemma tvh_write_loop_calls fuel : forall limit fd buf len w left w',
  0 <= len < 2 ^ 64 ->
  tvh_write_loop fuel limit fd buf len w = Ret left w' ->
  exists evs,
    trace w' = trace w ++ evs /\
    write_trace (kern w) limit fd (tick w) len evs left.
Proof.
  induction fuel as [|fuel IH]; intros limit fd buf len w left w' Hsz Hrun.
  - simpl in Hrun. destruct (len =? 0) eqn:E; [|discriminate Hrun].
    injection Hrun as <- <-. apply Z.eqb_eq in E. subst len.
    exists []. rewrite app_nil_r. split; [reflexivity|constructor].
  - simpl in Hrun. destruct (len =? 0) eqn:E.
    { injection Hrun as <- <-. apply Z.eqb_eq in E. subst len.
      exists []. rewrite app_nil_r. split; [reflexivity|constructor]. }
    apply Z.eqb_neq in E.
    destruct (write_event fd buf len w ltac:(lia))
      as (c & w1 & Hw & Htr1 & Hk1 & Hc).
    assert (tick w1 = S (tick w)) as Ht1
      by (unfold tick; rewrite Htr1, length_app; simpl; lia).
    rewrite (bind_Ret _ _ _ _ _ Hw) in Hrun.
    destruct (c <? 0) eqn:Hneg.
    + assert (c = -1) as -> by lia.
      unfold mbind at 1, M_bind at 1, bind at 1, gets in Hrun.
      destruct (ERRNO_AGAIN (errno w1)).
      * unfold mclk in Hrun.
        unfold mbind at 1, M_bind at 1, bind at 1 in Hrun.
        rewrite Hk1, Ht1 in Hrun.
        set (t := k_clock (kern w) (S (tick w))) in *.
        set (w2 := log (Ev_mclk t) w1) in *.
        destruct (t >? limit) eqn:Hlate.
        { injection Hrun as <- <-. exists [Ev_write fd len (-1); Ev_mclk t].
          split; [simpl; rewrite Htr1, <- app_assoc; reflexivity|].
          apply wt_late; [exact E|fold t; lia]. }
        apply bind_Ret_inv in Hrun as ([] & w3 & Hsleep & Hrest).
        apply tvh_safe_usleep_sound in Hsleep as (sl & Hq & Hsl & _); [|lia].
        assert (tick w2 = S (S (tick w))) as Ht2
          by (subst w2; rewrite tick_log, Ht1; reflexivity).
        assert (kern w2 = kern w) as Hk2 by exact Hk1.
        rewrite Hk2, Ht2 in Hsl.
        apply IH in Hrest as (evs & Htr & Hwt); [|exact Hsz].
        rewrite (quiet_kern _ _ _ Hq), Hk2, (quiet_tick _ _ _ Hq), Ht2 in Hwt.
        destruct Hq as (_ & _ & _ & _ & _ & _ & Htr3).
        exists (Ev_write fd len (-1) :: Ev_mclk t :: sl ++ evs). split.
        -- rewrite Htr, Htr3. simpl. rewrite Htr1, <- !app_assoc. reflexivity.
        -- apply wt_retry; [exact E|fold t; lia|exact Hsl|exact Hwt].
      * injection Hrun as <- <-. exists [Ev_write fd len (-1)].
        split; [exact Htr1|]. apply wt_failed. exact E.
    + destruct Hc as [Hc|[Hkw Hc]]; [lia|].
      assert (0 <= c <= len) as Hcr by lia.
      assert (size_sub len c = len - c) as Hsub
        by (apply wrap_size_id; unfold in_size; lia).
      rewrite Hsub in Hrun.
      apply IH in Hrun as (evs & Htr & Hwt); [|lia].
      rewrite Hk1, Ht1 in Hwt.
      exists (Ev_write fd len c :: evs). split.
      * rewrite Htr, Htr1, <- app_assoc. reflexivity.
      * apply wt_taken; assumption.
Qed.

(** X12: the calls of a [tvh_write] that returns.  It reads the clock once
    to fix its deadline, 25 seconds on.  Each write is asked for exactly the
    bytes the earlier ones left, and one that succeeds takes what the kernel
    has room for.  It sleeps only after a write that failed and a look at
    the clock that found the deadline not passed, and then with one
    [tvh_safe_usleep] of 100 microseconds: one request for 100
    microseconds, followed by a further sleep only when a positive time is
    left of the one before, and then for that time.  After a failed write
    and a clock past the deadline, or a failed write it does not look at the
    clock for, it makes no further call.  The result is 0 exactly when the
    count left is 0. *)
Theorem tvh_write_calls
  (w : world) (fuel : nat) (fd : Z) (buf : list char) (len v : Z) (w' : world)
  (Hsz : 0 <= len < 2 ^ 64)
  (Hrun : tvh_write fuel fd buf len w = Ret v w') :
  exists evs left,
    trace w' = trace w ++ Ev_mclk (k_clock (kern w) (tick w)) :: evs /\
    write_trace (kern w) (write_limit w) fd (S (tick w)) len evs left /\
    v = (if left =? 0 then 0 else 1) /\
    (in_int64 (k_clock (kern w) (tick w) + 25000000) ->
     write_limit w = k_clock (kern w) (tick w) + 25000000).
Proof.
  rewrite tvh_write_eq in Hrun.
  apply bind_Ret_inv in Hrun as (left & w1 & Hloop & Hret).
  injection Hret as <- <-.
  apply tvh_write_loop_calls in Hloop as (evs & Htr & Hwt); [|exact Hsz].
  rewrite tick_log in Hwt.
  exists evs, left. split.
  { rewrite Htr. simpl. rewrite <- app_assoc. reflexivity. }
  split; [exact Hwt|]. split; [reflexivity|].
  intros Hr. unfold write_limit, int64_add.
  change (sec2mono 25) with 25000000. apply wrap64_id. exact Hr.
Qed.

(** The theorem at five bytes written to a slow reader: two bytes are
    taken, the next write finds the reader not ready, the clock is read,
    the sleep of 100 microseconds is interrupted and resumed for the 40
    microseconds left, and the last write takes the three bytes left. *)
Lemma tvh_write_calls_witness :
  exists w',
    tvh_write 4 1 hello 5 (world0 kernel_slow_reader) = Ret 0 w' /\
    trace w' =
    [Ev_mclk 0; Ev_write 1 5 2; Ev_write 1 3 (-1); Ev_mclk 3000;
     Ev_nanosleep 0 {| tv_sec := 0; tv_nsec := 100000 |} EINTR;
     Ev_nanosleep 0 {| tv_sec := 0; tv_nsec := 40000 |} 0;
     Ev_write 1 3 3] /\
    exists evs left,
      trace w' = trace (world0 kernel_slow_reader)
                 ++ Ev_mclk (k_clock (kern (world0 kernel_slow_reader))
                               (tick (world0 kernel_slow_reader))) :: evs /\
      write_trace (kern (world0 kernel_slow_reader))
        (write_limit (world0 kernel_slow_reader)) 1
        (S (tick (world0 kernel_slow_reader))) 5 evs left /\
      0 = (if left =? 0 then 0 else 1) /\
      (in_int64 (k_clock (kern (world0 kernel_slow_reader))
                   (tick (world0 kernel_slow_reader)) + 25000000) ->
       write_limit (world0 kernel_slow_reader)
       = k_clock (kern (world0 kernel_slow_reader))
           (tick (world0 kernel_slow_reader)) + 25000000).
Proof.
  eexists. split; [vm_compute; reflexivity|]. split; [reflexivity|].
  apply (tvh_write_calls (world0 kernel_slow_reader) 4 1 hello 5 0).
  - split; [lia|reflexivity].
  - reflexivity.
Defined.

(** ** Deadlines of timed waits *)

Lemma timedwait_timespec_fields monoclock :
  in_int64 monoclock ->
  tv_sec (timedwait_timespec monoclock) = Z.quot monoclock 1000000 /\
  tv_nsec (timedwait_timespec monoclock) = Z.rem monoclock 1000000 * 1000.
Proof.
  intros Hr. unfold timedwait_timespec, MONOCLOCK_RESOLUTION. simpl.
  unfold int64_div, int64_rem.
  pose proof (Z.quot_rem' monoclock 1000000) as Hqr.
  pose proof (Z.rem_bound_abs monoclock 1000000 ltac:(lia)) as Hrb.
  assert (Z.abs (Z.quot monoclock 1000000) <= Z.abs monoclock) as Hqb.
  { rewrite <- (Z.quot_abs monoclock 1000000) by lia.
    apply Z.quot_le_upper_bound; lia. }
  unfold in_int64 in Hr. pow_consts.
  split.
  - apply wrap64_id. unfold in_int64. pow_consts. lia.
  - rewrite (wrap64_id (Z.rem monoclock 1000000))
      by (unfold in_int64; pow_consts; lia).
    change (Z.quot 1000000000 (wrap_size 1000000)) with 1000.
    change (wrap_size 1000) with 1000.
    unfold wrap_size, wrap64. pow_consts.
    rewrite Z.mul_mod_idemp_l by lia.
    set (m := Z.rem monoclock 1000000) in *.
    assert (-1000000 < m < 1000000) as Hm by lia.
    destruct (Z_lt_le_dec m 0) as [Hneg|Hnn].
    + replace ((m * 1000) mod 18446744073709551616)
        with (m * 1000 + 18446744073709551616).
      2:{ apply Z.mod_unique with (q := -1); lia. }
      replace ((m * 1000 + 18446744073709551616 + 9223372036854775808)
               mod 18446744073709551616)
        with (m * 1000 + 9223372036854775808).
      2:{ apply Z.mod_unique with (q := 1); lia. }
      lia.
    + rewrite (Z.mod_small (m * 1000)) by lia.
      rewrite Z.mod_small by lia. lia.
Qed.

(** X13: the deadline [tvh_cond_timedwait] hands to
    [pthread_cond_timedwait].  For a monotonic time that is not negative it
    is a well-formed [timespec] that amounts to exactly [monoclock]
    microseconds, so later times give later deadlines.  For a negative time
    that is not a whole number of seconds its nanoseconds are negative: it
    is not a well-formed time. *)
Theorem tvh_cond_timedwait_deadline
  (wait : tvh_cond_t -> Z -> timespec -> M Z)
  (c : tvh_cond_t) (mutex monoclock : Z) (w : world)
  (Hr : in_int64 monoclock) :
  exists ts,
    tvh_cond_timedwait wait c mutex monoclock w = wait c mutex ts w /\
    (0 <= monoclock ->
     0 <= tv_sec ts /\ 0 <= tv_nsec ts < 1000000000 /\
     tv_sec ts * 1000000000 + tv_nsec ts = monoclock * 1000) /\
    (monoclock < 0 -> Z.rem monoclock 1000000 <> 0 -> tv_nsec ts < 0).
Proof.
  exists (timedwait_timespec monoclock). split; [reflexivity|].
  destruct (timedwait_timespec_fields monoclock Hr) as [-> ->].
  split.
  - intros Hnn. rewrite Z.quot_div_nonneg, Z.rem_mod_nonneg by lia.
    Z.div_mod_to_equations. lia.
  - intros Hneg Hrem.
    pose proof (Z.rem_sign_nz monoclock 1000000 ltac:(lia) Hrem) as Hsgn.
    rewrite (Z.sgn_neg monoclock Hneg) in Hsgn.
    apply Z.sgn_neg_iff in Hsgn. lia.
Qed.

Lemma tvh_cond_timedwait_deadline_witness :
  tvh_cond_timedwait never_signalled {| cond := Some CLOCK_MONOTONIC |} 0
    (-1500000) (world0 kernel_ok)
  = Ret EINVAL (world0 kernel_ok).
Proof.
  destruct (tvh_cond_timedwait_deadline never_signalled
              {| cond := Some CLOCK_MONOTONIC |} 0 (-1500000)
              (world0 kernel_ok)) as (ts & Hrun & _ & Hneg).
  - unfold in_int64. vm_compute. split; [intros H; discriminate H|reflexivity].
  - rewrite Hrun. unfold never_signalled.
    replace (tv_nsec ts <? 0) with true; [reflexivity|].
    symmetry. apply Z.ltb_lt. apply Hneg; [lia|].
    vm_compute. intros H. discriminate H.
Defined.

Example tvh_cond_timedwait_sample :
  tvh_cond_timedwait never_signalled {| cond := Some CLOCK_MONOTONIC |} 0
    2500000 (world0 kernel_ok)
  = Ret ETIMEDOUT (world0 kernel_ok) /\
  timedwait_timespec 2500000 = {| tv_sec := 2; tv_nsec := 500000000 |}.
Proof. split; reflexivity. Qed.

(** ** The three builds of the sort *)

Section ShimAgainstNative.

Variables (f : compar_t) (ctx : Z).

Let stored : qsort_r_data_t := {| cmp := Some f; aux := ctx |}.

(** Whatever the library's routine asks, the comparator of the shim answers
    and records as the caller's comparator with the caller's context
    does. *)
Lemma run_plan_shim p : forall w,
  run_plan qsort_r_wrap p (with_qsort_r_data stored w)
  = outcome_map (with_qsort_r_data stored)
      (run_plan (fun a b => call_compar f a b ctx) p w).
Proof.
  induction p as [result|a b next IH]; intros w; [reflexivity|].
  simpl.
  rewrite (bind_Ret (qsort_r_wrap a b) _ (with_qsort_r_data stored w)
             (f a b ctx)
             (with_qsort_r_data stored (log (Ev_compar a b ctx) w)) eq_refl).
  rewrite (bind_Ret (call_compar f a b ctx) _ w (f a b ctx)
             (log (Ev_compar a b ctx) w) eq_refl).
  apply IH.
Qed.

Lemma run_plan_calls p : forall w,
  exists v w' evs,
    run_plan (fun a b => call_compar f a b ctx) p w = Ret v w' /\
    quiet w w' evs /\ Forall (compar_with ctx) evs.
Proof.
  induction p as [result|a b next IH]; intros w.
  - exists result, w, []. split; [reflexivity|].
    split; [apply quiet_refl|constructor].
  - simpl.
    rewrite (bind_Ret (call_compar f a b ctx) _ w (f a b ctx)
               (log (Ev_compar a b ctx) w) eq_refl).
    destruct (IH (f a b ctx) (log (Ev_compar a b ctx) w))
      as (v & w' & evs & Hrun & Hq & Hall).
    exists v, w', (Ev_compar a b ctx :: evs). split; [exact Hrun|]. split.
    + apply (quiet_trans w (log (Ev_compar a b ctx) w) w' [_] evs);
        [apply quiet_log|exact Hq].
    + constructor; [by exists a, b|exact Hall].
Qed.

End ShimAgainstNative.

(** The insertion sort of [qsort] follows [insertion_plan]. *)
Lemma run_insert_plan compar x l : forall k w,
  run_plan compar (insert_plan x l k) w
  = (s ← qsort_insert compar x l; run_plan compar (k s)) w.
Proof.
  induction l as [|y l IH]; intros k w; [reflexivity|].
  simpl. unfold mbind, M_bind, bind.
  destruct (compar x y w) as [r w1|w1|]; try reflexivity.
  destruct (r <=? 0); [reflexivity|].
  rewrite IH. unfold mbind, M_bind, bind.
  destruct (qsort_insert compar x l w1); reflexivity.
Qed.

Lemma run_elements_plan compar l : forall k w,
  run_plan compar (elements_plan l k) w
  = (s ← qsort_elements compar l; run_plan compar (k s)) w.
Proof.
  induction l as [|x l IH]; intros k w; [reflexivity|].
  simpl. rewrite IH. unfold mbind, M_bind, bind.
  destruct (qsort_elements compar l w) as [s w1|w1|]; try reflexivity.
  apply run_insert_plan.
Qed.

Lemma qsort_follows_plan base nmemb size compar w :
  qsort base nmemb size compar w
  = qsort_over insertion_plan base nmemb size compar w.
Proof.
  unfold qsort_over, insertion_plan, qsort. rewrite run_elements_plan.
  reflexivity.
Qed.

Lemma outcome_map_id {A} (o : outcome A) : outcome_map (fun w => w) o = o.
Proof. destruct o; reflexivity. Qed.

(** X14: the way a build hands the comparator to the library makes no
    difference, whatever comparison sort the library implements.  In each
    of the three builds (glibc, BSD and Darwin through [tvh_qsort_swap], and
    the thread-local shim) the routine of the library gets every answer from
    the caller's comparator called with the two blocks it asked about and
    the caller's context, so over one and the same routine the builds make
    the same comparator calls in the same order and leave the same array;
    the only difference is that the build with the shim leaves the
    comparator and the context in the thread-local data.  That run returns,
    and the only calls it makes are calls of the comparator with the
    caller's context.  The insertion sort [tvh_qsort_r] is modelled with is
    one such routine. *)
Theorem tvh_qsort_r_builds_agree
  (libc_sort : list char -> nat -> nat -> sort_plan)
  (w : world) (base : list char) (nmemb size : nat)
  (compar : compar_t) (arg0 : Z) :
  (forall b,
     tvh_qsort_r_over libc_sort b base nmemb size compar arg0 w
     = outcome_map (build_leaves b compar arg0)
         (run_plan (fun x y => call_compar compar x y arg0)
            (libc_sort base nmemb size) w)) /\
  (exists v w' evs,
     run_plan (fun x y => call_compar compar x y arg0)
       (libc_sort base nmemb size) w
     = Ret v w' /\
     quiet w w' evs /\ Forall (compar_with arg0) evs) /\
  (forall b,
     tvh_qsort_r b base nmemb size compar arg0 w
     = tvh_qsort_r_over insertion_plan b base nmemb size compar arg0 w).
Proof.
  split; [|split].
  - intros b. destruct b.
    + unfold build_leaves. rewrite outcome_map_id. reflexivity.
    + unfold build_leaves. rewrite outcome_map_id. reflexivity.
    + unfold tvh_qsort_r_over, qsort_r_over, qsort_over, build_leaves.
      change (run_plan qsort_r_wrap (libc_sort base nmemb size)
                (with_qsort_r_data {| cmp := Some compar; aux := arg0 |} w)
              = outcome_map
                  (with_qsort_r_data {| cmp := Some compar; aux := arg0 |})
                  (run_plan (fun a b => call_compar compar a b arg0)
                     (libc_sort base nmemb size) w)).
      apply (run_plan_shim compar arg0).
  - apply (run_plan_calls compar arg0).
  - intros b.
    assert (forall c w0,
              qsort base nmemb size c w0
              = qsort_over insertion_plan base nmemb size c w0) as Hq
      by (intros c w0; apply qsort_follows_plan).
    destruct b.
    + apply Hq.
    + apply Hq.
    + unfold tvh_qsort_r, tvh_qsort_r_over, qsort_r, qsort_r_over.
      unfold mbind, M_bind, bind, modify. apply Hq.
Qed.

(** Under the shim a routine that compares in another order than the
    insertion sort still gets the caller's comparator and context: here one
    that compares the second element with the first and leaves the array as
    it is. *)
Example tvh_qsort_r_other_routine :
  let routine (base : list char) (nmemb size : nat) :=
    Ask (take size (drop size base)) (take size base) (fun _ => Leave base) in
  match tvh_qsort_r_over routine Shim digits 5 1 compar_first_byte 7
          (world0 kernel_ok) with
  | Ret v w' =>
      v = digits /\
      trace w' = [Ev_compar (list_ascii_of_string "3")
                    (list_ascii_of_string "5") 7] /\
      aux (qsort_r_data w') = 7
  | _ => False
  end.
Proof. vm_compute. repeat split. Qed.

(** ** The thread a descriptor starts *)

Lemma take_take_le {A} (n m : nat) (l : list A) :
  (n <= m)%nat -> take n (take m l) = take n l.
Proof. intros H. rewrite take_take. f_equal. lia. Qed.

Lemma c_string_thread_name name0 :
  c_string (list_ascii_of_string "tvh:"
            ++ take 12 (strncpy_bytes 13 name0) ++ [NUL])
  = list_ascii_of_string "tvh:" ++ take 12 (c_string name0).
Proof.
  cbn [list_ascii_of_string app c_string].
  change (Ascii.eqb "t" NUL) with false.
  change (Ascii.eqb "v" NUL) with false.
  change (Ascii.eqb "h" NUL) with false.
  change (Ascii.eqb ":" NUL) with false.
  cbv iota. do 4 f_equal. apply c_string_take_strncpy.
Qed.

(** X15: the thread [tvhthread_create] describes, as [thread_wrapper]
    starts it.  The start routine is called once, with the caller's
    argument, and its result is the result of the thread; it runs with
    SIGTERM and SIGQUIT unblocked and every other signal blocked or not as
    inherited, with [doexit] installed for SIGTERM and [doquit] for SIGQUIT,
    and with the descriptor still allocated, which is freed when it
    returns.  The name the platform shows is "tvh:" followed by the first 11
    characters of the caller's name on Linux and the first 12 on FreeBSD and
    Darwin; elsewhere no name is set. *)
Theorem thread_wrapper_runs_entry
  (pf : platform) (call : Z -> Z -> thread -> Z * thread)
  (start_routine arg0 : Z) (name0 : list char) (w : world) (t : thread) :
  exists r ts w' t_in,
    tvhthread_create start_routine arg0 name0 w = Ret (r, ts) w' /\
    thread_wrapper pf call ts t
    = (fst (call start_routine arg0 t_in),
       free_thread_state (snd (call start_routine arg0 t_in))) /\
    (forall s, s ∈ th_blocked t_in <->
               s ∈ th_blocked t /\ s <> SIGTERM /\ s <> SIGQUIT) /\
    th_handlers t_in !! SIGTERM = Some doexit /\
    th_handlers t_in !! SIGQUIT = Some doquit /\
    (forall s, s <> SIGTERM -> s <> SIGQUIT ->
               th_handlers t_in !! s = th_handlers t !! s) /\
    th_ts_live t_in = th_ts_live t /\
    th_comm t_in =
      match pf with
      | PLATFORM_LINUX =>
          list_ascii_of_string "tvh:" ++ take 11 (c_string name0)
      | PLATFORM_FREEBSD | PLATFORM_DARWIN =>
          list_ascii_of_string "tvh:" ++ take 12 (c_string name0)
      | PLATFORM_OTHER => th_comm t
      end.
Proof.
  set (ts := {| run := start_routine; arg := arg0;
                name := list_ascii_of_string "tvh:"
                        ++ take 12 (strncpy_bytes 13 name0) ++ [NUL] |}).
  exists (k_create (kern w) (tick w)), ts,
    (log (Ev_pthread_create ts (k_create (kern w) (tick w))) w),
    (tvhtrace_thread ts
       (signal SIGQUIT doquit
          (signal SIGTERM doexit
             (pthread_sigmask_unblock
                (sigaddset (sigaddset sigemptyset SIGTERM) SIGQUIT)
                (set_thread_name pf (name ts) t))))).
  split; [apply thread_name_bytes|].
  split.
  { unfold thread_wrapper. cbn [run arg ts].
    destruct (call start_routine arg0 _); reflexivity. }
  split.
  { intros s. cbn [th_blocked tvhtrace_thread signal pthread_sigmask_unblock].
    unfold sigaddset, sigemptyset.
    assert (forall b : gset Z,
              s ∈ b ∖ (∅ ∪ {[SIGTERM]} ∪ {[SIGQUIT]}) <->
              s ∈ b /\ s <> SIGTERM /\ s <> SIGQUIT) as Hset.
    { intros b. rewrite elem_of_difference, !elem_of_union, !elem_of_singleton.
      rewrite elem_of_empty. tauto. }
    destruct pf; cbn [set_thread_name th_blocked]; apply Hset. }
  split.
  { cbn [th_handlers tvhtrace_thread signal].
    rewrite lookup_insert_ne by discriminate. apply lookup_insert_eq. }
  split.
  { cbn [th_handlers tvhtrace_thread signal]. apply lookup_insert_eq. }
  split.
  { intros s Hterm Hquit.
    cbn [th_handlers tvhtrace_thread signal pthread_sigmask_unblock].
    rewrite !lookup_insert_ne by congruence.
    destruct pf; reflexivity. }
  split; [destruct pf; reflexivity|].
  cbn [th_comm tvhtrace_thread signal pthread_sigmask_unblock name].
  pose proof (c_string_thread_name name0) as Hcs.
  change (name ts)
    with (list_ascii_of_string "tvh:"
          ++ take 12 (strncpy_bytes 13 name0) ++ [NUL]).
  destruct pf; cbn [set_thread_name th_comm]; rewrite ?Hcs.
  - change (take 15 (list_ascii_of_string "tvh:" ++ ?l))
      with (list_ascii_of_string "tvh:" ++ take 11 l).
    f_equal. apply take_take_le. lia.
  - apply take_ge. rewrite length_app, length_take.
    change (length (list_ascii_of_string "tvh:")) with 4%nat. lia.
  - apply take_ge. rewrite length_app, length_take.
    change (length (list_ascii_of_string "tvh:")) with 4%nat. lia.
  - reflexivity.
Qed.
